(** * Simulateur de droits de succession et donation

    A shallow embedding of the calculation engine of [src/App.tsx] (the
    [useEffect] callback under "Calculation Engine" and the static table
    [FISCAL_DATA]), and the properties of it that the specification states.

    The engine computes on JavaScript numbers, IEEE 754 binary64. It is
    written once, over an interface [JsNumber] of the operations it uses,
    and read at two instances:
    - [float], binary64 with its rounding after every operation: the
      numbers the program runs on;
    - [xnum], the rationals extended with [Infinity], [-Infinity] and [NaN]:
      the same operations without rounding, the values that the
      specification computes by hand.
    Every statement about all amounts is proved at [float], or for every
    instance of the interface at once. The instance [xnum] is used in
    concrete runs only, next to the run on [float], to compare what the
    program computes with the value in exact arithmetic.

    The statements on all binary64 numbers rest on a description of the
    rounding of [+], [-] and [*] and of the comparisons on integer values,
    derived from the specification of the primitive floating-point
    operations of the Standard Library.

    The file also embeds the e-mail form of the component
    ([handleEmailSubmit], with the regular expression that tests the
    address) and the mail function [netlify/functions/send-simulation.js]
    ([getEmailBody] and the handler), over JavaScript strings as sequences
    of UTF-16 code units and over the values that [JSON.parse] returns. *)

From Stdlib Require Import ZArith QArith Qabs Qminmax Lqa Lia Bool List.
From Stdlib Require Import Uint63 PrimFloat Floats.
From stdpp Require Import base strings gmap.

Set Warnings "-inexact-float".

(** * The program *)

(** ** JavaScript numbers *)

(** The operations of the engine on numbers: decimal literals, [Infinity],
    [+], [-], [*], [<=], [Math.max] and [Math.min]. *)
Class JsNumber (N : Type) := {
  lit : Q -> N;
  Infinity : N;
  num_add : N -> N -> N;
  num_sub : N -> N -> N;
  num_mul : N -> N -> N;
  num_le : N -> N -> bool;
  Math_max : N -> N -> N;
  Math_min : N -> N -> N
}.

Declare Scope js_scope.
Delimit Scope js_scope with js.
Infix "+" := num_add : js_scope.
Infix "-" := num_sub : js_scope.
Infix "*" := num_mul : js_scope.
Infix "<=" := num_le : js_scope.

(** *** binary64 *)

Module Binary64.

Definition of_Z (z : Z) : float :=
  match z with
  | Z0 => PrimFloat.zero
  | Zpos _ => PrimFloat.of_uint63 (Uint63.of_Z z)
  | Zneg p => PrimFloat.opp (PrimFloat.of_uint63 (Uint63.of_Z (Zpos p)))
  end.

(** A decimal literal denotes the double nearest to its value: the
    correctly rounded quotient of two integers below 2^53. *)
Definition literal (q : Q) : float :=
  PrimFloat.div (of_Z (Qnum q)) (of_Z (Zpos (Qden q))).

Definition is_nan (x : float) : bool := negb (PrimFloat.eqb x x).

(** [Math.max]: [NaN] when an argument is [NaN], else the larger one,
    with [+0] above [-0]. *)
Definition max (x y : float) : float :=
  if is_nan x then x
  else if is_nan y then y
  else if PrimFloat.ltb x y then y
  else if PrimFloat.ltb y x then x
  else if PrimFloat.get_sign x then y else x.

Definition min (x y : float) : float :=
  if is_nan x then x
  else if is_nan y then y
  else if PrimFloat.ltb x y then x
  else if PrimFloat.ltb y x then y
  else if PrimFloat.get_sign x then x else y.

End Binary64.

#[export] Instance float_number : JsNumber float := {
  lit := Binary64.literal;
  Infinity := PrimFloat.infinity;
  num_add := PrimFloat.add;
  num_sub := PrimFloat.sub;
  num_mul := PrimFloat.mul;
  num_le := PrimFloat.leb;
  Math_max := Binary64.max;
  Math_min := Binary64.min
}.

(** *** Exact numbers *)

(** The same operations without rounding. No statement about all amounts
    is read at this instance: it gives the exact value next to which a
    concrete run on binary64 is put. *)

Inductive xnum : Type :=
| Fin (q : Q)
| PInf
| NInf
| NaN.

Module Exact.

Definition opp (x : xnum) : xnum :=
  match x with
  | Fin q => Fin (- q)
  | PInf => NInf
  | NInf => PInf
  | NaN => NaN
  end.

Definition add (x y : xnum) : xnum :=
  match x, y with
  | NaN, _ | _, NaN => NaN
  | Fin a, Fin b => Fin (a + b)
  | PInf, NInf | NInf, PInf => NaN
  | PInf, _ | _, PInf => PInf
  | NInf, _ | _, NInf => NInf
  end.

Definition sub (x y : xnum) : xnum := add x (opp y).

Definition scale_inf (positive : bool) (q : Q) : xnum :=
  match Qcompare q 0 with
  | Eq => NaN
  | Gt => if positive then PInf else NInf
  | Lt => if positive then NInf else PInf
  end.

Definition mul (x y : xnum) : xnum :=
  match x, y with
  | NaN, _ | _, NaN => NaN
  | Fin a, Fin b => Fin (a * b)
  | PInf, Fin q | Fin q, PInf => scale_inf true q
  | NInf, Fin q | Fin q, NInf => scale_inf false q
  | PInf, PInf | NInf, NInf => PInf
  | PInf, NInf | NInf, PInf => NInf
  end.

Definition le (x y : xnum) : bool :=
  match x, y with
  | NaN, _ | _, NaN => false
  | NInf, _ | _, PInf => true
  | Fin a, Fin b => Qle_bool a b
  | _, _ => false
  end.

Definition max (x y : xnum) : xnum :=
  match x, y with
  | NaN, _ | _, NaN => NaN
  | PInf, _ | _, PInf => PInf
  | NInf, z | z, NInf => z
  | Fin a, Fin b => Fin (Qmax a b)
  end.

Definition min (x y : xnum) : xnum :=
  match x, y with
  | NaN, _ | _, NaN => NaN
  | NInf, _ | _, NInf => NInf
  | PInf, z | z, PInf => z
  | Fin a, Fin b => Fin (Qmin a b)
  end.

End Exact.

#[export] Instance exact_number : JsNumber xnum := {
  lit := Fin;
  Infinity := PInf;
  num_add := Exact.add;
  num_sub := Exact.sub;
  num_mul := Exact.mul;
  num_le := Exact.le;
  Math_max := Exact.max;
  Math_min := Exact.min
}.

(** ** Static data and configuration *)

Section Engine.

Context {N : Type} `{JsNumber N}.
Local Open Scope js_scope.

(** An entry [{ tranche, taux }] of a [barème]. *)
Record Palier := { tranche : N; taux : N }.

Record AbattementInfo := {
  abattement : N;
  barème : list Palier;
  note : option string
}.

Definition barème_ligne_directe : list Palier :=
  [ {| tranche := lit 8072; taux := lit 0.05 |};
    {| tranche := lit 12109; taux := lit 0.10 |};
    {| tranche := lit 15932; taux := lit 0.15 |};
    {| tranche := lit 552324; taux := lit 0.20 |};
    {| tranche := lit 902838; taux := lit 0.30 |};
    {| tranche := lit 1805677; taux := lit 0.40 |};
    {| tranche := Infinity; taux := lit 0.45 |} ].

(** The object literal [FISCAL_DATA]: [enfant] and [conjoint] carry the
    same seven entries, written out twice in the source. *)
Definition FISCAL_DATA : gmap string AbattementInfo :=
  list_to_map
    [ ("enfant"%string,
        {| abattement := lit 100000;
           barème := barème_ligne_directe;
           note := None |});
      ("conjoint"%string,
        {| abattement := lit 80724;
           barème := barème_ligne_directe;
           note := Some "Pour une succession, le conjoint ou partenaire de PACS est totalement exonéré."%string |});
      ("frere-soeur"%string,
        {| abattement := lit 15932;
           barème := [ {| tranche := lit 24430; taux := lit 0.35 |};
                       {| tranche := Infinity; taux := lit 0.45 |} ];
           note := None |});
      ("neveu-niece"%string,
        {| abattement := lit 7967;
           barème := [ {| tranche := Infinity; taux := lit 0.55 |} ];
           note := None |});
      ("autre"%string,
        {| abattement := lit 1594;
           barème := [ {| tranche := Infinity; taux := lit 0.60 |} ];
           note := None |}) ].

(** ** Property access on the registry

    [data[key]] on a plain object finds the object's own entry, else a
    member inherited from [Object.prototype], else [undefined].  The
    inherited members are functions (and, for [__proto__], the prototype
    itself): truthy values without [abattement] or [barème]. *)

Definition Object_prototype_keys : list string :=
  [ "constructor"; "hasOwnProperty"; "isPrototypeOf"; "propertyIsEnumerable";
    "toLocaleString"; "toString"; "valueOf"; "__proto__";
    "__defineGetter__"; "__defineSetter__";
    "__lookupGetter__"; "__lookupSetter__" ]%string.

Inductive property : Type :=
| Own (info : AbattementInfo)
| Inherited
| Undefined.

Definition get (data : gmap string AbattementInfo) (key : string) : property :=
  match data !! key with
  | Some info => Own info
  | None => if bool_decide (key ∈ Object_prototype_keys) then Inherited else Undefined
  end.

(** ** Component state *)

Inductive TypeTransmission := succession | donation.

(** The object passed to [setResults]. *)
Record Results := {
  droitsAPayer : N;
  montantNet : N;
  abattementApplique : N;
  baseTaxable : N
}.

(** An entry of [chartData]. *)
Record ChartEntry := { name : string; value : N }.

(** The part of the component state that the calculation writes. *)
Record AppState := {
  results : Results;
  chartData : list ChartEntry
}.

(** [useState] initial values of [results] and [chartData]. *)
Definition initial_state : AppState :=
  {| results := {| droitsAPayer := lit 0; montantNet := lit 0;
                   abattementApplique := lit 0; baseTaxable := lit 0 |};
     chartData := [] |}.

(** How a run of the callback ends: it returns, or an exception escapes. *)
Inductive js_error := TypeError.

Inductive completion : Type :=
| Normal (st : AppState)
| Throw (e : js_error).

(** ** Calculation engine *)

(** The [for (const palier of fiscalInfo.barème)] loop, with its three
    variables [droits], [montantRestantATaxer] and [derniereTranche]. *)
Fixpoint bracket_loop (paliers : list Palier)
    (droits montantRestantATaxer derniereTranche : N) : N :=
  match paliers with
  | [] => droits
  | palier :: rest =>
      if montantRestantATaxer <= lit 0 then droits
      else
        let montantDansLaTranche :=
          Math_min montantRestantATaxer (tranche palier - derniereTranche) in
        bracket_loop rest
          (droits + montantDansLaTranche * taux palier)
          (montantRestantATaxer - montantDansLaTranche)
          (tranche palier)
  end.

Definition is_succession (t : TypeTransmission) : bool :=
  match t with succession => true | donation => false end.

(** The [useEffect] callback, over the registry it reads.  [st] is the
    state before the run; a run that returns without calling [setResults]
    and [setChartData] leaves it as it is. *)
Definition calculation_engine (data : gmap string AbattementInfo)
    (typeTransmission : TypeTransmission) (lienParente : string)
    (montantTransmis donationsAnterieures : N) (st : AppState) : completion :=
  if is_succession typeTransmission && String.eqb lienParente "conjoint" then
    Normal {| results := {| droitsAPayer := lit 0;
                            montantNet := montantTransmis;
                            abattementApplique := montantTransmis;
                            baseTaxable := lit 0 |};
              chartData := [ {| name := "Montant Net Reçu";
                                value := montantTransmis |} ] |}
  else
    match get data lienParente with
    | Undefined => Normal st
    | Inherited => Throw TypeError
    | Own fiscalInfo =>
        let abattementDeBase := abattement fiscalInfo in
        let abattementReel :=
          Math_max (lit 0) (abattementDeBase - donationsAnterieures) in
        let baseTaxable_ := Math_max (lit 0) (montantTransmis - abattementReel) in
        let droits := bracket_loop (barème fiscalInfo) (lit 0) baseTaxable_ (lit 0) in
        let montantNetRecu := montantTransmis - droits in
        Normal {| results := {| droitsAPayer := droits;
                                montantNet := montantNetRecu;
                                abattementApplique := abattementReel;
                                baseTaxable := baseTaxable_ |};
                  chartData := [ {| name := "Montant Net Reçu";
                                    value := montantNetRecu |};
                                 {| name := "Droits à payer";
                                    value := droits |} ] |}
    end.

(** The engine on the program's registry. *)
Definition compute := calculation_engine FISCAL_DATA.

(** The results a run computes from a profile: lines 104 to 129 of the
    callback, without the state around them. *)
Definition results_of (fiscalInfo : AbattementInfo)
    (montantTransmis donationsAnterieures : N) : Results :=
  let abattementReel :=
    Math_max (lit 0) (abattement fiscalInfo - donationsAnterieures) in
  let base := Math_max (lit 0) (montantTransmis - abattementReel) in
  let droits := bracket_loop (barème fiscalInfo) (lit 0) base (lit 0) in
  {| droitsAPayer := droits;
     montantNet := montantTransmis - droits;
     abattementApplique := abattementReel;
     baseTaxable := base |}.

End Engine.

Arguments Palier : clear implicits.
Arguments AbattementInfo : clear implicits.
Arguments Results : clear implicits.
Arguments ChartEntry : clear implicits.
Arguments AppState : clear implicits.
Arguments completion : clear implicits.
Arguments property : clear implicits.

(** * Notions used in the statements *)

Local Open Scope Q_scope.

(** [isConjointSuccession], as the component computes it for rendering: the
    condition of the engine's exemption branch. *)
Definition isConjointSuccession (typeTransmission : TypeTransmission)
    (lienParente : string) : bool :=
  is_succession typeTransmission && String.eqb lienParente "conjoint".

(** A run sets the results to [r]: whatever the state before, it returns
    with [results] replaced by [r]. A run that returns early, leaving the
    state as it was, or that throws, sets no results. *)
Definition sets_results {N : Type} `{JsNumber N}
    (typeTransmission : TypeTransmission) (lienParente : string)
    (montantTransmis donationsAnterieures : N) (r : Results N) : Prop :=
  forall st : AppState N, exists chart : list (ChartEntry N),
    compute typeTransmission lienParente montantTransmis donationsAnterieures st
    = Normal {| results := r; chartData := chart |}.

(** The five keys of the registry. *)
Definition categories : list string :=
  [ "enfant"; "conjoint"; "frere-soeur"; "neveu-niece"; "autre" ]%string.

(** Two exact numbers denote the same value. *)
Definition xeq (x y : xnum) : Prop :=
  match x, y with
  | Fin a, Fin b => a == b
  | PInf, PInf | NInf, NInf | NaN, NaN => True
  | _, _ => False
  end.

(** [x] is at most [y]; as in JavaScript, [NaN] is not comparable. *)
Definition xle (x y : xnum) : Prop := Exact.le x y = true.

(** Closeness of two amounts, up to a tolerance. *)
Definition approx (tol : Q) (x y : xnum) : Prop :=
  match x, y with
  | Fin a, Fin b => Qabs (a - b) <= tol
  | _, _ => False
  end.

Definition approx_float (tol x y : float) : Prop :=
  PrimFloat.ltb (PrimFloat.abs (PrimFloat.sub x y)) tol = true.

(** The state after a gift of 300000 to a child: the results on display
    when the category is changed next. *)
Definition state_after_gift_to_child : AppState xnum :=
  match compute donation "enfant" (Fin 300000) (Fin 0) initial_state with
  | Normal st => st
  | Throw _ => initial_state
  end.

(** ** The inputs of the interface *)

(** The values of an [<input type="range">]: [min], [min + step], ... up to
    [max]. *)
Definition slider (min max step : Z) : list Z :=
  map (fun i => (min + step * Z.of_nat i)%Z)
      (seq 0 (S (Z.to_nat ((max - min) / step)))).

(** "Montant à transmettre": [min={10000} max={2000000} step={10000}]. *)
Definition montants_slider : list Z := slider 10000 2000000 10000.

(** "Donations antérieures": [min={0} max={200000} step={1000}]. *)
Definition donations_slider : list Z := slider 0 200000 1000.




(** With no prior gifts, the duty at every position of the first slider is
    at most the duty at every position above it. *)
Definition interface_monotone : bool :=
  forallb (fun k =>
    match FISCAL_DATA (N:=float) !! k with
    | Some info =>
        forallb (fun a =>
          forallb (fun b =>
            implb (a <=? b)%Z
              (droitsAPayer (results_of info (lit (inject_Z a)) (lit 0))
               <= droitsAPayer (results_of info (lit (inject_Z b)) (lit 0)))%js)
            montants_slider) montants_slider
    | None => false
    end) categories.

(** ** Runs in sequence *)

(** The inputs of a run, and the runs of the callback one after the other,
    as the dependencies of [useEffect] change. *)
Record Inputs (N : Type) := {
  typeTransmission_of : TypeTransmission;
  lienParente_of : string;
  montantTransmis_of : N;
  donationsAnterieures_of : N
}.
Arguments typeTransmission_of {N}.
Arguments lienParente_of {N}.
Arguments montantTransmis_of {N}.
Arguments donationsAnterieures_of {N}.

Definition run {N : Type} `{JsNumber N} (i : Inputs N) (st : AppState N) : completion N :=
  compute (typeTransmission_of i) (lienParente_of i)
          (montantTransmis_of i) (donationsAnterieures_of i) st.

Fixpoint run_all {N : Type} `{JsNumber N} (inputs : list (Inputs N))
    (st : AppState N) : completion N :=
  match inputs with
  | [] => Normal st
  | i :: rest =>
      match run i st with
      | Normal st' => run_all rest st'
      | Throw e => Throw e
      end
  end.

(** An input whose category the lookup finds [undefined]. *)
Definition unknown_category {N : Type} `{JsNumber N} (i : Inputs N) : Prop :=
  FISCAL_DATA (N:=N) !! lienParente_of i = None /\
  ~ In (lienParente_of i) Object_prototype_keys.

(** ** The values of binary64 numbers, and rounding *)

Module Rounding.

Local Open Scope Z_scope.

(** Values are counted in units of [2^-scale]: every binary64 number, and
    every exact sum, difference and product of two of them, is a whole
    number of units. *)
Definition scale : Z := 2148.

(** [2^1024], the first value too large for a finite binary64 number. *)
Definition big : Z := 2 ^ (1024 + scale).

(** The integer nearest to [K / 2^T], the even one of two that are equally
    near. *)
Definition rne (K T : Z) : Z :=
  let q := K / 2 ^ T in
  match 2 * (K mod 2 ^ T) ?= 2 ^ T with
  | Lt => q
  | Eq => if Z.even q then q else q + 1
  | Gt => q + 1
  end.

(** The exponent of the last place that binary64 keeps of [K] units: 53
    significant bits, and nothing below [2^-1074]. *)
Definition ulp_exp (K : Z) : Z := Z.max (Z.log2 K + 1 - 53) (scale - 1074).

(** [K >= 0] rounded to nearest, ties to even. *)
Definition rnd (K : Z) : Z := rne K (ulp_exp K) * 2 ^ ulp_exp K.

(** Overflow: a rounded value of [2^1024] or more is an infinity, which
    stands at [3 * big]. *)
Definition clamp (v : Z) : Z := if v <? big then v else 3 * big.

(** The binary64 value of an exact value, of either sign. *)
Definition round (K : Z) : Z :=
  if K <? 0 then - clamp (rnd (- K)) else clamp (rnd K).

(** The value of a binary64 number, in units of [2^-scale]. *)
Definition Zof (x : spec_float) : Z :=
  match x with
  | S754_zero _ => 0
  | S754_nan => 0
  | S754_infinity s => if s then - (3 * big) else 3 * big
  | S754_finite s m e => cond_Zopp s (Zpos m * 2 ^ (e + scale))
  end.

Definition is_nan (x : spec_float) : bool :=
  match x with S754_nan => true | _ => false end.

Definition finite (x : spec_float) : bool :=
  match x with
  | S754_zero _ | S754_finite _ _ _ => true
  | _ => false
  end.

(** What [N] right shifts leave of the mantissa [m]: the quotient, the
    bit shifted out last and whether any bit below it was set. *)
Definition shr_result (m N : Z) : shr_record :=
  {| shr_m := m / 2 ^ N;
     shr_r := 2 ^ N <=? 2 * (m mod 2 ^ N);
     shr_s := negb ((2 * (m mod 2 ^ N)) mod 2 ^ N =? 0) |}.

End Rounding.

(** The value of a binary64 number of the program, whether it is a number
    at all, and whether it is finite. *)
Definition zv (x : float) : Z := Rounding.Zof (Prim2SF x).
Definition nn (x : float) : bool := negb (Rounding.is_nan (Prim2SF x)).
Definition fin (x : float) : bool := Rounding.finite (Prim2SF x).

(** ** The engine on binary64 *)

(** [Number.isFinite(x)] *)
Definition Number_isFinite (x : float) : bool :=
  PrimFloat.ltb neg_infinity x && PrimFloat.ltb x infinity.

(** [Number.MAX_VALUE] *)
Definition MAX_VALUE : float := 0x1.fffffffffffffp+1023%float.

(** The duty of a taxable base: the loop from its initial variables. *)
Definition duty_of {N : Type} `{JsNumber N} (paliers : list (Palier N)) (base : N) : N :=
  bracket_loop paliers (lit 0) base (lit 0).

(** A schedule on binary64, seen from the previous threshold: every width
    [tranche - derniereTranche] is above 0, and every rate is finite, above
    0 and at most 1. *)
Fixpoint schedule_float_ok (derniereTranche : float) (paliers : list (Palier float))
    : bool :=
  match paliers with
  | [] => true
  | palier :: rest =>
      PrimFloat.ltb 0 (tranche palier - derniereTranche)
      && fin (taux palier) && PrimFloat.ltb 0 (taux palier)
      && PrimFloat.leb (taux palier) 1
      && schedule_float_ok (tranche palier) rest
  end.

(** [c], [2c], [4c], ... as long as they are finite. *)
Fixpoint doubling (fuel : nat) (c : float) : list float :=
  match fuel with
  | O => []
  | Datatypes.S n =>
      if PrimFloat.ltb (c * 2) infinity then (c * 2)%float :: doubling n (c * 2)
      else []
  end.

(** The amounts after [start] at which the duty is evaluated: the doubles
    of [start], then the largest finite number. *)
Definition checkpoints (start : float) : list float :=
  doubling 1100 start ++ [MAX_VALUE].

(** Along the checkpoints, the duty at each one is at most the checkpoint
    before it. *)
Fixpoint checkpoints_ok (paliers : list (Palier float)) (c : float) (cs : list float)
    : bool :=
  match cs with
  | [] => true
  | c' :: rest =>
      fin c' && PrimFloat.leb c c' && PrimFloat.leb (duty_of paliers c') c
      && checkpoints_ok paliers c' rest
  end.

Fixpoint last_of (c : float) (cs : list float) : float :=
  match cs with
  | [] => c
  | c' :: rest => last_of c' rest
  end.

(** What the registry holds for a category, on binary64: a finite allowance
    above 0, a schedule as above, a duty that stays below the checkpoints
    from the first threshold on when that threshold is finite, and an
    infinite duty for an infinite amount. *)
Definition profile_float_ok (info : AbattementInfo float) : bool :=
  fin (abattement info) && PrimFloat.ltb 0 (abattement info)
  && schedule_float_ok 0 (barème info)
  && match barème info with
     | [] => true
     | palier :: _ =>
         let w := (tranche palier - 0)%float in
         if fin w then
           PrimFloat.leb (duty_of (barème info) w) w
           && checkpoints_ok (barème info) w (checkpoints w)
           && PrimFloat.eqb (last_of w (checkpoints w)) MAX_VALUE
         else true
     end
  && PrimFloat.eqb (droitsAPayer (results_of info Infinity (lit 0))) infinity.

(** ** JavaScript strings and regular expressions *)

(** A JavaScript string is a sequence of UTF-16 code units. *)
Definition jsstring : Type := list N.

(** The code units of one code point. *)
Definition code_units (cp : N) : jsstring :=
  if (cp <? 65536)%N then [cp]
  else [ (55296 + (cp - 65536) / 1024)%N; (56320 + (cp - 65536) mod 1024)%N ].

(** The JavaScript string that a literal of the source denotes: the
    literal's UTF-8 bytes, decoded. [pending] holds the bits read so far of
    a code point that still lacks [more] bytes. *)
Fixpoint utf16_from (pending : N) (more : nat) (s : string) : jsstring :=
  match s with
  | EmptyString => []
  | String c rest =>
      let b := Ascii.N_of_ascii c in
      match more with
      | O =>
          if (b <? 128)%N then b :: utf16_from 0 0 rest
          else if (b <? 224)%N then utf16_from (b - 192) 1 rest
          else if (b <? 240)%N then utf16_from (b - 224) 2 rest
          else utf16_from (b - 240) 3 rest
      | S n =>
          let cp := (pending * 64 + (b - 128))%N in
          match n with
          | O => code_units cp ++ utf16_from 0 0 rest
          | S _ => utf16_from cp n rest
          end
      end
  end.

Definition utf16 (s : string) : jsstring := utf16_from 0 0 s.

(** The regular expressions the source needs, over code units. *)
Inductive regex : Type :=
| Void
| Eps
| Class (p : N -> bool)
| Cat (r1 r2 : regex)
| Alt (r1 r2 : regex)
| Star (r : regex).

(** [r+] *)
Definition Plus (r : regex) : regex := Cat r (Star r).

(** A single code unit. *)
Definition Chr (c : N) : regex := Class (N.eqb c).

Fixpoint nullable (r : regex) : bool :=
  match r with
  | Void => false
  | Eps => true
  | Class _ => false
  | Cat r1 r2 => nullable r1 && nullable r2
  | Alt r1 r2 => nullable r1 || nullable r2
  | Star _ => true
  end.

(** The derivative of [r] by the code unit [c]. *)
Fixpoint deriv (c : N) (r : regex) : regex :=
  match r with
  | Void => Void
  | Eps => Void
  | Class p => if p c then Eps else Void
  | Cat r1 r2 =>
      if nullable r1 then Alt (Cat (deriv c r1) r2) (deriv c r2)
      else Cat (deriv c r1) r2
  | Alt r1 r2 => Alt (deriv c r1) (deriv c r2)
  | Star r1 => Cat (deriv c r1) (Star r1)
  end.

(** The whole string matches [r]. *)
Fixpoint matches (r : regex) (s : jsstring) : bool :=
  match s with
  | [] => nullable r
  | c :: rest => matches (deriv c r) rest
  end.

(** [r.test(s)], for a pattern without flags nor anchors: some part of [s]
    matches [r]. *)
Definition test (r : regex) (s : jsstring) : bool :=
  matches (Cat (Star (Class (fun _ => true))) (Cat r (Star (Class (fun _ => true))))) s.

(** The strings that match a regular expression. *)
Inductive lang : regex -> jsstring -> Prop :=
| lang_eps : lang Eps []
| lang_class p c : p c = true -> lang (Class p) [c]
| lang_cat r1 r2 s1 s2 : lang r1 s1 -> lang r2 s2 -> lang (Cat r1 r2) (s1 ++ s2)
| lang_alt_l r1 r2 s : lang r1 s -> lang (Alt r1 r2) s
| lang_alt_r r1 r2 s : lang r2 s -> lang (Alt r1 r2) s
| lang_star_nil r : lang (Star r) []
| lang_star_cons r s1 s2 : lang r s1 -> lang (Star r) s2 -> lang (Star r) (s1 ++ s2).

(** [\s]: the white space and line terminator code units. *)
Definition is_space (c : N) : bool :=
  ((9 <=? c) && (c <=? 13) || (c =? 32) || (c =? 160) || (c =? 5760)
   || (8192 <=? c) && (c <=? 8202) || (c =? 8232) || (c =? 8233)
   || (c =? 8239) || (c =? 8287) || (c =? 12288) || (c =? 65279))%N.

(** [\S] *)
Definition not_space (c : N) : bool := negb (is_space c).

(** [/\S+@\S+\.\S+/] *)
Definition email_pattern : regex :=
  Cat (Plus (Class not_space))
      (Cat (Chr 64)
           (Cat (Plus (Class not_space))
                (Cat (Chr 46) (Plus (Class not_space))))).

(** The test of [handleEmailSubmit]: [!email || !/\S+@\S+\.\S+/.test(email)]
    is false. *)
Definition email_accepted (email : jsstring) : bool :=
  negb (match email with [] => true | _ => false end) && test email_pattern email.

(** ** Values read from JSON *)

(** What [JSON.parse] returns. The members of an object are its own
    properties, each key once. *)
#[local] Unset Elimination Schemes.
Inductive json : Type :=
| JNull
| JBool (b : bool)
| JNumber (x : float)
| JString (s : jsstring)
| JArray (items : list json)
| JObject (members : list (jsstring * json)).
#[local] Set Elimination Schemes.

(** A value met while reading parsed JSON: [None] is [undefined]. *)
Definition jsvalue : Type := option json.

Fixpoint jsstring_eqb (s1 s2 : jsstring) : bool :=
  match s1, s2 with
  | [], [] => true
  | c1 :: r1, c2 :: r2 => N.eqb c1 c2 && jsstring_eqb r1 r2
  | _, _ => false
  end.

Fixpoint own_property (key : jsstring) (members : list (jsstring * json)) : jsvalue :=
  match members with
  | [] => None
  | (k, v) :: rest => if jsstring_eqb k key then Some v else own_property key rest
  end.

(** A computation that returns or throws. *)
Inductive outcome (A : Type) : Type :=
| Returns (a : A)
| Throws.
Arguments Returns {A}.
Arguments Throws {A}.

Definition bind {A B : Type} (m : outcome A) (f : A -> outcome B) : outcome B :=
  match m with
  | Returns a => f a
  | Throws => Throws
  end.

Declare Scope outcome_scope.
Delimit Scope outcome_scope with outcome.
Notation "x <- m ;; f" := (bind m (fun x => f))
  (at level 100, m at next level, right associativity) : outcome_scope.

(** [v.key], for the keys that the two files read: none of them names a
    member inherited from a prototype, so the property is an own property
    of an object, and [undefined] on any other value. Reading a property
    of [null] or [undefined] throws a [TypeError]. *)
Definition get_property (v : jsvalue) (key : string) : outcome jsvalue :=
  match v with
  | None | Some JNull => Throws
  | Some (JObject members) => Returns (own_property (utf16 key) members)
  | Some _ => Returns None
  end.

(** [!v] is false. *)
Definition truthy (v : jsvalue) : bool :=
  match v with
  | None | Some JNull => false
  | Some (JBool b) => b
  | Some (JNumber x) => PrimFloat.eqb x x && negb (PrimFloat.eqb x 0)
  | Some (JString s) => match s with [] => false | _ => true end
  | Some (JArray _) | Some (JObject _) => true
  end.

(** [v === 'text'] *)
Definition is_string (v : jsvalue) (text : string) : bool :=
  match v with
  | Some (JString s) => jsstring_eqb s (utf16 text)
  | _ => false
  end.

(** The member of an object read from JSON under a key, [undefined] on a
    value that is no object. *)
Definition field (v : json) (key : string) : jsvalue :=
  match v with
  | JObject members => own_property (utf16 key) members
  | _ => None
  end.

(** ** Conversion to a string *)

Section Conversion.

(** [Number.prototype.toString], the platform's. *)
Variable Number_toString : float -> jsstring.

Local Open Scope outcome_scope.

(** [ToString(v)] for a value read from JSON. An object converts through
    its member [toString]: the one inherited from [Object.prototype], which
    gives ['[object Object]'], unless the object has an own member of that
    name. An own member was read from JSON and is no function; [valueOf],
    tried next, gives no primitive value either, and the conversion throws
    a [TypeError]. An array converts by [Array.prototype.join]: its
    elements converted in turn and separated by commas, with the empty
    string for [null]. *)
Fixpoint ToString (v : json) : outcome jsstring :=
  match v with
  | JNull => Returns (utf16 "null")
  | JBool b => Returns (if b then utf16 "true" else utf16 "false")
  | JNumber x => Returns (Number_toString x)
  | JString s => Returns s
  | JArray items =>
      (fix join (elements : list json) : outcome jsstring :=
         match elements with
         | [] => Returns []
         | element :: rest =>
             s <- (match element with
                   | JNull => Returns []
                   | _ => ToString element
                   end) ;;
             match rest with
             | [] => Returns s
             | _ :: _ => r <- join rest ;; Returns (s ++ utf16 "," ++ r)
             end
         end) items
  | JObject members =>
      match own_property (utf16 "toString") members with
      | Some _ => Throws
      | None => Returns (utf16 "[object Object]")
      end
  end.

(** [${v}] in a template literal. *)
Definition interpolate (v : jsvalue) : outcome jsstring :=
  match v with
  | None => Returns (utf16 "undefined")
  | Some j => ToString j
  end.

(** [${v.key}] *)
Definition interpolate_property (v : jsvalue) (key : string) : outcome jsstring :=
  w <- get_property v key ;; interpolate w.

(** The property key of [table[theme]]: [ToPropertyKey(theme)]. *)
Definition property_key (theme : json) : outcome jsstring := ToString theme.

(** The conversion returns. *)
Definition converts (v : jsvalue) : bool :=
  match interpolate v with
  | Returns _ => true
  | Throws => false
  end.

End Conversion.

(** ** The e-mail form of the component *)

Section Form.

Context {N : Type} `{JsNumber N}.

(** [Number.prototype.toLocaleString], with ['fr-FR'] alone and with the
    options [{style: 'currency', currency: 'EUR'}]: the platform's. *)
Variable toLocaleString_fr : N -> jsstring.
Variable toLocaleString_fr_EUR : N -> jsstring.

(** The state of the component. *)
Record Component := {
  inputs : Inputs N;
  display : AppState N;
  email : jsstring;
  isSending : bool;
  emailMessage : jsstring
}.

(** The argument of [fetch]; [payload] is the value given to
    [JSON.stringify] for the body. *)
Record Request := {
  url : jsstring;
  method : jsstring;
  headers : list (jsstring * jsstring);
  payload : json
}.

(** The object [simulationData]. *)
Definition simulationData (c : Component) : json :=
  JObject
    [ (utf16 "objectifs",
       JObject
         [ (utf16 "typeTransmission",
            JString (if is_succession (typeTransmission_of (inputs c))
                     then utf16 "Succession" else utf16 "Donation"));
           (utf16 "lienParente", JString (utf16 (lienParente_of (inputs c))));
           (utf16 "montantTransmis",
            JString (toLocaleString_fr (montantTransmis_of (inputs c)) ++ utf16 " €"));
           (utf16 "donationsAnterieures",
            JString (toLocaleString_fr (donationsAnterieures_of (inputs c))
                     ++ utf16 " €")) ]);
      (utf16 "resultats",
       JObject
         [ (utf16 "droitsAPayer",
            JString (toLocaleString_fr_EUR (droitsAPayer (results (display c)))));
           (utf16 "montantNet",
            JString (toLocaleString_fr_EUR (montantNet (results (display c)))));
           (utf16 "abattementApplique",
            JString (toLocaleString_fr (abattementApplique (results (display c)))
                     ++ utf16 " €")) ]) ].

Definition simulation_request (c : Component) : Request :=
  {| url := utf16 "/.netlify/functions/send-simulation";
     method := utf16 "POST";
     headers := [ (utf16 "Content-Type", utf16 "application/json") ];
     payload := JObject [ (utf16 "email", JString (email c));
                          (utf16 "data", simulationData c);
                          (utf16 "theme", JString (utf16 "Succession")) ] |}.

Definition set_emailMessage (text : jsstring) (c : Component) : Component :=
  {| inputs := inputs c; display := display c; email := email c;
     isSending := isSending c; emailMessage := text |}.

Definition set_isSending (b : bool) (c : Component) : Component :=
  {| inputs := inputs c; display := display c; email := email c;
     isSending := b; emailMessage := emailMessage c |}.

Definition set_email (text : jsstring) (c : Component) : Component :=
  {| inputs := inputs c; display := display c; email := text;
     isSending := isSending c; emailMessage := emailMessage c |}.

(** [handleEmailSubmit], up to the [await]: the state it leaves and the
    request it makes, if any. *)
Definition handleEmailSubmit (c : Component) : Component * option Request :=
  if negb (email_accepted (email c)) then
    (set_emailMessage (utf16 "Veuillez saisir une adresse e-mail valide.") c, None)
  else
    (set_emailMessage [] (set_isSending true c), Some (simulation_request c)).

(** How the [fetch] ends: with a response, whose [ok] is read, or with a
    rejection. *)
Inductive FetchOutcome :=
| Responded (ok : bool)
| Failed.

(** [handleEmailSubmit], from the [await] on: the [try] block after the
    response, [catch] and [finally]. [submitted] is the address in the
    closure, the one of the state at submission; [c] is the state when the
    response arrives. *)
Definition after_fetch (submitted : jsstring) (o : FetchOutcome) (c : Component)
    : Component :=
  let c' :=
    match o with
    | Responded true =>
        set_email []
          (set_emailMessage
             (utf16 "Votre simulation a bien été envoyée à " ++ submitted ++ utf16 ".")
             c)
    | Responded false | Failed =>
        set_emailMessage (utf16 "Une erreur est survenue. Veuillez réessayer.") c
    end in
  set_isSending false c'.

(** The callback of [setTimeout(..., 5000)]. *)
Definition after_timeout (c : Component) : Component := set_emailMessage [] c.

End Form.

Arguments Component N : clear implicits.

(** ** The mail function: [netlify/functions/send-simulation.js] *)

(** The block [resultsHtml] of the succession e-mail: the exemption notice,
    or the three amounts. *)
Inductive ResultsBlock : Type :=
| ExemptionNotice
| DutyBlock (droitsAPayer_ montantNet_ abattementApplique_ : jsstring).

(** An entry of [emailTemplates]. Read on a member inherited from
    [Object.prototype], [title] and [objectiveLabel] are [undefined]. *)
Record Template := {
  title : option jsstring;
  objectiveLabel : option jsstring
}.

(** The three template strings that [getEmailBody] returns, each with the
    strings it interpolates, in the order of the text. *)
Inductive EmailBody : Type :=
| SuccessionBody
    (typeTransmission_ lienParente_ montantTransmis_ donationsAnterieures_ : jsstring)
    (resultsHtml : ResultsBlock)
| DemembrementBody
    (dureeDemenbrement capitalInitial capitalFinal decote plusValue : jsstring)
| GenericBody (title_ objectiveLabel_ : jsstring)
    (revenuRecherche dureePlacement versementInitial
     versementMensuelRequis capitalVise : jsstring).

(** What a lookup [table[theme] || table['default']] yields in
    [emailSubjects]: a text of the table, or a member inherited from
    [Object.prototype], which is truthy too. *)
Inductive Subject : Type :=
| SubjectText (text : jsstring)
| SubjectInherited (key : jsstring).

(** The argument of [resend.emails.send]. *)
Record Email := {
  from : jsstring;
  to : list jsvalue;
  bcc : list jsstring;
  subject : Subject;
  html : EmailBody
}.

Inductive ResponseBody : Type :=
| BodyText (text : jsstring)
| BodyJson (value : json).

(** What the handler returns; [BodyJson v] stands for [JSON.stringify(v)]. *)
Record Response := { statusCode : Z; body : ResponseBody }.

(** The event: its method, and what [JSON.parse(event.body)] yields, [None]
    when it throws. *)
Record Event := { httpMethod : jsstring; parsed_body : option json }.

(** The [resend] library: whether [new Resend(key)] returns, and whether
    the promise of [emails.send] resolves. What either throws is an error
    object, whose [message] the [catch] block reads. *)
Record MailService := {
  constructs : bool;
  send_resolves : Email -> bool
}.

Definition emailTemplates : list (string * Template) :=
  [ ("default"%string,
     {| title := Some (utf16 "le résumé de votre simulation");
        objectiveLabel := Some (utf16 "Revenu mensuel souhaité") |});
    ("Aider un proche"%string,
     {| title := Some (utf16 "le résumé de votre projet d'aide financière");
        objectiveLabel := Some (utf16 "Aide mensuelle à verser") |});
    ("Études enfant"%string,
     {| title := Some (utf16 "le résumé de votre projet pour les études de votre enfant");
        objectiveLabel := Some (utf16 "Revenu mensuel pour ses études") |});
    ("Retraite"%string,
     {| title := Some (utf16 "le résumé de votre projet de retraite");
        objectiveLabel := Some (utf16 "Revenu mensuel souhaité à la retraite") |});
    ("Année sabbatique"%string,
     {| title := Some (utf16 "le résumé de votre projet d'année sabbatique");
        objectiveLabel := Some (utf16 "Budget mensuel nécessaire") |});
    ("Revenu Passif"%string,
     {| title := Some (utf16 "le résumé de votre projet d'indépendance financière");
        objectiveLabel := Some (utf16 "Revenu passif mensuel souhaité") |}) ].

Definition emailSubjects : list (string * jsstring) :=
  [ ("default"%string, utf16 "Votre simulation d'épargne Aeternia Patrimoine");
    ("Aider un proche"%string, utf16 "Votre simulation pour aider un proche");
    ("Études enfant"%string, utf16 "Votre simulation pour les études de votre enfant");
    ("Retraite"%string, utf16 "Votre simulation de retraite complémentaire");
    ("Année sabbatique"%string, utf16 "Votre simulation pour votre année sabbatique");
    ("Revenu Passif"%string, utf16 "Votre simulation d'indépendance financière");
    ("Démembrement"%string, utf16 "Votre simulation d'investissement en démembrement");
    ("Succession"%string, utf16 "Votre simulation de droits de succession") ].

(** The own entry of a table of the source under a key. *)
Fixpoint table_entry {A : Type} (table : list (string * A)) (key : jsstring) : option A :=
  match table with
  | [] => None
  | (k, a) :: rest =>
      if jsstring_eqb (utf16 k) key then Some a else table_entry rest key
  end.

Definition inherited (key : jsstring) : bool :=
  existsb (fun k => jsstring_eqb (utf16 k) key) Object_prototype_keys.

(** [emailTemplates[key] || emailTemplates['default']] *)
Definition template_of (key : jsstring) : Template :=
  match table_entry emailTemplates key with
  | Some t => t
  | None =>
      if inherited key then {| title := None; objectiveLabel := None |}
      else {| title := Some (utf16 "le résumé de votre simulation");
              objectiveLabel := Some (utf16 "Revenu mensuel souhaité") |}
  end.

(** [emailSubjects[key] || emailSubjects['default']] *)
Definition subject_of (key : jsstring) : Subject :=
  match table_entry emailSubjects key with
  | Some text => SubjectText text
  | None =>
      if inherited key then SubjectInherited key
      else SubjectText (utf16 "Votre simulation d'épargne Aeternia Patrimoine")
  end.

(** [${template.title}]: a text of the table, or ['undefined']. *)
Definition interpolate_text (text : option jsstring) : jsstring :=
  match text with
  | Some s => s
  | None => utf16 "undefined"
  end.

Section MailFunction.

Variable Number_toString : float -> jsstring.

Local Open Scope outcome_scope.

(** [getEmailBody(theme, data)] *)
Definition getEmailBody (theme : json) (data : jsvalue) : outcome EmailBody :=
  objectifs <- get_property data "objectifs" ;;
  resultats <- get_property data "resultats" ;;
  if is_string (Some theme) "Succession" then
    typeTransmission_ <- get_property objectifs "typeTransmission" ;;
    lienParente_ <- get_property objectifs "lienParente" ;;
    resultsHtml <-
      (if is_string typeTransmission_ "Succession" && is_string lienParente_ "conjoint"
       then Returns ExemptionNotice
       else
         droitsAPayer_ <- interpolate_property Number_toString resultats "droitsAPayer" ;;
         montantNet_ <- interpolate_property Number_toString resultats "montantNet" ;;
         abattementApplique_ <-
           interpolate_property Number_toString resultats "abattementApplique" ;;
         Returns (DutyBlock droitsAPayer_ montantNet_ abattementApplique_)) ;;
    s1 <- interpolate Number_toString typeTransmission_ ;;
    s2 <- interpolate Number_toString lienParente_ ;;
    s3 <- interpolate_property Number_toString objectifs "montantTransmis" ;;
    s4 <- interpolate_property Number_toString objectifs "donationsAnterieures" ;;
    Returns (SuccessionBody s1 s2 s3 s4 resultsHtml)
  else if is_string (Some theme) "Démembrement" then
    s1 <- interpolate_property Number_toString objectifs "dureeDemenbrement" ;;
    s2 <- interpolate_property Number_toString objectifs "capitalInitial" ;;
    s3 <- interpolate_property Number_toString objectifs "capitalFinal" ;;
    s4 <- interpolate_property Number_toString resultats "decote" ;;
    s5 <- interpolate_property Number_toString resultats "plusValue" ;;
    Returns (DemembrementBody s1 s2 s3 s4 s5)
  else
    key <- property_key Number_toString theme ;;
    let template := template_of key in
    s1 <- interpolate_property Number_toString objectifs "revenuRecherche" ;;
    s2 <- interpolate_property Number_toString objectifs "dureePlacement" ;;
    s3 <- interpolate_property Number_toString objectifs "versementInitial" ;;
    s4 <- interpolate_property Number_toString resultats "versementMensuelRequis" ;;
    s5 <- interpolate_property Number_toString resultats "capitalVise" ;;
    Returns (GenericBody (interpolate_text (title template))
                         (interpolate_text (objectiveLabel template))
                         s1 s2 s3 s4 s5).

(** The guard [!data || !data.objectifs || !data.resultats]. *)
Definition simulation_missing (data : jsvalue) : outcome bool :=
  if negb (truthy data) then Returns true
  else
    objectifs <- get_property data "objectifs" ;;
    if negb (truthy objectifs) then Returns true
    else
      resultats <- get_property data "resultats" ;;
      Returns (negb (truthy resultats)).

(** The statements of the [try] block between [JSON.parse] and the call of
    [resend.emails.send]: the argument of that call. *)
Definition prepare (parsed : json) : outcome Email :=
  email_ <- get_property (Some parsed) "email" ;;
  data <- get_property (Some parsed) "data" ;;
  theme_ <- get_property (Some parsed) "theme" ;;
  let theme :=
    match theme_ with
    | None => JString (utf16 "default")
    | Some t => t
    end in
  missing <- simulation_missing data ;;
  if missing then Throws
  else
    key <- property_key Number_toString theme ;;
    emailBodyHtml <- getEmailBody theme data ;;
    Returns {| from := utf16 "Aeternia Patrimoine <contact@aeterniapatrimoine.fr>";
               to := [email_];
               bcc := [utf16 "contact@aeterniapatrimoine.fr"];
               subject := subject_of key;
               html := emailBodyHtml |}.

(** The [try] block of the handler: the e-mail it hands to the service, if
    it gets that far, and whether the block completes. *)
Definition try_block (mail : MailService) (event : Event) : option Email * bool :=
  if negb (constructs mail) then (None, false)
  else
    match parsed_body event with
    | None => (None, false)
    | Some parsed =>
        match prepare parsed with
        | Throws => (None, false)
        | Returns message => (Some message, send_resolves mail message)
        end
    end.

(** [exports.handler]: the response, and the e-mail handed to the service,
    if any. *)
Definition handler (mail : MailService) (event : Event) : Response * option Email :=
  if negb (jsstring_eqb (httpMethod event) (utf16 "POST")) then
    ({| statusCode := 405; body := BodyText (utf16 "Method Not Allowed") |}, None)
  else
    match try_block mail event with
    | (handed, true) =>
        ({| statusCode := 200;
            body := BodyJson (JObject [ (utf16 "message",
                                         JString (utf16 "Email envoyé avec succès !")) ]) |},
         handed)
    | (handed, false) =>
        ({| statusCode := 500;
            body := BodyJson
                      (JObject [ (utf16 "error",
                                  JString (utf16 "Une erreur est survenue lors de l'envoi de l'email.")) ]) |},
         handed)
    end.

(** The theme that the handler works with: the member [theme] of the body,
    ['default'] when it is [undefined]. *)
Definition theme_of (parsed : json) : json :=
  match field parsed "theme" with
  | Some t => t
  | None => JString (utf16 "default")
  end.

(** The values that the body of a theme interpolates, in the order in which
    the function converts them. *)
Definition interpolated (theme objectifs resultats : json) : list jsvalue :=
  if is_string (Some theme) "Succession" then
    (if is_string (field objectifs "typeTransmission") "Succession"
        && is_string (field objectifs "lienParente") "conjoint"
     then []
     else [ field resultats "droitsAPayer"; field resultats "montantNet";
            field resultats "abattementApplique" ])
    ++ [ field objectifs "typeTransmission"; field objectifs "lienParente";
         field objectifs "montantTransmis"; field objectifs "donationsAnterieures" ]
  else if is_string (Some theme) "Démembrement" then
    [ field objectifs "dureeDemenbrement"; field objectifs "capitalInitial";
      field objectifs "capitalFinal"; field resultats "decote";
      field resultats "plusValue" ]
  else
    [ field objectifs "revenuRecherche"; field objectifs "dureePlacement";
      field objectifs "versementInitial"; field resultats "versementMensuelRequis";
      field resultats "capitalVise" ].

(** The body holds a simulation that can be written out: [data] is an
    object whose [objectifs] and [resultats] are truthy, the theme converts
    to a property key and every value that the body of the theme
    interpolates converts to a string. *)
Definition mail_ready (parsed : json) : Prop :=
  exists (members : list (jsstring * json)) (objectifs resultats : json),
    field parsed "data" = Some (JObject members) /\
    own_property (utf16 "objectifs") members = Some objectifs /\
    own_property (utf16 "resultats") members = Some resultats /\
    truthy (Some objectifs) = true /\ truthy (Some resultats) = true /\
    converts Number_toString (Some (theme_of parsed)) = true /\
    forallb (converts Number_toString)
            (interpolated (theme_of parsed) objectifs resultats) = true.

End MailFunction.

(** ** A submission, from the form to the mail function and back *)

Section Submission.

Context {N : Type} `{JsNumber N}.
Variable toLocaleString_fr : N -> jsstring.
Variable toLocaleString_fr_EUR : N -> jsstring.
Variable Number_toString : float -> jsstring.

(** A submission with its response and its timer, when nothing else
    changes the state in between. *)
Definition submission (o : FetchOutcome) (c : Component N) : Component N :=
  match handleEmailSubmit toLocaleString_fr toLocaleString_fr_EUR c with
  | (c', None) => c'
  | (c', Some _) => after_timeout (after_fetch (email c) o c')
  end.

(** [response.ok]: the status is in the range 200-299. *)
Definition response_ok (r : Response) : bool :=
  ((200 <=? statusCode r) && (statusCode r <=? 299))%Z.

(** The event that a request of the form makes for the mail function, when
    the body parses back to the value it was written from. *)
Definition event_of (req : Request) : Event :=
  {| httpMethod := method req; parsed_body := Some (payload req) |}.

(** The form's request served by the mail function: the state of the
    component once the response is in, and the e-mail handed to the
    service. *)
Definition submit_to (mail : MailService) (c : Component N)
    : Component N * option Email :=
  match handleEmailSubmit toLocaleString_fr toLocaleString_fr_EUR c with
  | (c', None) => (c', None)
  | (c', Some req) =>
      let (response, handed) := handler Number_toString mail (event_of req) in
      (after_fetch (email c) (Responded (response_ok response)) c', handed)
  end.

(** The e-mail that the mail function prepares from the request of the
    form. *)
Definition expected_email (c : Component N) : Email :=
  {| from := utf16 "Aeternia Patrimoine <contact@aeterniapatrimoine.fr>";
     to := [ Some (JString (email c)) ];
     bcc := [ utf16 "contact@aeterniapatrimoine.fr" ];
     subject := SubjectText (utf16 "Votre simulation de droits de succession");
     html :=
       SuccessionBody
         (if is_succession (typeTransmission_of (inputs c))
          then utf16 "Succession" else utf16 "Donation")
         (utf16 (lienParente_of (inputs c)))
         (toLocaleString_fr (montantTransmis_of (inputs c)) ++ utf16 " €")
         (toLocaleString_fr (donationsAnterieures_of (inputs c)) ++ utf16 " €")
         (if isConjointSuccession (typeTransmission_of (inputs c))
                                  (lienParente_of (inputs c))
          then ExemptionNotice
          else DutyBlock
                 (toLocaleString_fr_EUR (droitsAPayer (results (display c))))
                 (toLocaleString_fr_EUR (montantNet (results (display c))))
                 (toLocaleString_fr (abattementApplique (results (display c)))
                  ++ utf16 " €")) |}.

End Submission.

(** The component as it starts, after its first calculation, with an
    address typed in. *)
Definition example_component : Component xnum :=
  {| inputs := {| typeTransmission_of := succession; lienParente_of := "enfant";
                  montantTransmis_of := Fin 300000; donationsAnterieures_of := Fin 0 |};
     display := match compute succession "enfant" (Fin 300000) (Fin 0) initial_state with
                | Normal st => st
                | Throw _ => initial_state
                end;
     email := utf16 "a@b.c";
     isSending := false;
     emailMessage := [] |}.

(** * Lemmas *)

(** ** Literals and [Math.max] on binary64 *)

(** The literals of the registry denote the doubles nearest to them. *)
Example lit_float_rates :
  map (lit (N:=float)) [0.05; 0.10; 0.15; 0.20; 0.30; 0.35; 0.40; 0.45; 0.55; 0.60]
  = [0.05; 0.10; 0.15; 0.20; 0.30; 0.35; 0.40; 0.45; 0.55; 0.60]%float.
Proof. reflexivity. Qed.

Example lit_float_amounts :
  map (lit (N:=float)) [0; 8072; 1805677; 100000; 80724; 50000.07]
  = [0; 8072; 1805677; 100000; 80724; 50000.07]%float.
Proof. reflexivity. Qed.

Example max_float_nan : Binary64.is_nan (Math_max (lit 0) PrimFloat.nan) = true.
Proof. reflexivity. Qed.

Example max_float_zeros :
  PrimFloat.get_sign (Math_max (lit 0) PrimFloat.neg_zero) = false /\
  PrimFloat.get_sign (Math_min (lit 0) PrimFloat.neg_zero) = true.
Proof. split; reflexivity. Qed.

(** ** The registry *)

Section Registry.

Context {N : Type} `{JsNumber N}.


End Registry.

(** ** Runs of the engine *)

Section Runs.

Context {N : Type} `{JsNumber N}.
Local Open Scope js_scope.

Lemma run_exempt data montantTransmis donationsAnterieures st :
  calculation_engine data succession "conjoint" montantTransmis donationsAnterieures st
  = Normal {| results := {| droitsAPayer := lit 0;
                            montantNet := montantTransmis;
                            abattementApplique := montantTransmis;
                            baseTaxable := lit 0 |};
              chartData := [ {| name := "Montant Net Reçu";
                                value := montantTransmis |} ] |}.
Proof. reflexivity. Qed.

Lemma run_profile data ty k fiscalInfo montantTransmis donationsAnterieures st :
  isConjointSuccession ty k = false ->
  data !! k = Some fiscalInfo ->
  calculation_engine data ty k montantTransmis donationsAnterieures st
  = let r := results_of fiscalInfo montantTransmis donationsAnterieures in
    Normal {| results := r;
              chartData := [ {| name := "Montant Net Reçu"; value := montantNet r |};
                             {| name := "Droits à payer"; value := droitsAPayer r |} ] |}.
Proof.
  unfold isConjointSuccession, calculation_engine, get. intros -> ->. reflexivity.
Qed.

Lemma run_undefined data ty k montantTransmis donationsAnterieures st :
  isConjointSuccession ty k = false ->
  data !! k = None ->
  ~ In k Object_prototype_keys ->
  calculation_engine data ty k montantTransmis donationsAnterieures st = Normal st.
Proof.
  unfold isConjointSuccession, calculation_engine, get. intros -> -> Hk.
  rewrite bool_decide_eq_false_2; [reflexivity |].
  now rewrite list_elem_of_In.
Qed.

Lemma sets_results_profile ty k fiscalInfo montantTransmis donationsAnterieures :
  isConjointSuccession ty k = false ->
  FISCAL_DATA !! k = Some fiscalInfo ->
  sets_results ty k montantTransmis donationsAnterieures
    (results_of fiscalInfo montantTransmis donationsAnterieures).
Proof.
  intros Hex Hk st. unfold compute. rewrite (run_profile _ _ _ _ _ _ _ Hex Hk).
  eexists. reflexivity.
Qed.

Lemma sets_results_exempt montantTransmis donationsAnterieures :
  sets_results succession "conjoint" montantTransmis donationsAnterieures
    {| droitsAPayer := lit 0; montantNet := montantTransmis;
       abattementApplique := montantTransmis; baseTaxable := lit 0 |}.
Proof. intros st. eexists. apply run_exempt. Qed.

(** A run sets at most one record of results. *)
Lemma sets_results_unique ty k montantTransmis donationsAnterieures r r' :
  sets_results ty k montantTransmis donationsAnterieures r ->
  sets_results ty k montantTransmis donationsAnterieures r' ->
  r = r'.
Proof.
  intros Hr Hr'. destruct (Hr initial_state) as [c Hc].
  destruct (Hr' initial_state) as [c' Hc']. congruence.
Qed.

Lemma exempt_cases ty k :
  isConjointSuccession ty k = true <-> ty = succession /\ k = "conjoint"%string.
Proof.
  unfold isConjointSuccession. rewrite andb_true_iff, String.eqb_eq.
  destruct ty; cbn; intuition congruence.
Qed.

End Runs.

(** ** The engine at the inputs of the interface *)




Lemma interface_monotone_holds : interface_monotone = true.
Proof. vm_compute. reflexivity. Qed.

(** * Rounding to binary64 *)

Module RoundingFacts.

Import Rounding.
Local Open Scope Z_scope.

Lemma pow2_pos (n : Z) : 0 <= n -> 0 < 2 ^ n.
Proof. intros. apply Z.pow_pos_nonneg; lia. Qed.

Lemma pow2_add (a b : Z) : 0 <= a -> 0 <= b -> 2 ^ (a + b) = 2 ^ a * 2 ^ b.
Proof. intros. apply Z.pow_add_r; assumption. Qed.

Lemma pow2_le (a b : Z) : 0 <= a -> a <= b -> 2 ^ a <= 2 ^ b.
Proof. intros. apply Z.pow_le_mono_r; lia. Qed.

Lemma pow2_lt (a b : Z) : 0 <= a -> a < b -> 2 ^ a < 2 ^ b.
Proof. intros. apply Z.pow_lt_mono_r; lia. Qed.

Lemma rne_bounds (K T : Z) : 0 <= T -> K / 2 ^ T <= rne K T <= K / 2 ^ T + 1.
Proof.
  intros HT. unfold rne.
  destruct (2 * (K mod 2 ^ T) ?= 2 ^ T); [destruct (Z.even _) | |]; lia.
Qed.

Lemma rne_exact (a T : Z) : 0 <= T -> rne (a * 2 ^ T) T = a.
Proof.
  intros HT. pose proof (pow2_pos T HT) as HP. unfold rne.
  rewrite Z.mod_mul, Z.div_mul by lia.
  destruct (Z.compare_spec (2 * 0) (2 ^ T)); lia.
Qed.

Lemma rne_mono (K1 K2 T : Z) : 0 <= T -> K1 <= K2 -> rne K1 T <= rne K2 T.
Proof.
  intros HT HK. pose proof (pow2_pos T HT) as HP.
  pose proof (rne_bounds K1 T HT) as B1. pose proof (rne_bounds K2 T HT) as B2.
  pose proof (Z.div_le_mono K1 K2 (2 ^ T) HP HK) as Hq.
  destruct (Z.eq_dec (K1 / 2 ^ T) (K2 / 2 ^ T)) as [E | NE]; [| lia].
  pose proof (Z.div_mod K1 (2 ^ T) ltac:(lia)) as D1.
  pose proof (Z.div_mod K2 (2 ^ T) ltac:(lia)) as D2.
  assert (Hr : K1 mod 2 ^ T <= K2 mod 2 ^ T) by (rewrite E in D1; nia).
  unfold rne. rewrite E.
  destruct (Z.compare_spec (2 * (K1 mod 2 ^ T)) (2 ^ T));
    destruct (Z.compare_spec (2 * (K2 mod 2 ^ T)) (2 ^ T));
    destruct (Z.even (K2 / 2 ^ T)); lia.
Qed.

Lemma rne_nonneg (K T : Z) : 0 <= T -> 0 <= K -> 0 <= rne K T.
Proof.
  intros HT HK. pose proof (rne_bounds K T HT).
  pose proof (Z.div_pos K (2 ^ T) HK (pow2_pos T HT)). lia.
Qed.

Lemma ulp_exp_nonneg (K : Z) : 0 <= ulp_exp K.
Proof. unfold ulp_exp, scale. lia. Qed.

Lemma ulp_exp_mono (K1 K2 : Z) : K1 <= K2 -> ulp_exp K1 <= ulp_exp K2.
Proof.
  intros HK. unfold ulp_exp. pose proof (Z.log2_le_mono K1 K2 HK). lia.
Qed.

Lemma rnd_nonneg (K : Z) : 0 <= K -> 0 <= rnd K.
Proof.
  intros HK. unfold rnd.
  pose proof (rne_nonneg K (ulp_exp K) (ulp_exp_nonneg K) HK).
  pose proof (pow2_pos _ (ulp_exp_nonneg K)). nia.
Qed.

(** Rounding keeps the order. *)
Lemma rnd_mono (K1 K2 : Z) : 0 <= K1 -> K1 <= K2 -> rnd K1 <= rnd K2.
Proof.
  intros H1 HK.
  pose proof (ulp_exp_mono K1 K2 HK) as HT.
  pose proof (ulp_exp_nonneg K1) as HT1.
  destruct (Z.eq_dec (ulp_exp K1) (ulp_exp K2)) as [E | NE].
  - unfold rnd. rewrite E.
    pose proof (rne_mono K1 K2 (ulp_exp K2) ltac:(lia) HK).
    pose proof (pow2_pos (ulp_exp K2) ltac:(lia)). nia.
  - assert (HK2 : 0 < K2).
    { destruct (Z.eq_dec K2 0) as [-> |]; [| lia].
      assert (K1 = 0) by lia. subst K1. lia. }
    assert (HT2 : ulp_exp K2 = Z.log2 K2 - 52) by (unfold ulp_exp in *; lia).
    pose proof (Z.log2_nonneg K2) as Hl2.
    destruct (Z.log2_spec K2 HK2) as [Hlo _].
    set (L := Z.log2 K2) in *.
    assert (HK1 : K1 <= 2 ^ L).
    { destruct (Z.eq_dec K1 0) as [-> |]; [pose proof (pow2_pos L Hl2); lia |].
      destruct (Z.log2_spec K1 ltac:(lia)) as [_ Hhi].
      assert (Z.log2 K1 + 1 <= L) by (unfold ulp_exp in *; lia).
      pose proof (Z.log2_nonneg K1).
      pose proof (pow2_le (Z.succ (Z.log2 K1)) L ltac:(lia) ltac:(lia)). lia. }
    assert (Hup : 2 ^ L <= rnd K2).
    { unfold rnd. rewrite HT2.
      pose proof (rne_mono (2 ^ L) K2 (L - 52) ltac:(lia) Hlo) as Hm.
      replace (2 ^ L) with (2 ^ 52 * 2 ^ (L - 52)) in Hm at 1
        by (rewrite <- pow2_add by lia; f_equal; lia).
      rewrite rne_exact in Hm by lia.
      pose proof (pow2_pos (L - 52) ltac:(lia)).
      replace (2 ^ L) with (2 ^ 52 * 2 ^ (L - 52))
        by (rewrite <- pow2_add by lia; f_equal; lia).
      nia. }
    assert (Hdown : rnd K1 <= 2 ^ L).
    { unfold rnd. set (T := ulp_exp K1) in *.
      pose proof (rne_mono K1 (2 ^ L) T HT1 HK1) as Hm.
      replace (2 ^ L) with (2 ^ (L - T) * 2 ^ T) in Hm at 1
        by (rewrite <- pow2_add by lia; f_equal; lia).
      rewrite rne_exact in Hm by lia.
      pose proof (pow2_pos T HT1).
      replace (2 ^ L) with (2 ^ (L - T) * 2 ^ T)
        by (rewrite <- pow2_add by lia; f_equal; lia).
      nia. }
    lia.
Qed.

End RoundingFacts.

(** * The rounding of [SpecFloat] *)

Module ShiftFacts.

Import Rounding RoundingFacts.
Local Open Scope Z_scope.

Lemma digits2_size (p : positive) : digits2_pos p = Pos.size p.
Proof. induction p; cbn; congruence. Qed.

Lemma Zdigits2_log2 (p : positive) : Zdigits2 (Zpos p) = Z.log2 (Zpos p) + 1.
Proof.
  cbn [Zdigits2]. rewrite digits2_size.
  destruct p; cbn [Z.log2 Pos.size]; lia.
Qed.

Lemma iter_pos_nat {A : Type} (f : A -> A) (p : positive) (x : A) :
  SpecFloat.iter_pos f p x = @Nat.iter (Pos.to_nat p) A f x.
Proof.
  revert x. induction p as [p IH | p IH |]; intros x; cbn [SpecFloat.iter_pos].
  - rewrite !IH, <- Nat.iter_add, <- Nat.iter_succ_r.
    f_equal. lia.
  - rewrite !IH, <- Nat.iter_add. f_equal. lia.
  - reflexivity.
Qed.

Lemma shr_1_spec (m : Z) (r s : bool) :
  0 <= m ->
  shr_1 {| shr_m := m; shr_r := r; shr_s := s |}
  = {| shr_m := m / 2; shr_r := Z.odd m; shr_s := r || s |}.
Proof.
  intros Hm. rewrite <- Z.div2_div.
  destruct m as [| p | p]; [reflexivity | | lia].
  destruct p; reflexivity.
Qed.

Lemma shr_iter (m : Z) (k : nat) :
  0 <= m ->
  @Nat.iter k shr_record shr_1 {| shr_m := m; shr_r := false; shr_s := false |}
  = shr_result m (Z.of_nat k).
Proof.
  intros Hm. induction k as [| k IH].
  - unfold Nat.iter; cbn [nat_rect]. unfold shr_result.
    change (2 ^ Z.of_nat 0) with 1. rewrite Z.div_1_r, Z.mod_1_r. reflexivity.
  - rewrite Nat.iter_succ, IH. unfold shr_result.
    set (K := Z.of_nat k). set (P := 2 ^ K).
    assert (HK : 0 <= K) by (unfold K; lia).
    assert (HP : 0 < P) by (apply pow2_pos; exact HK).
    rewrite shr_1_spec by (apply Z.div_pos; lia).
    replace (2 ^ Z.of_nat (Datatypes.S k)) with (P * 2)
      by (rewrite Nat2Z.inj_succ; unfold P, K; rewrite Z.pow_succ_r by lia; lia).
    rewrite Z.div_div by lia.
    rewrite (Z.rem_mul_r m P 2) by lia.
    pose proof (Z.mod_pos_bound m P HP) as Hr0.
    pose proof (Z.mod_pos_bound (m / P) 2 ltac:(lia)) as Hb.
    pose proof (Zmod_odd (m / P)) as Hodd.
    set (r0 := m mod P) in *. set (b := (m / P) mod 2) in *.
    f_equal.
    + destruct (Z.odd (m / P)); destruct (Z.leb_spec (P * 2) (2 * (r0 + P * b))); lia.
    + replace (2 * (r0 + P * b)) with (2 * r0 + b * (P * 2)) by lia.
      rewrite Z.mod_add by lia. rewrite (Z.mod_small (2 * r0) (P * 2)) by lia.
      destruct (Z.leb_spec P (2 * r0)); cbn [orb].
      * destruct (Z.eqb_spec (2 * r0) 0); [lia | reflexivity].
      * rewrite (Z.mod_small (2 * r0) P) by lia. reflexivity.
Qed.

Lemma shr_spec (m e n : Z) :
  0 <= m ->
  shr {| shr_m := m; shr_r := false; shr_s := false |} e n
  = (shr_result m (Z.max 0 n), e + Z.max 0 n).
Proof.
  intros Hm. destruct n as [| p | p]; cbn [shr].
  - pose proof (shr_iter m 0 Hm) as E. unfold Nat.iter in E; cbn [nat_rect] in E.
    rewrite E. change (Z.max 0 0) with 0. change (Z.of_nat 0) with 0. f_equal. lia.
  - rewrite iter_pos_nat, shr_iter by exact Hm.
    rewrite positive_nat_Z. f_equal; f_equal; lia.
  - pose proof (shr_iter m 0 Hm) as E. unfold Nat.iter in E; cbn [nat_rect] in E.
    rewrite E. change (Z.max 0 (Z.neg p)) with 0. change (Z.of_nat 0) with 0.
    f_equal. lia.
Qed.

Lemma shr_fexp_spec (m e : Z) :
  0 <= m ->
  shr_fexp prec emax m e loc_Exact
  = (shr_result m (Z.max 0 (fexp prec emax (Zdigits2 m + e) - e)),
     e + Z.max 0 (fexp prec emax (Zdigits2 m + e) - e)).
Proof. intros Hm. unfold shr_fexp. cbn [shr_record_of_loc]. now apply shr_spec. Qed.

(** The rounding bits of a shift select the nearest integer. *)
Lemma round_shr_result (m N : Z) :
  0 <= m -> 0 <= N ->
  round_nearest_even (shr_m (shr_result m N)) (loc_of_shr_record (shr_result m N))
  = rne m N.
Proof.
  intros Hm HN. unfold shr_result, rne. cbn [shr_m loc_of_shr_record].
  pose proof (pow2_pos N HN) as HP.
  pose proof (Z.mod_pos_bound m (2 ^ N) HP) as Hr.
  set (P := 2 ^ N) in *. set (r := m mod P) in *.
  destruct (Z.leb_spec P (2 * r)) as [Hle | Hlt].
  - destruct (Z.eqb_spec ((2 * r) mod P) 0) as [Hz | Hnz]; cbn [negb round_nearest_even].
    + assert (2 * r = P).
      { pose proof (Z.div_mod (2 * r) P ltac:(lia)) as D. rewrite Hz in D.
        set (q := (2 * r) / P) in *.
        assert (q = 1) by nia. nia. }
      destruct (Z.compare_spec (2 * r) P); [reflexivity | lia | lia].
    + assert (2 * r <> P) by (intros E; apply Hnz; rewrite E; apply Z.mod_same; lia).
      destruct (Z.compare_spec (2 * r) P); [lia | lia | reflexivity].
  - rewrite (Z.mod_small (2 * r) P) by lia.
    destruct (Z.compare_spec (2 * r) P); [lia | | lia].
    destruct (Z.eqb_spec (2 * r) 0); reflexivity.
Qed.

(** Scaling the mantissa and the shift alike does not change the
    rounding. *)
Lemma rne_scale (a n k : Z) :
  0 <= n -> 0 <= k -> rne (a * 2 ^ k) (n + k) = rne a n.
Proof.
  intros Hn Hk. unfold rne.
  pose proof (pow2_pos n Hn) as HPn. pose proof (pow2_pos k Hk) as HPk.
  rewrite (pow2_add n k Hn Hk).
  rewrite Z.div_mul_cancel_r by lia.
  rewrite Z.mul_mod_distr_r by lia.
  set (q := a / 2 ^ n). set (r := a mod 2 ^ n).
  replace (2 * (r * 2 ^ k)) with (2 * r * 2 ^ k) by lia.
  assert (E : (2 * r * 2 ^ k ?= 2 ^ n * 2 ^ k) = (2 * r ?= 2 ^ n)).
  { destruct (Z.compare_spec (2 * r) (2 ^ n)) as [E | L | G].
    - rewrite E. apply Z.compare_refl.
    - apply Z.compare_lt_iff. nia.
    - apply Z.compare_gt_iff. nia. }
  rewrite E. reflexivity.
Qed.

End ShiftFacts.

Module RoundAux.

Import Rounding RoundingFacts ShiftFacts.
Local Open Scope Z_scope.

Lemma scale_val : scale = 2148.
Proof. reflexivity. Qed.

Lemma big_val : big = 2 ^ (1024 + scale).
Proof. reflexivity. Qed.

Lemma big_pos : 0 < big.
Proof. rewrite big_val. apply pow2_pos. rewrite scale_val. lia. Qed.

Lemma fexp_val (x : Z) : fexp prec emax x = Z.max (x - 53) (-1074).
Proof. reflexivity. Qed.

Lemma Zdigits2_bounds (m : Z) :
  0 < m -> 1 <= Zdigits2 m /\ 2 ^ (Zdigits2 m - 1) <= m < 2 ^ Zdigits2 m.
Proof.
  intros Hm. destruct m as [| p | p]; try lia.
  rewrite Zdigits2_log2. pose proof (Z.log2_nonneg (Z.pos p)).
  destruct (Z.log2_spec (Z.pos p) Hm) as [Hlo Hhi].
  replace (Z.log2 (Z.pos p) + 1 - 1) with (Z.log2 (Z.pos p)) by lia.
  replace (Z.log2 (Z.pos p) + 1) with (Z.succ (Z.log2 (Z.pos p))) by lia.
  lia.
Qed.

Lemma Zdigits2_unique (m d : Z) :
  1 <= d -> 2 ^ (d - 1) <= m < 2 ^ d -> Zdigits2 m = d.
Proof.
  intros Hd [Hlo Hhi].
  assert (Hm : 0 < m) by (pose proof (pow2_pos (d - 1) ltac:(lia)); lia).
  destruct m as [| p | p]; try lia.
  rewrite Zdigits2_log2.
  rewrite (Z.log2_unique (Z.pos p) (d - 1)); [lia | lia |].
  replace (Z.succ (d - 1)) with d by lia. lia.
Qed.

Lemma Zdigits2_le (m d : Z) : 0 <= m -> 0 <= d -> m < 2 ^ d -> Zdigits2 m <= d.
Proof.
  intros Hm Hd Hlt. destruct (Z.eq_dec m 0) as [-> | Hne]; [cbn; lia |].
  destruct (Zdigits2_bounds m ltac:(lia)) as [H1 [Hlo _]].
  destruct (Z_lt_le_dec d (Zdigits2 m)) as [Hc | Hc]; [| exact Hc].
  pose proof (pow2_le d (Zdigits2 m - 1) Hd ltac:(lia)). lia.
Qed.

Lemma below_big (q t : Z) :
  0 <= q < 2 ^ 53 -> 0 <= t + scale -> t <= 971 -> q * 2 ^ (t + scale) < big.
Proof.
  intros Hq Ht Hle. rewrite big_val.
  pose proof (pow2_pos (t + scale) Ht) as HU.
  pose proof (pow2_le (53 + (t + scale)) (1024 + scale) ltac:(lia) ltac:(lia)) as Hp.
  rewrite (pow2_add 53 (t + scale)) in Hp by lia.
  set (U := 2 ^ (t + scale)) in *. set (P := 2 ^ 53) in *. nia.
Qed.

Lemma above_big (q t : Z) :
  2 ^ 52 <= q -> 0 <= t + scale -> 972 <= t -> big <= q * 2 ^ (t + scale).
Proof.
  intros Hq Ht Hle. rewrite big_val.
  pose proof (pow2_pos (t + scale) Ht) as HU.
  pose proof (pow2_le (1024 + scale) (52 + (t + scale))
                ltac:(rewrite scale_val; lia) ltac:(lia)) as Hp.
  rewrite (pow2_add 52 (t + scale)) in Hp by lia.
  set (U := 2 ^ (t + scale)) in *. set (P := 2 ^ 52) in *. nia.
Qed.

Lemma clamp_below (v : Z) : v < big -> clamp v = v.
Proof. intros H. unfold clamp. destruct (Z.ltb_spec v big); lia. Qed.

Lemma clamp_above (v : Z) : big <= v -> clamp v = 3 * big.
Proof. intros H. unfold clamp. destruct (Z.ltb_spec v big); lia. Qed.

Lemma Zof_infinity (s : bool) : Zof (S754_infinity s) = cond_Zopp s (3 * big).
Proof. destruct s; reflexivity. Qed.

(** The quotient that the first shift leaves, and the rounded mantissa. *)
Lemma shifted_bounds (m e : Z) :
  0 < m ->
  let t := fexp prec emax (Zdigits2 m + e) in
  e <= t ->
  (t = Zdigits2 m + e - 53 /\ 2 ^ 52 <= rne m (t - e) <= 2 ^ 53) \/
  (t = -1074 /\ 0 <= rne m (t - e) <= 2 ^ 52).
Proof.
  intros Hm t Het.
  destruct (Zdigits2_bounds m Hm) as [Hd [Hlo Hhi]].
  set (d := Zdigits2 m) in *.
  pose proof (rne_bounds m (t - e) ltac:(lia)) as Hq.
  pose proof (pow2_pos (t - e) ltac:(lia)) as HP.
  unfold t in *. rewrite fexp_val in *.
  destruct (Z.max_spec (d + e - 53) (-1074)) as [[Hc E] | [Hc E]]; rewrite E in *.
  - right. split; [reflexivity |].
    split; [apply rne_nonneg; lia |].
    assert (m < 2 ^ 52 * 2 ^ (-1074 - e)).
    { rewrite <- pow2_add by lia.
      pose proof (pow2_le d (52 + (-1074 - e)) ltac:(lia) ltac:(lia)). lia. }
    assert (m / 2 ^ (-1074 - e) < 2 ^ 52)
      by (apply Z.div_lt_upper_bound; lia).
    lia.
  - left. split; [reflexivity |].
    replace (d + e - 53 - e) with (d - 53) in * by lia.
    assert (H1 : 2 ^ 52 * 2 ^ (d - 53) <= m)
      by (rewrite <- pow2_add by lia; replace (52 + (d - 53)) with (d - 1) by lia; lia).
    assert (H2 : m < 2 ^ 53 * 2 ^ (d - 53))
      by (rewrite <- pow2_add by lia; replace (53 + (d - 53)) with d by lia; lia).
    assert (2 ^ 52 <= m / 2 ^ (d - 53))
      by (apply Z.div_le_lower_bound; lia).
    assert (m / 2 ^ (d - 53) < 2 ^ 53)
      by (apply Z.div_lt_upper_bound; lia).
    lia.
Qed.

Lemma rnd_scaled (m e : Z) :
  0 < m -> 0 <= e + scale ->
  let t := fexp prec emax (Zdigits2 m + e) in
  e <= t ->
  rnd (m * 2 ^ (e + scale)) = rne m (t - e) * 2 ^ (t + scale).
Proof.
  intros Hm He t Het. unfold rnd.
  assert (HT : ulp_exp (m * 2 ^ (e + scale)) = t + scale).
  { unfold ulp_exp. rewrite Z.log2_mul_pow2 by lia.
    unfold t. rewrite fexp_val.
    destruct m as [| p | p]; try lia. rewrite Zdigits2_log2. lia. }
  rewrite HT.
  replace (t + scale) with ((t - e) + (e + scale)) at 1 by lia.
  rewrite rne_scale by lia. reflexivity.
Qed.

(** What [binary_round_aux] returns for the exact value [m * 2^e]: the
    rounded value, or the infinity when that is too large. *)
Lemma binary_round_aux_spec (s : bool) (m e : Z) :
  0 < m -> 0 <= e + scale -> e <= fexp prec emax (Zdigits2 m + e) ->
  Rounding.is_nan (binary_round_aux prec emax s m e loc_Exact) = false /\
  Zof (binary_round_aux prec emax s m e loc_Exact)
  = cond_Zopp s (clamp (rnd (m * 2 ^ (e + scale)))).
Proof.
  intros Hm He Het.
  rewrite (rnd_scaled m e Hm He Het).
  pose proof (shifted_bounds m e Hm Het) as Hq.
  unfold binary_round_aux.
  rewrite (shr_fexp_spec m e ltac:(lia)).
  set (t := fexp prec emax (Zdigits2 m + e)) in *.
  replace (Z.max 0 (t - e)) with (t - e) by lia.
  replace (e + (t - e)) with t by lia.
  cbv beta iota zeta.
  rewrite (round_shr_result m (t - e) ltac:(lia) ltac:(lia)).
  set (q := rne m (t - e)) in *.
  assert (Hq0 : 0 <= q) by (destruct Hq as [[_ H] | [_ H]];
                            [pose proof (pow2_pos 52 ltac:(lia)) |]; lia).
  rewrite (shr_fexp_spec q t Hq0).
  cbv beta iota zeta. unfold shr_result. cbn [shr_m].
  assert (Ht : 0 <= t + scale) by lia.
  pose proof (pow2_pos (t + scale) Ht) as HU.
  destruct (Z.eq_dec q (2 ^ 53)) as [E53 | N53].
  - (* the mantissa was rounded up to the next power of two *)
    destruct Hq as [[Htn _] | [_ Hb]];
      [| pose proof (pow2_lt 52 53 ltac:(lia) ltac:(lia)); lia].
    assert (Hd : Zdigits2 q = 54).
    { apply Zdigits2_unique; [lia |]. rewrite E53.
      replace (54 - 1) with 53 by lia.
      pose proof (pow2_lt 53 54 ltac:(lia) ltac:(lia)). lia. }
    rewrite Hd, fexp_val.
    assert (Htm : -1074 <= t) by (unfold t; rewrite fexp_val; lia).
    replace (Z.max 0 (Z.max (54 + t - 53) (-1074) - t)) with 1 by lia.
    rewrite E53. change (2 ^ 53 / 2 ^ 1) with (2 ^ 52).
    change (2 ^ 52) with 4503599627370496.
    destruct (Z.leb_spec (t + 1) (emax - prec)) as [Hfin | Hinf];
      change (emax - prec) with 971 in *.
    + split; [reflexivity |]. cbn [Zof]. f_equal.
      rewrite clamp_below.
      * replace (t + 1 + scale) with (1 + (t + scale)) by lia.
        rewrite (pow2_add 1 (t + scale)) by lia.
        change (2 ^ 1) with 2. change (2 ^ 53) with 9007199254740992. lia.
      * replace (2 ^ 53 * 2 ^ (t + scale)) with (2 ^ 52 * 2 ^ ((t + 1) + scale)).
        -- apply below_big; [| lia | lia].
           pose proof (pow2_lt 52 53 ltac:(lia) ltac:(lia)).
           pose proof (pow2_pos 52 ltac:(lia)). lia.
        -- rewrite <- !pow2_add by lia. f_equal. lia.
    + split; [reflexivity |]. rewrite Zof_infinity. f_equal.
      rewrite clamp_above; [reflexivity |].
      replace (2 ^ 53 * 2 ^ (t + scale)) with (2 ^ 52 * 2 ^ ((t + 1) + scale))
        by (rewrite <- !pow2_add by lia; f_equal; lia).
      apply above_big; lia.
  - (* the rounded mantissa needs no further shift *)
    assert (Hno : Z.max 0 (fexp prec emax (Zdigits2 q + t) - t) = 0).
    { rewrite fexp_val.
      destruct Hq as [[Htn Hb] | [Htn Hb]].
      - assert (Zdigits2 q = 53) by (apply Zdigits2_unique; lia).
        assert (-1074 <= t) by (unfold t; rewrite fexp_val; lia). lia.
      - assert (Zdigits2 q <= 53).
        { apply Zdigits2_le; [lia | lia |].
          pose proof (pow2_lt 52 53 ltac:(lia) ltac:(lia)). lia. }
        lia. }
    rewrite Hno. change (2 ^ 0) with 1. rewrite Z.div_1_r.
    replace (t + 0) with t by lia.
    destruct q as [| p | p]; [| | lia].
    + split; [reflexivity |]. cbn [Zof].
      rewrite Z.mul_0_l, clamp_below by apply big_pos. now destruct s.
    + destruct (Z.leb_spec t (emax - prec)) as [Hfin | Hinf];
        change (emax - prec) with 971 in *.
      * split; [reflexivity |]. cbn [Zof]. f_equal. rewrite clamp_below; [reflexivity |].
        apply below_big; [| lia | lia].
        destruct Hq as [[_ Hb] | [_ Hb]];
          [| pose proof (pow2_lt 52 53 ltac:(lia) ltac:(lia))]; lia.
      * split; [reflexivity |]. rewrite Zof_infinity. f_equal.
        rewrite clamp_above; [reflexivity |].
        apply above_big; [| lia | lia].
        destruct Hq as [[_ Hb] | [Htn _]]; lia.
Qed.

End RoundAux.

Module SpecFacts.

Import Rounding RoundingFacts ShiftFacts RoundAux.
Local Open Scope Z_scope.

Lemma round_0 : round 0 = 0.
Proof.
  unfold round. change (0 <? 0) with false. cbv iota.
  replace (rnd 0) with 0; [apply clamp_below, big_pos |].
  unfold rnd. rewrite Z.mul_comm. unfold rne. rewrite Z.mod_0_l, Z.div_0_l.
  - pose proof (pow2_pos _ (ulp_exp_nonneg 0)).
    destruct (Z.compare_spec (2 * 0) (2 ^ ulp_exp 0)); cbn; lia.
  - pose proof (pow2_pos _ (ulp_exp_nonneg 0)). lia.
  - pose proof (pow2_pos _ (ulp_exp_nonneg 0)). lia.
Qed.

Lemma clamp_mono (u v : Z) : u <= v -> clamp u <= clamp v.
Proof.
  intros H. unfold clamp. pose proof big_pos.
  destruct (Z.ltb_spec u big); destruct (Z.ltb_spec v big); lia.
Qed.

Lemma clamp_nonneg (v : Z) : 0 <= v -> 0 <= clamp v.
Proof. intros H. unfold clamp. pose proof big_pos. destruct (Z.ltb_spec v big); lia. Qed.

Lemma round_opp (K : Z) : round (- K) = - round K.
Proof.
  destruct (Z.eq_dec K 0) as [-> | Hne].
  - change (- 0) with 0. rewrite round_0. reflexivity.
  - unfold round.
    destruct (Z.ltb_spec (- K) 0); destruct (Z.ltb_spec K 0); try lia.
    rewrite Z.opp_involutive. reflexivity.
Qed.

Lemma round_nonneg (K : Z) : 0 <= K -> 0 <= round K.
Proof.
  intros H. unfold round. destruct (Z.ltb_spec K 0); [lia |].
  apply clamp_nonneg, rnd_nonneg, H.
Qed.

(** Rounding keeps the order, whatever the signs. *)
Lemma round_mono (K1 K2 : Z) : K1 <= K2 -> round K1 <= round K2.
Proof.
  intros H.
  destruct (Z_lt_le_dec K1 0) as [N1 | P1]; destruct (Z_lt_le_dec K2 0) as [N2 | P2].
  - unfold round. destruct (Z.ltb_spec K1 0); [| lia]. destruct (Z.ltb_spec K2 0); [| lia].
    pose proof (clamp_mono _ _ (rnd_mono (- K2) (- K1) ltac:(lia) ltac:(lia))). lia.
  - pose proof (round_nonneg K2 P2).
    pose proof (round_nonneg (- K1) ltac:(lia)) as H1. rewrite round_opp in H1. lia.
  - lia.
  - unfold round. destruct (Z.ltb_spec K1 0); [lia |]. destruct (Z.ltb_spec K2 0); [lia |].
    apply clamp_mono, rnd_mono; assumption.
Qed.

Lemma rnd_pow2 (n : Z) : scale - 1022 <= n -> rnd (2 ^ n) = 2 ^ n.
Proof.
  intros Hn. assert (Hs : 52 <= n) by (rewrite scale_val in Hn; lia).
  unfold rnd.
  assert (HT : ulp_exp (2 ^ n) = n - 52).
  { unfold ulp_exp. rewrite Z.log2_pow2 by lia. lia. }
  rewrite HT.
  assert (E : 2 ^ n = 2 ^ 52 * 2 ^ (n - 52))
    by (rewrite <- pow2_add by lia; f_equal; lia).
  rewrite E at 1. rewrite rne_exact by lia. symmetry. exact E.
Qed.

Lemma rnd_big : rnd big = big.
Proof. rewrite big_val. apply rnd_pow2. lia. Qed.

Lemma round_huge (K : Z) : big <= K -> round K = 3 * big.
Proof.
  intros H. pose proof big_pos. unfold round.
  destruct (Z.ltb_spec K 0); [lia |].
  apply clamp_above. rewrite <- rnd_big at 1. apply rnd_mono; lia.
Qed.

(** ** Valid numbers *)

Lemma valid_finite (s : bool) (m : positive) (e : Z) :
  valid_binary (S754_finite s m e) = true ->
  -1074 <= e <= 971 /\ fexp prec emax (Zdigits2 (Z.pos m) + e) = e /\
  Z.pos m < 2 ^ 53 /\ (e = -1074 \/ 2 ^ 52 <= Z.pos m).
Proof.
  cbn [SpecFloat.valid_binary]. unfold bounded, canonical_mantissa.
  intros H. apply andb_true_iff in H as [Hc Hb].
  apply Z.eqb_eq in Hc. apply Z.leb_le in Hb. change (emax - prec) with 971 in Hb.
  change (Z.pos (digits2_pos m)) with (Zdigits2 (Z.pos m)) in Hc.
  destruct (Zdigits2_bounds (Z.pos m) ltac:(lia)) as [Hd [Hlo Hhi]].
  set (d := Zdigits2 (Z.pos m)) in *.
  rewrite fexp_val in *.
  split; [lia |]. split; [exact Hc |]. split.
  - pose proof (pow2_le d 53 ltac:(lia) ltac:(lia)). lia.
  - destruct (Z.eq_dec e (-1074)) as [| Hne]; [now left | right].
    assert (d = 53) by lia.
    replace 52 with (d - 1) by lia. lia.
Qed.

Lemma Zof_finite_bounds (s : bool) (m : positive) (e : Z) :
  valid_binary (S754_finite s m e) = true ->
  0 < Z.pos m * 2 ^ (e + scale) < big.
Proof.
  intros H. destruct (valid_finite s m e H) as (He & _ & Hm & _).
  assert (Hs : 0 <= e + scale) by (rewrite scale_val; lia).
  pose proof (pow2_pos (e + scale) Hs). split; [lia |].
  apply below_big; lia.
Qed.

Lemma Zof_abs_bound (x : spec_float) :
  valid_binary x = true -> - (3 * big) <= Zof x <= 3 * big.
Proof.
  intros H. pose proof big_pos. destruct x as [s | s | | s m e]; cbn [Zof].
  - lia.
  - destruct s; lia.
  - lia.
  - pose proof (Zof_finite_bounds s m e H). destruct s; cbn [cond_Zopp]; lia.
Qed.

(** A valid number rounds to itself. *)
Lemma rnd_finite (s : bool) (m : positive) (e : Z) :
  valid_binary (S754_finite s m e) = true ->
  clamp (rnd (Z.pos m * 2 ^ (e + scale))) = Z.pos m * 2 ^ (e + scale).
Proof.
  intros H. destruct (valid_finite s m e H) as (He & Hc & Hm & _).
  assert (Hs : 0 <= e + scale) by (rewrite scale_val; lia).
  rewrite (rnd_scaled (Z.pos m) e ltac:(lia) Hs ltac:(lia)).
  rewrite Hc. replace (e - e) with 0 by lia.
  replace (rne (Z.pos m) 0) with (Z.pos m)
    by (rewrite <- (rne_exact (Z.pos m) 0) at 1 by lia; f_equal; change (2 ^ 0) with 1; lia).
  apply clamp_below. apply (Zof_finite_bounds s m e H).
Qed.

Lemma round_Zof (x : spec_float) :
  valid_binary x = true -> round (Zof x) = Zof x.
Proof.
  intros H. pose proof big_pos. destruct x as [s | s | | s m e]; cbn [Zof].
  - apply round_0.
  - destruct s; [rewrite round_opp |]; rewrite round_huge; lia.
  - apply round_0.
  - pose proof (Zof_finite_bounds s m e H). pose proof (rnd_finite s m e H) as R.
    destruct s; cbn [cond_Zopp]; [rewrite round_opp |]; unfold round;
      (destruct (Z.ltb_spec (Z.pos m * 2 ^ (e + scale)) 0); [lia |]); rewrite R; reflexivity.
Qed.

(** ** Comparison *)

Lemma compare_canonical (m1 m2 : positive) (e1 e2 : Z) :
  valid_binary (S754_finite false m1 e1) = true ->
  valid_binary (S754_finite false m2 e2) = true ->
  match e1 ?= e2 with
  | Lt => Lt
  | Gt => Gt
  | Eq => Pos.compare_cont Eq m1 m2
  end = (Z.pos m1 * 2 ^ (e1 + scale) ?= Z.pos m2 * 2 ^ (e2 + scale)).
Proof.
  intros H1 H2.
  destruct (valid_finite _ _ _ H1) as (He1 & _ & Hm1 & Hn1).
  destruct (valid_finite _ _ _ H2) as (He2 & _ & Hm2 & Hn2).
  assert (Hs1 : 0 <= e1 + scale) by (rewrite scale_val; lia).
  assert (Hs2 : 0 <= e2 + scale) by (rewrite scale_val; lia).
  pose proof (pow2_pos _ Hs1) as HU1. pose proof (pow2_pos _ Hs2) as HU2.
  assert (Hstep : forall (a b : positive) (ea eb : Z),
             0 <= ea + scale -> ea < eb -> Z.pos a < 2 ^ 53 -> 2 ^ 52 <= Z.pos b ->
             Z.pos a * 2 ^ (ea + scale) < Z.pos b * 2 ^ (eb + scale)).
  { intros a b ea eb Hsa Hlt Ha Hb.
    pose proof (pow2_pos _ Hsa).
    pose proof (pow2_le (53 + (ea + scale)) (52 + (eb + scale)) ltac:(lia) ltac:(lia)) as Hp.
    rewrite (pow2_add 53 (ea + scale)), (pow2_add 52 (eb + scale)) in Hp by lia.
    pose proof (pow2_pos (eb + scale) ltac:(lia)).
    set (U := 2 ^ (ea + scale)) in *. set (V := 2 ^ (eb + scale)) in *.
    set (P := 2 ^ 53) in *. set (Q := 2 ^ 52) in *.
    assert (Z.pos a * U < P * U) by (apply Z.mul_lt_mono_pos_r; lia).
    assert (Q * V <= Z.pos b * V) by (apply Z.mul_le_mono_nonneg_r; lia).
    lia. }
  destruct (Z.compare_spec e1 e2) as [E | L | G]; symmetry.
  - subst e2. change (Pos.compare_cont Eq m1 m2) with (Z.pos m1 ?= Z.pos m2).
    destruct (Z.compare_spec (Z.pos m1) (Z.pos m2)) as [E | L | G].
    + rewrite E. apply Z.compare_refl.
    + apply Z.compare_lt_iff. apply Z.mul_lt_mono_pos_r; assumption.
    + apply Z.compare_gt_iff. apply Z.mul_lt_mono_pos_r; [assumption | lia].
  - apply Z.compare_lt_iff. apply Hstep; lia.
  - apply Z.compare_gt_iff. apply Hstep; lia.
Qed.

(** On valid numbers the comparison is that of the values. *)
Lemma SFcompare_Zof (x y : spec_float) :
  valid_binary x = true -> valid_binary y = true ->
  Rounding.is_nan x = false -> Rounding.is_nan y = false ->
  SFcompare x y = Some (Zof x ?= Zof y).
Proof.
  intros Hx Hy Nx Ny. pose proof big_pos as HB.
  destruct x as [sx | sx | | sx mx ex]; try discriminate Nx;
    destruct y as [sy | sy | | sy my ey]; try discriminate Ny;
    cbn [SFcompare Zof].
  - reflexivity.
  - f_equal. symmetry. destruct sy; [apply Z.compare_gt_iff | apply Z.compare_lt_iff]; lia.
  - pose proof (Zof_finite_bounds sy my ey Hy).
    f_equal. symmetry.
    destruct sy; cbn [cond_Zopp]; [apply Z.compare_gt_iff | apply Z.compare_lt_iff]; lia.
  - f_equal. symmetry. destruct sx; [apply Z.compare_lt_iff | apply Z.compare_gt_iff]; lia.
  - f_equal. symmetry.
    destruct sx, sy; try apply Z.compare_refl;
      [apply Z.compare_lt_iff | apply Z.compare_gt_iff]; lia.
  - pose proof (Zof_finite_bounds sy my ey Hy).
    f_equal. symmetry.
    destruct sx, sy; cbn [cond_Zopp];
      try (apply Z.compare_lt_iff; lia); apply Z.compare_gt_iff; lia.
  - pose proof (Zof_finite_bounds sx mx ex Hx).
    f_equal. symmetry.
    destruct sx; cbn [cond_Zopp]; [apply Z.compare_lt_iff | apply Z.compare_gt_iff]; lia.
  - pose proof (Zof_finite_bounds sx mx ex Hx).
    f_equal. symmetry.
    destruct sx, sy; cbn [cond_Zopp];
      try (apply Z.compare_lt_iff; lia); apply Z.compare_gt_iff; lia.
  - pose proof (Zof_finite_bounds sx mx ex Hx).
    pose proof (Zof_finite_bounds sy my ey Hy).
    f_equal.
    destruct sx, sy; cbn [cond_Zopp].
    + rewrite Z.compare_opp.
      rewrite <- (compare_canonical my mx ey ex Hy Hx).
      rewrite (Z.compare_antisym ey ex).
      destruct (ey ?= ex); cbn [CompOpp]; try reflexivity.
      apply (Pos.compare_cont_antisym mx my Eq).
    + symmetry. apply Z.compare_lt_iff. lia.
    + symmetry. apply Z.compare_gt_iff. lia.
    + apply compare_canonical; assumption.
Qed.

End SpecFacts.

Module OpFacts.

Import Rounding RoundingFacts ShiftFacts RoundAux SpecFacts.
Local Open Scope Z_scope.

Lemma iter_xO (m d : positive) : Z.pos (Pos.iter xO m d) = Z.pos m * 2 ^ Z.pos d.
Proof.
  induction d as [| d IH] using Pos.peano_ind.
  - cbn [Pos.iter]. rewrite Pos2Z.inj_xO. change (2 ^ 1) with 2. lia.
  - rewrite Pos.iter_succ, Pos2Z.inj_xO, IH, Pos2Z.inj_succ, Z.pow_succ_r by lia. lia.
Qed.

Lemma Zdigits2_shift (m : positive) (d : Z) :
  0 <= d -> Zdigits2 (Z.pos m * 2 ^ d) = Zdigits2 (Z.pos m) + d.
Proof.
  intros Hd. pose proof (pow2_pos d Hd).
  destruct (Zdigits2_bounds (Z.pos m) ltac:(lia)) as [H1 [Hlo Hhi]].
  apply Zdigits2_unique; [lia |].
  replace (Zdigits2 (Z.pos m) + d - 1) with ((Zdigits2 (Z.pos m) - 1) + d) by lia.
  rewrite !pow2_add by lia. nia.
Qed.

Lemma shl_align_spec (mx : positive) (ex ex' : Z) :
  0 <= ex + scale -> 0 <= ex' + scale ->
  Z.pos (fst (shl_align mx ex ex')) * 2 ^ (snd (shl_align mx ex ex') + scale)
  = Z.pos mx * 2 ^ (ex + scale) /\
  snd (shl_align mx ex ex') = Z.min ex ex' /\
  Zdigits2 (Z.pos (fst (shl_align mx ex ex'))) + snd (shl_align mx ex ex')
  = Zdigits2 (Z.pos mx) + ex.
Proof.
  intros Hx Hx'. unfold shl_align.
  destruct (ex' - ex) as [| d | d] eqn:E; cbn [fst snd].
  - split; [reflexivity |]. split; [lia | reflexivity].
  - split; [reflexivity |]. split; [lia | reflexivity].
  - assert (Hex : ex = ex' + Z.pos d) by lia.
    rewrite iter_xO. split; [| split; [lia |]].
    + rewrite Hex. replace (ex' + Z.pos d + scale) with (Z.pos d + (ex' + scale)) by lia.
      rewrite (pow2_add (Z.pos d) (ex' + scale)) by lia. lia.
    + rewrite Zdigits2_shift by lia. lia.
Qed.

Lemma binary_round_spec (s : bool) (mx : positive) (ex : Z) :
  0 <= ex + scale ->
  Rounding.is_nan (binary_round prec emax s mx ex) = false /\
  Zof (binary_round prec emax s mx ex)
  = cond_Zopp s (clamp (rnd (Z.pos mx * 2 ^ (ex + scale)))).
Proof.
  intros Hx. unfold binary_round.
  set (t := fexp prec emax (Z.pos (digits2_pos mx) + ex)).
  assert (Ht : -1074 <= t) by (unfold t; rewrite fexp_val; lia).
  destruct (shl_align_spec mx ex t Hx ltac:(rewrite scale_val; lia)) as (Hv & He & Hd).
  destruct (shl_align mx ex t) as [mz ez]. cbn [fst snd] in *.
  rewrite <- Hv. apply binary_round_aux_spec.
  - lia.
  - rewrite scale_val in *. lia.
  - rewrite Hd. change (Zdigits2 (Z.pos mx)) with (Z.pos (digits2_pos mx)). fold t. lia.
Qed.

Lemma binary_normalize_spec (m e : Z) (szero : bool) :
  0 <= e + scale ->
  Rounding.is_nan (binary_normalize prec emax m e szero) = false /\
  Zof (binary_normalize prec emax m e szero) = round (m * 2 ^ (e + scale)).
Proof.
  intros He. pose proof (pow2_pos _ He) as HU. unfold binary_normalize.
  destruct m as [| p | p].
  - split; [reflexivity |]. rewrite Z.mul_0_l, round_0. reflexivity.
  - destruct (binary_round_spec false p e He) as [Hn Hv]. split; [exact Hn |].
    rewrite Hv. cbn [cond_Zopp]. unfold round.
    destruct (Z.ltb_spec (Z.pos p * 2 ^ (e + scale)) 0); [lia | reflexivity].
  - destruct (binary_round_spec true p e He) as [Hn Hv]. split; [exact Hn |].
    rewrite Hv. cbn [cond_Zopp]. unfold round.
    destruct (Z.ltb_spec (Z.neg p * 2 ^ (e + scale)) 0); [| lia].
    do 3 f_equal. lia.
Qed.

(** ** Addition and subtraction *)

Lemma SFadd_finite (sx sy : bool) (mx my : positive) (ex ey : Z) :
  valid_binary (S754_finite sx mx ex) = true ->
  valid_binary (S754_finite sy my ey) = true ->
  Rounding.is_nan (SFadd prec emax (S754_finite sx mx ex) (S754_finite sy my ey)) = false /\
  Zof (SFadd prec emax (S754_finite sx mx ex) (S754_finite sy my ey))
  = round (Zof (S754_finite sx mx ex) + Zof (S754_finite sy my ey)).
Proof.
  intros Hx Hy.
  destruct (valid_finite _ _ _ Hx) as (Hex & _). destruct (valid_finite _ _ _ Hy) as (Hey & _).
  cbn [SFadd]. set (ez := Z.min ex ey).
  assert (Hz : 0 <= ez + scale) by (unfold ez; rewrite scale_val; lia).
  destruct (shl_align_spec mx ex ez ltac:(rewrite scale_val; lia) Hz) as (Hvx & Hsx & _).
  destruct (shl_align_spec my ey ez ltac:(rewrite scale_val; lia) Hz) as (Hvy & Hsy & _).
  replace (snd (shl_align mx ex ez)) with ez in Hvx by (rewrite Hsx; unfold ez; lia).
  replace (snd (shl_align my ey ez)) with ez in Hvy by (rewrite Hsy; unfold ez; lia).
  destruct (binary_normalize_spec
              (cond_Zopp sx (Z.pos (fst (shl_align mx ex ez)))
               + cond_Zopp sy (Z.pos (fst (shl_align my ey ez)))) ez false Hz) as [Hn Hv].
  split; [exact Hn |]. rewrite Hv. f_equal. cbn [Zof].
  rewrite <- Hvx, <- Hvy. destruct sx, sy; cbn [cond_Zopp]; lia.
Qed.

Lemma SFadd_spec (x y : spec_float) :
  valid_binary x = true -> valid_binary y = true ->
  Rounding.is_nan (SFadd prec emax x y) = false ->
  Zof (SFadd prec emax x y) = round (Zof x + Zof y).
Proof.
  intros Hx Hy Hn. pose proof big_pos as HB.
  destruct x as [sx | sx | | sx mx ex]; destruct y as [sy | sy | | sy my ey];
    try discriminate Hn.
  - cbn [Zof]. rewrite Z.add_0_l, round_0. now destruct sx, sy.
  - cbn [SFadd]. rewrite Z.add_0_l. symmetry. now apply round_Zof.
  - cbn [SFadd]. rewrite Z.add_0_l. symmetry. now apply round_Zof.
  - cbn [SFadd]. change (Zof (S754_zero sy)) with 0.
    rewrite Z.add_0_r. symmetry. now apply round_Zof.
  - destruct sx, sy; try discriminate Hn; cbn [SFadd Zof].
    + replace (- (3 * big) + - (3 * big)) with (- (6 * big)) by lia.
      rewrite round_opp, round_huge; lia.
    + replace (3 * big + 3 * big) with (6 * big) by lia. rewrite round_huge; lia.
  - pose proof (Zof_finite_bounds sy my ey Hy) as Hb.
    cbn [SFadd]. cbn [Zof].
    destruct sx.
    + replace (- (3 * big) + cond_Zopp sy (Z.pos my * 2 ^ (ey + scale)))
        with (- (3 * big - cond_Zopp sy (Z.pos my * 2 ^ (ey + scale)))) by lia.
      rewrite round_opp, round_huge; [lia |]. destruct sy; cbn [cond_Zopp]; lia.
    + rewrite round_huge; [lia |]. destruct sy; cbn [cond_Zopp]; lia.
  - cbn [SFadd]. change (Zof (S754_zero sy)) with 0.
    rewrite Z.add_0_r. symmetry. now apply round_Zof.
  - pose proof (Zof_finite_bounds sx mx ex Hx) as Hb.
    cbn [SFadd]. cbn [Zof].
    destruct sy.
    + replace (cond_Zopp sx (Z.pos mx * 2 ^ (ex + scale)) + - (3 * big))
        with (- (3 * big - cond_Zopp sx (Z.pos mx * 2 ^ (ex + scale)))) by lia.
      rewrite round_opp, round_huge; [lia |]. destruct sx; cbn [cond_Zopp]; lia.
    + rewrite round_huge; [lia |]. destruct sx; cbn [cond_Zopp]; lia.
  - apply SFadd_finite; assumption.
Qed.

Lemma SFadd_not_nan (x y : spec_float) :
  valid_binary x = true -> valid_binary y = true ->
  Rounding.is_nan x = false -> Rounding.is_nan y = false ->
  (finite x = true \/ finite y = true \/ Zof x + Zof y <> 0) ->
  Rounding.is_nan (SFadd prec emax x y) = false.
Proof.
  intros Hx Hy Nx Ny H. pose proof big_pos as HB.
  destruct x as [sx | sx | | sx mx ex]; try discriminate Nx;
    destruct y as [sy | sy | | sy my ey]; try discriminate Ny;
    try reflexivity.
  - now destruct sx, sy.
  - destruct sx, sy; try reflexivity; cbn in H;
      destruct H as [H | [H | H]]; try discriminate H; lia.
  - apply SFadd_finite; assumption.
Qed.

Lemma SFsub_add_opp (x y : spec_float) :
  SFsub prec emax x y = SFadd prec emax x (SFopp y).
Proof.
  destruct x as [sx | sx | | sx mx ex]; destruct y as [sy | sy | | sy my ey];
    try reflexivity.
  - now destruct sx, sy.
  - now destruct sx, sy.
  - cbn [SFsub SFadd SFopp]. f_equal. destruct sy; cbn [cond_Zopp negb]; lia.
Qed.

Lemma SFopp_facts (y : spec_float) :
  valid_binary (SFopp y) = valid_binary y /\
  Rounding.is_nan (SFopp y) = Rounding.is_nan y /\
  finite (SFopp y) = finite y /\
  Zof (SFopp y) = - Zof y.
Proof.
  destruct y as [s | s | | s m e]; cbn; repeat split; try reflexivity;
    destruct s; cbn; lia.
Qed.

Lemma SFsub_spec (x y : spec_float) :
  valid_binary x = true -> valid_binary y = true ->
  Rounding.is_nan (SFsub prec emax x y) = false ->
  Zof (SFsub prec emax x y) = round (Zof x - Zof y).
Proof.
  intros Hx Hy Hn. rewrite SFsub_add_opp in *.
  destruct (SFopp_facts y) as (Hv & _ & _ & Hz).
  rewrite SFadd_spec; [| assumption | congruence | assumption].
  rewrite Hz. f_equal.
Qed.

Lemma SFsub_not_nan (x y : spec_float) :
  valid_binary x = true -> valid_binary y = true ->
  Rounding.is_nan x = false -> Rounding.is_nan y = false ->
  (finite x = true \/ finite y = true \/ Zof x - Zof y <> 0) ->
  Rounding.is_nan (SFsub prec emax x y) = false.
Proof.
  intros Hx Hy Nx Ny H. rewrite SFsub_add_opp.
  destruct (SFopp_facts y) as (Hv & Hnan & Hf & Hz).
  apply SFadd_not_nan; try congruence.
  rewrite Hf, Hz. replace (Zof x + - Zof y) with (Zof x - Zof y) by lia. exact H.
Qed.

(** ** Multiplication *)

Lemma SFmul_spec (x y : spec_float) :
  valid_binary x = true -> valid_binary y = true ->
  finite x = true -> finite y = true ->
  Rounding.is_nan (SFmul prec emax x y) = false /\
  Zof (SFmul prec emax x y) = round (Zof x * Zof y / 2 ^ scale).
Proof.
  intros Hx Hy Fx Fy.
  destruct x as [sx | sx | | sx mx ex]; try discriminate Fx;
    destruct y as [sy | sy | | sy my ey]; try discriminate Fy;
    cbn [SFmul].
  - split; [reflexivity |]. cbn [Zof]. rewrite Z.mul_0_l, Z.div_0_l, round_0; [reflexivity |].
    pose proof (pow2_pos scale ltac:(rewrite scale_val; lia)). lia.
  - split; [reflexivity |]. cbn [Zof]. rewrite Z.mul_0_l, Z.div_0_l, round_0; [reflexivity |].
    pose proof (pow2_pos scale ltac:(rewrite scale_val; lia)). lia.
  - split; [reflexivity |]. cbn [Zof]. rewrite Z.mul_0_r, Z.div_0_l, round_0; [reflexivity |].
    pose proof (pow2_pos scale ltac:(rewrite scale_val; lia)). lia.
  - destruct (valid_finite _ _ _ Hx) as (Hex & _ & Hmx & Hnx).
    destruct (valid_finite _ _ _ Hy) as (Hey & _ & Hmy & Hny).
    assert (Hs : 0 <= scale) by (rewrite scale_val; lia).
    assert (Hsx : 0 <= ex + scale) by (rewrite scale_val; lia).
    assert (Hsy : 0 <= ey + scale) by (rewrite scale_val; lia).
    assert (Hsxy : 0 <= ex + ey + scale) by (rewrite scale_val; lia).
    pose proof (pow2_pos scale Hs) as HS.
    assert (Hcanon : ex + ey <= fexp prec emax (Zdigits2 (Z.pos (mx * my)) + (ex + ey))).
    { rewrite fexp_val.
      destruct (Z_le_gt_dec (ex + ey) (-1074)) as [Hle | Hgt]; [lia |].
      assert (2 ^ 52 <= Z.pos (mx * my)).
      { rewrite Pos2Z.inj_mul. pose proof (pow2_pos 52 ltac:(lia)).
        destruct Hnx as [Hnx | Hnx]; destruct Hny as [Hny | Hny]; try lia; nia. }
      destruct (Zdigits2_bounds (Z.pos (mx * my)) ltac:(lia)) as [Hd [_ Hhi]].
      destruct (Z_lt_le_dec (Zdigits2 (Z.pos (mx * my))) 53) as [Hc | Hc]; [| lia].
      pose proof (pow2_le (Zdigits2 (Z.pos (mx * my))) 52 ltac:(lia) ltac:(lia)). lia. }
    destruct (binary_round_aux_spec (xorb sx sy) (Z.pos (mx * my)) (ex + ey)
                ltac:(lia) Hsxy Hcanon) as [Hn Hv].
    split; [exact Hn |]. rewrite Hv. cbn [Zof].
    set (K := Z.pos (mx * my) * 2 ^ (ex + ey + scale)).
    assert (HK : 0 < K) by (unfold K; pose proof (pow2_pos _ Hsxy); lia).
    assert (HP : Z.pos mx * 2 ^ (ex + scale) * (Z.pos my * 2 ^ (ey + scale))
                 = K * 2 ^ scale).
    { assert (Hpw : 2 ^ (ex + scale) * 2 ^ (ey + scale) = 2 ^ (ex + ey + scale) * 2 ^ scale)
        by (rewrite <- !pow2_add by lia; f_equal; lia).
      unfold K. rewrite Pos2Z.inj_mul.
      replace (Z.pos mx * 2 ^ (ex + scale) * (Z.pos my * 2 ^ (ey + scale)))
        with (Z.pos mx * Z.pos my * (2 ^ (ex + scale) * 2 ^ (ey + scale))) by ring.
      rewrite Hpw. ring. }
    assert (Hround : round K = clamp (rnd K)).
    { unfold round. destruct (Z.ltb_spec K 0); [lia | reflexivity]. }
    destruct sx, sy; cbn [xorb cond_Zopp].
    + replace (- (Z.pos mx * 2 ^ (ex + scale)) * - (Z.pos my * 2 ^ (ey + scale)))
        with (K * 2 ^ scale) by lia.
      rewrite Z.div_mul by lia. now rewrite Hround.
    + replace (- (Z.pos mx * 2 ^ (ex + scale)) * (Z.pos my * 2 ^ (ey + scale)))
        with (- K * 2 ^ scale) by lia.
      rewrite Z.div_mul by lia. rewrite round_opp. now rewrite Hround.
    + replace (Z.pos mx * 2 ^ (ex + scale) * - (Z.pos my * 2 ^ (ey + scale)))
        with (- K * 2 ^ scale) by lia.
      rewrite Z.div_mul by lia. rewrite round_opp. now rewrite Hround.
    + rewrite HP, Z.div_mul by lia. now rewrite Hround.
Qed.

End OpFacts.

(** * Binary64 arithmetic through values *)

Module FloatFacts.

Import Rounding RoundingFacts ShiftFacts RoundAux SpecFacts OpFacts.
Local Open Scope Z_scope.

Lemma nn_true (x : float) : nn x = true <-> Rounding.is_nan (Prim2SF x) = false.
Proof. unfold nn. destruct (Rounding.is_nan (Prim2SF x)); cbn; intuition congruence. Qed.

Lemma fin_nn (x : float) : fin x = true -> nn x = true.
Proof. unfold fin, nn. now destruct (Prim2SF x). Qed.

Lemma compare_zv (x y : float) :
  nn x = true -> nn y = true ->
  SFcompare (Prim2SF x) (Prim2SF y) = Some (zv x ?= zv y).
Proof.
  intros Hx Hy. apply SFcompare_Zof; try apply Prim2SF_valid; now apply nn_true.
Qed.

Lemma compare_nan (x y : float) :
  nn x = false \/ nn y = false -> SFcompare (Prim2SF x) (Prim2SF y) = None.
Proof.
  unfold nn. intros [H | H]; destruct (Prim2SF x), (Prim2SF y); try discriminate H; reflexivity.
Qed.

Lemma leb_zv (x y : float) :
  nn x = true -> nn y = true -> PrimFloat.leb x y = (zv x <=? zv y).
Proof.
  intros Hx Hy. rewrite FloatAxioms.leb_spec. unfold SFleb. rewrite (compare_zv x y Hx Hy).
  unfold Z.leb. now destruct (zv x ?= zv y).
Qed.

Lemma ltb_zv (x y : float) :
  nn x = true -> nn y = true -> PrimFloat.ltb x y = (zv x <? zv y).
Proof.
  intros Hx Hy. rewrite FloatAxioms.ltb_spec. unfold SFltb. rewrite (compare_zv x y Hx Hy).
  unfold Z.ltb. now destruct (zv x ?= zv y).
Qed.

Lemma eqb_zv (x y : float) :
  nn x = true -> nn y = true -> PrimFloat.eqb x y = (zv x =? zv y).
Proof.
  intros Hx Hy. rewrite FloatAxioms.eqb_spec. unfold SFeqb. rewrite (compare_zv x y Hx Hy).
  destruct (Z.compare_spec (zv x) (zv y)); destruct (Z.eqb_spec (zv x) (zv y));
    try reflexivity; lia.
Qed.

(** A comparison that holds is between numbers. *)
Lemma leb_nn (x y : float) : PrimFloat.leb x y = true -> nn x = true /\ nn y = true.
Proof.
  rewrite FloatAxioms.leb_spec. unfold SFleb. intros H.
  destruct (nn x) eqn:Hx; [destruct (nn y) eqn:Hy; [tauto |] |];
    rewrite compare_nan in H by tauto; discriminate H.
Qed.

Lemma ltb_nn (x y : float) : PrimFloat.ltb x y = true -> nn x = true /\ nn y = true.
Proof.
  rewrite FloatAxioms.ltb_spec. unfold SFltb. intros H.
  destruct (nn x) eqn:Hx; [destruct (nn y) eqn:Hy; [tauto |] |];
    rewrite compare_nan in H by tauto; discriminate H.
Qed.

Lemma leb_true (x y : float) :
  PrimFloat.leb x y = true <-> nn x = true /\ nn y = true /\ zv x <= zv y.
Proof.
  split.
  - intros H. destruct (leb_nn x y H) as [Hx Hy]. rewrite (leb_zv x y Hx Hy) in H.
    apply Z.leb_le in H. tauto.
  - intros (Hx & Hy & H). rewrite (leb_zv x y Hx Hy). now apply Z.leb_le.
Qed.

Lemma is_nan_nn (x : float) : Binary64.is_nan x = negb (nn x).
Proof.
  unfold Binary64.is_nan. destruct (nn x) eqn:Hx.
  - rewrite (eqb_zv x x Hx Hx), Z.eqb_refl. reflexivity.
  - rewrite FloatAxioms.eqb_spec. unfold SFeqb. rewrite compare_nan by tauto. reflexivity.
Qed.

Lemma zv_round (x : float) : round (zv x) = zv x.
Proof. apply round_Zof, Prim2SF_valid. Qed.

Lemma zv_bounds (x : float) : - (3 * big) <= zv x <= 3 * big.
Proof. apply Zof_abs_bound, Prim2SF_valid. Qed.

Lemma fin_bounds (x : float) : fin x = true -> - big < zv x < big.
Proof.
  unfold fin, zv. pose proof (Prim2SF_valid x) as Hv. pose proof big_pos.
  destruct (Prim2SF x) as [s | s | | s m e]; try discriminate; intros _; cbn [Zof].
  - lia.
  - pose proof (Zof_finite_bounds s m e Hv). destruct s; cbn [cond_Zopp]; lia.
Qed.

Lemma fin_of_bounds (x : float) : nn x = true -> - big < zv x < big -> fin x = true.
Proof.
  unfold fin, nn, zv. pose proof big_pos.
  destruct (Prim2SF x) as [s | s | | s m e]; try reflexivity; try discriminate.
  intros _. cbn [Zof]. destruct s; lia.
Qed.

(** ** The operations *)

Lemma add_zv (x y : float) :
  nn (x + y)%float = true -> zv (x + y)%float = round (zv x + zv y).
Proof.
  intros H. apply nn_true in H. unfold zv. rewrite add_spec in *.
  apply SFadd_spec; try apply Prim2SF_valid. exact H.
Qed.

Lemma add_nn (x y : float) :
  nn x = true -> nn y = true ->
  (fin x = true \/ fin y = true \/ zv x + zv y <> 0) ->
  nn (x + y)%float = true.
Proof.
  intros Hx Hy H. apply nn_true. rewrite add_spec.
  apply SFadd_not_nan; try apply Prim2SF_valid; try now apply nn_true. exact H.
Qed.

Lemma sub_zv (x y : float) :
  nn (x - y)%float = true -> zv (x - y)%float = round (zv x - zv y).
Proof.
  intros H. apply nn_true in H. unfold zv. rewrite sub_spec in *.
  apply SFsub_spec; try apply Prim2SF_valid. exact H.
Qed.

Lemma sub_nn (x y : float) :
  nn x = true -> nn y = true ->
  (fin x = true \/ fin y = true \/ zv x - zv y <> 0) ->
  nn (x - y)%float = true.
Proof.
  intros Hx Hy H. apply nn_true. rewrite sub_spec.
  apply SFsub_not_nan; try apply Prim2SF_valid; try now apply nn_true. exact H.
Qed.

Lemma mul_zv (x y : float) :
  fin x = true -> fin y = true ->
  nn (x * y)%float = true /\ zv (x * y)%float = round (zv x * zv y / 2 ^ scale).
Proof.
  intros Hx Hy. unfold zv.
  destruct (SFmul_spec (Prim2SF x) (Prim2SF y) (Prim2SF_valid x) (Prim2SF_valid y) Hx Hy)
    as [Hn Hv].
  rewrite <- mul_spec in Hn, Hv. split; [now apply nn_true | exact Hv].
Qed.

(** ** [Math.max] and [Math.min] *)

Lemma max_zv (x y : float) :
  nn x = true -> nn y = true ->
  nn (Binary64.max x y) = true /\ zv (Binary64.max x y) = Z.max (zv x) (zv y).
Proof.
  intros Hx Hy. unfold Binary64.max.
  rewrite !is_nan_nn, Hx, Hy. cbn [negb].
  rewrite (ltb_zv x y Hx Hy), (ltb_zv y x Hy Hx).
  destruct (Z.ltb_spec (zv x) (zv y)); [split; [assumption | lia] |].
  destruct (Z.ltb_spec (zv y) (zv x)); [split; [assumption | lia] |].
  destruct (get_sign x); (split; [assumption | lia]).
Qed.

Lemma min_zv (x y : float) :
  nn x = true -> nn y = true ->
  nn (Binary64.min x y) = true /\ zv (Binary64.min x y) = Z.min (zv x) (zv y).
Proof.
  intros Hx Hy. unfold Binary64.min.
  rewrite !is_nan_nn, Hx, Hy. cbn [negb].
  rewrite (ltb_zv x y Hx Hy), (ltb_zv y x Hy Hx).
  destruct (Z.ltb_spec (zv x) (zv y)); [split; [assumption | lia] |].
  destruct (Z.ltb_spec (zv y) (zv x)); [split; [assumption | lia] |].
  destruct (get_sign x); (split; [assumption | lia]).
Qed.

Lemma zv_zero : zv 0%float = 0.
Proof. reflexivity. Qed.

Lemma zv_one : zv 1%float = 2 ^ scale.
Proof.
  change (zv 1%float) with (2 ^ 52 * 2 ^ (-52 + scale)).
  rewrite <- pow2_add by (rewrite ?scale_val; lia).
  replace (52 + (-52 + scale)) with scale by lia. reflexivity.
Qed.

(** [Math.max(0, v)] is [+0] as soon as [v] is not above 0. *)
Lemma max_zero_of_nonpos (v : float) :
  nn v = true -> zv v <= 0 -> Binary64.max 0%float v = 0%float.
Proof.
  intros Hv Hle. unfold Binary64.max.
  rewrite !is_nan_nn, Hv. change (nn 0%float) with true. cbn [negb].
  rewrite (ltb_zv 0 v eq_refl Hv), (ltb_zv v 0 Hv eq_refl), zv_zero.
  destruct (Z.ltb_spec 0 (zv v)); [lia |].
  destruct (Z.ltb_spec (zv v) 0); reflexivity.
Qed.

Lemma max_zero_of_pos (v : float) :
  nn v = true -> 0 < zv v -> Binary64.max 0%float v = v.
Proof.
  intros Hv Hlt. unfold Binary64.max.
  rewrite !is_nan_nn, Hv. change (nn 0%float) with true. cbn [negb].
  rewrite (ltb_zv 0 v eq_refl Hv), zv_zero.
  destruct (Z.ltb_spec 0 (zv v)); [reflexivity | lia].
Qed.

End FloatFacts.

(** * The engine on binary64 *)

(** The operations of [JsNumber] at binary64. *)
Ltac float_ops :=
  cbn [num_sub num_add num_mul num_le Math_max Math_min lit Infinity float_number] in *;
  change (Binary64.literal 0) with 0%float in *.

Section FloatEngine.

Import Rounding RoundingFacts RoundAux SpecFacts FloatFacts.
Local Open Scope Z_scope.

Lemma lit_zero : @lit float float_number 0%Q = 0%float.
Proof. reflexivity. Qed.

Lemma nn_lit_zero : nn (@lit float float_number 0%Q) = true.
Proof. reflexivity. Qed.

Lemma zv_lit_zero : zv (@lit float float_number 0%Q) = 0.
Proof. reflexivity. Qed.

Lemma bracket_loop_cons (p : Palier float) (rest : list (Palier float))
    (d r der : float) :
  bracket_loop (p :: rest) d r der
  = if PrimFloat.leb r 0 then d
    else bracket_loop rest
           (d + Binary64.min r (tranche p - der) * taux p)%float
           (r - Binary64.min r (tranche p - der))%float
           (tranche p).
Proof. reflexivity. Qed.

(** With nothing left to tax the loop returns the duty so far. *)
Lemma loop_break (l : list (Palier float)) (d r der : float) :
  nn r = true -> zv r <= 0 -> bracket_loop l d r der = d.
Proof.
  intros Hr Hle. destruct l as [| p rest]; [reflexivity |].
  rewrite bracket_loop_cons, (leb_zv r 0 Hr eq_refl), zv_zero.
  destruct (Z.leb_spec (zv r) 0); [reflexivity | lia].
Qed.

(** One turn of the loop, on values. *)
Lemma loop_step (p : Palier float) (d r der : float) :
  PrimFloat.ltb 0 (tranche p - der) = true ->
  fin (taux p) = true -> PrimFloat.ltb 0 (taux p) = true ->
  nn d = true -> 0 <= zv d -> fin r = true -> 0 < zv r ->
  let m := Binary64.min r (tranche p - der) in
  let d1 := (d + m * taux p)%float in
  let r1 := (r - m)%float in
  zv m = Z.min (zv r) (zv (tranche p - der)%float) /\
  nn d1 = true /\ zv d1 = round (zv d + round (zv m * zv (taux p) / 2 ^ scale)) /\
  zv d <= zv d1 /\
  fin r1 = true /\ zv r1 = round (zv r - zv m) /\ 0 <= zv r1 <= zv r.
Proof.
  intros Hw Hft Ht Hd Hd0 Hr Hr0. cbv zeta.
  destruct (ltb_nn _ _ Hw) as [_ Hwn].
  rewrite (ltb_zv 0%float _ eq_refl Hwn), zv_zero in Hw. apply Z.ltb_lt in Hw.
  destruct (ltb_nn _ _ Ht) as [_ Htn].
  rewrite (ltb_zv 0%float _ eq_refl Htn), zv_zero in Ht. apply Z.ltb_lt in Ht.
  pose proof (fin_nn r Hr) as Hrn. pose proof (fin_bounds r Hr) as Hrb.
  destruct (min_zv r (tranche p - der)%float Hrn Hwn) as [Hmn Hmv].
  set (m := Binary64.min r (tranche p - der)) in *.
  assert (Hmf : fin m = true) by (apply fin_of_bounds; [exact Hmn | lia]).
  destruct (mul_zv m (taux p) Hmf Hft) as [Hpn Hpv].
  assert (HS : 0 < 2 ^ scale) by (apply pow2_pos; rewrite scale_val; lia).
  assert (Hp0 : 0 <= zv (m * taux p)%float).
  { rewrite Hpv. apply round_nonneg. apply Z.div_pos; [nia | lia]. }
  assert (Hd1n : nn (d + m * taux p)%float = true).
  { apply add_nn; [exact Hd | exact Hpn |].
    destruct (Z.eq_dec (zv d + zv (m * taux p)%float) 0) as [E | NE]; [| tauto].
    left. apply fin_of_bounds; [exact Hd |]. pose proof big_pos. lia. }
  assert (Hr1n : nn (r - m)%float = true) by (apply sub_nn; tauto).
  pose proof (sub_zv r m Hr1n) as Hr1v.
  assert (Hr1b : 0 <= zv (r - m)%float <= zv r).
  { rewrite Hr1v. split.
    - apply round_nonneg. lia.
    - rewrite <- (zv_round r) at 2. apply round_mono. lia. }
  split; [exact Hmv |]. split; [exact Hd1n |].
  split; [rewrite (add_zv _ _ Hd1n), Hpv; reflexivity |].
  split; [rewrite (add_zv _ _ Hd1n), <- (zv_round d) at 1; apply round_mono; lia |].
  split; [apply fin_of_bounds; [exact Hr1n | lia] |].
  split; [exact Hr1v | exact Hr1b].
Qed.

(** The loop keeps the order of the duty so far and of the amount left, and
    never lowers the duty. *)
Lemma loop_float (l : list (Palier float)) :
  forall der d d' r r' : float,
    schedule_float_ok der l = true ->
    nn d = true -> nn d' = true -> 0 <= zv d -> zv d <= zv d' ->
    fin r = true -> fin r' = true -> zv r <= zv r' ->
    nn (bracket_loop l d r der) = true /\
    nn (bracket_loop l d' r' der) = true /\
    zv d <= zv (bracket_loop l d r der) /\
    zv (bracket_loop l d r der) <= zv (bracket_loop l d' r' der).
Proof.
  induction l as [| p rest IH]; intros der d d' r r' Hok Hd Hd' Hd0 Hdd Hr Hr' Hrr.
  - cbn [bracket_loop]. repeat split; try assumption; lia.
  - cbn [schedule_float_ok] in Hok.
    apply andb_true_iff in Hok as [Hok Hrest]. apply andb_true_iff in Hok as [Hok Ht1].
    apply andb_true_iff in Hok as [Hok Ht]. apply andb_true_iff in Hok as [Hw Hft].
    pose proof (fin_nn r Hr) as Hrn. pose proof (fin_nn r' Hr') as Hrn'.
    rewrite !bracket_loop_cons, (leb_zv r 0 Hrn eq_refl), (leb_zv r' 0 Hrn' eq_refl), zv_zero.
    destruct (Z.leb_spec (zv r') 0) as [Hle' | Hgt'].
    + destruct (Z.leb_spec (zv r) 0); [| lia]. repeat split; try assumption; lia.
    + destruct (loop_step p d' r' der Hw Hft Ht Hd' ltac:(lia) Hr' Hgt')
        as (Hm' & Hd1n' & Hd1v' & Hd1' & Hr1f' & Hr1v' & Hr1b').
      destruct (Z.leb_spec (zv r) 0) as [Hle | Hgt].
      * destruct (IH _ _ _ _ _ Hrest Hd1n' Hd1n' ltac:(lia) ltac:(lia) Hr1f' Hr1f' ltac:(lia))
          as (Hn & _ & Hge & _).
        repeat split; try assumption; lia.
      * destruct (loop_step p d r der Hw Hft Ht Hd Hd0 Hr Hgt)
          as (Hm & Hd1n & Hd1v & Hd1 & Hr1f & Hr1v & Hr1b).
        destruct (ltb_nn _ _ Ht) as [_ Htn].
        rewrite (ltb_zv 0%float _ eq_refl Htn), zv_zero in Ht. apply Z.ltb_lt in Ht.
        assert (HS : 0 < 2 ^ scale) by (apply pow2_pos; rewrite scale_val; lia).
        assert (Hmm : zv (Binary64.min r (tranche p - der)) <=
                      zv (Binary64.min r' (tranche p - der))) by lia.
        assert (Hdd1 : zv (d + Binary64.min r (tranche p - der) * taux p)%float
                       <= zv (d' + Binary64.min r' (tranche p - der) * taux p)%float).
        { rewrite Hd1v, Hd1v'. apply round_mono.
          assert (round (zv (Binary64.min r (tranche p - der)) * zv (taux p) / 2 ^ scale)
                  <= round (zv (Binary64.min r' (tranche p - der)) * zv (taux p) / 2 ^ scale)).
          { apply round_mono. apply Z.div_le_mono; [lia |].
            apply Z.mul_le_mono_nonneg_r; lia. }
          lia. }
        assert (Hrr1 : zv (r - Binary64.min r (tranche p - der))%float
                       <= zv (r' - Binary64.min r' (tranche p - der))%float).
        { rewrite Hr1v, Hr1v'. apply round_mono. lia. }
        destruct (IH _ _ _ _ _ Hrest Hd1n Hd1n' ltac:(lia) Hdd1 Hr1f Hr1f' Hrr1)
          as (Hn & Hn' & Hge & Hmono).
        repeat split; try assumption; lia.
Qed.

End FloatEngine.

Section FloatProfiles.

Import Rounding RoundingFacts RoundAux SpecFacts FloatFacts.
Local Open Scope Z_scope.

(** The five profiles of the registry, on binary64. *)
Lemma registry_float (k : string) :
  In k categories ->
  exists info : AbattementInfo float,
    FISCAL_DATA !! k = Some info /\ profile_float_ok info = true.
Proof.
  intros Hk. cbn in Hk.
  destruct Hk as [<- | [<- | [<- | [<- | [<- | []]]]]];
    (eexists; split; [reflexivity | vm_compute; reflexivity]).
Qed.

Lemma zv_MAX_VALUE : zv MAX_VALUE = 9007199254740991 * 2 ^ (971 + scale).
Proof. reflexivity. Qed.

Lemma fin_le_max (x : float) : fin x = true -> zv x <= zv MAX_VALUE.
Proof.
  intros Hf. rewrite zv_MAX_VALUE. unfold fin, zv in *.
  pose proof (Prim2SF_valid x) as Hv.
  assert (HP : 0 < 2 ^ (971 + scale)) by (apply pow2_pos; rewrite scale_val; lia).
  destruct (Prim2SF x) as [s | s | | s m e]; try discriminate Hf; cbn [Zof]; [lia |].
  destruct (valid_finite s m e Hv) as (He & _ & Hm & _).
  pose proof (pow2_pos (e + scale) ltac:(rewrite scale_val; lia)).
  pose proof (pow2_le (e + scale) (971 + scale) ltac:(rewrite scale_val; lia) ltac:(lia)).
  change (2 ^ 53) with 9007199254740992 in Hm.
  destruct s; cbn [cond_Zopp]; nia.
Qed.

Lemma isFinite_fin (x : float) : Number_isFinite x = true <-> fin x = true.
Proof.
  unfold Number_isFinite. rewrite andb_true_iff. split.
  - intros [Hlo Hhi]. destruct (ltb_nn _ _ Hhi) as [Hx _].
    rewrite (ltb_zv neg_infinity x eq_refl Hx) in Hlo.
    rewrite (ltb_zv x infinity Hx eq_refl) in Hhi.
    apply Z.ltb_lt in Hlo, Hhi.
    change (zv neg_infinity) with (- (3 * big)) in Hlo.
    change (zv infinity) with (3 * big) in Hhi.
    unfold fin, zv, nn in *.
    destruct (Prim2SF x) as [s | s | | s m e]; try reflexivity; try discriminate Hx.
    cbn [Zof] in *. destruct s; lia.
  - intros Hf. pose proof (fin_nn x Hf) as Hx. pose proof (fin_bounds x Hf) as Hb.
    pose proof big_pos.
    rewrite (ltb_zv neg_infinity x eq_refl Hx), (ltb_zv x infinity Hx eq_refl).
    change (zv neg_infinity) with (- (3 * big)).
    change (zv infinity) with (3 * big).
    split; apply Z.ltb_lt; lia.
Qed.

(** [x - 0] is [x], whatever [x]. *)
Lemma sub_zero (x : float) : (x - 0)%float = x.
Proof.
  apply Prim2SF_inj. rewrite sub_spec. change (Prim2SF 0) with (S754_zero false).
  destruct (Prim2SF x) as [s | s | | s m e]; try reflexivity. now destruct s.
Qed.

(** ** Allowance and base *)

Lemma max_zero_zv (v : float) :
  nn v = true ->
  nn (Math_max (lit 0) v) = true /\ zv (Math_max (lit 0) v) = Z.max 0 (zv v).
Proof. intros Hv. apply (max_zv 0%float v eq_refl Hv). Qed.

Lemma allowance_float (a da : float) :
  fin a = true -> nn da = true ->
  nn (Math_max (lit 0) (a - da)%js) = true /\
  zv (Math_max (lit 0) (a - da)%js) = Z.max 0 (round (zv a - zv da)).
Proof.
  intros Ha Hda.
  assert (Hn : nn (a - da)%float = true) by (apply sub_nn; auto using fin_nn).
  destruct (max_zero_zv _ Hn) as [H1 H2]. float_ops. split; [exact H1 |].
  rewrite H2, (sub_zv _ _ Hn). reflexivity.
Qed.

Lemma base_float (mt al : float) :
  fin mt = true -> nn al = true -> 0 <= zv al ->
  fin (Math_max (lit 0) (mt - al)%js) = true /\
  zv (Math_max (lit 0) (mt - al)%js) = Z.max 0 (round (zv mt - zv al)) /\
  zv (Math_max (lit 0) (mt - al)%js) <= Z.max 0 (zv mt).
Proof.
  intros Hmt Hal Hal0.
  assert (Hn : nn (mt - al)%float = true) by (apply sub_nn; auto using fin_nn).
  destruct (max_zero_zv _ Hn) as [H1 H2]. float_ops.
  pose proof (fin_bounds mt Hmt) as Hb.
  assert (Hle : round (zv mt - zv al) <= zv mt)
    by (rewrite <- (zv_round mt) at 2; apply round_mono; lia).
  split; [| split].
  - apply fin_of_bounds; [exact H1 |]. rewrite H2, (sub_zv _ _ Hn).
    pose proof big_pos. lia.
  - rewrite H2, (sub_zv _ _ Hn). reflexivity.
  - rewrite H2, (sub_zv _ _ Hn). lia.
Qed.

(** ** The duty against the base *)

Lemma schedule_cons_ok (der : float) (p : Palier float) (rest : list (Palier float)) :
  schedule_float_ok der (p :: rest) = true ->
  PrimFloat.ltb 0 (tranche p - der) = true /\ fin (taux p) = true /\
  PrimFloat.ltb 0 (taux p) = true /\ PrimFloat.leb (taux p) 1 = true /\
  schedule_float_ok (tranche p) rest = true.
Proof.
  cbn [schedule_float_ok]. rewrite !andb_true_iff. tauto.
Qed.

Lemma duty_nonneg (l : list (Palier float)) (base : float) :
  schedule_float_ok 0 l = true -> fin base = true ->
  nn (duty_of l base) = true /\ 0 <= zv (duty_of l base).
Proof.
  intros Hok Hb. unfold duty_of. rewrite lit_zero.
  destruct (loop_float l 0 0 0 base base Hok eq_refl eq_refl ltac:(rewrite zv_zero; lia)
              ltac:(lia) Hb Hb ltac:(lia)) as (Hn & _ & Hge & _).
  rewrite zv_zero in Hge. tauto.
Qed.

Lemma duty_mono (l : list (Palier float)) (base base' : float) :
  schedule_float_ok 0 l = true -> fin base = true -> fin base' = true ->
  zv base <= zv base' ->
  zv (duty_of l base) <= zv (duty_of l base').
Proof.
  intros Hok Hb Hb' Hle. unfold duty_of. rewrite lit_zero.
  apply (loop_float l 0 0 0 base base' Hok eq_refl eq_refl ltac:(rewrite zv_zero; lia)
           ltac:(lia) Hb Hb' Hle).
Qed.

(** A base within the first bracket: one product, at a rate of at most 1. *)
Lemma duty_first_bracket (p : Palier float) (rest : list (Palier float)) (base : float) :
  schedule_float_ok 0 (p :: rest) = true -> fin base = true ->
  zv base <= zv (tranche p - 0)%float ->
  zv (duty_of (p :: rest) base) <= Z.max 0 (zv base).
Proof.
  intros Hok Hb Hle. unfold duty_of. rewrite lit_zero.
  destruct (schedule_cons_ok _ _ _ Hok) as (Hw & Hft & Ht & Ht1 & _).
  pose proof (fin_nn base Hb) as Hbn.
  rewrite bracket_loop_cons, (leb_zv base 0 Hbn eq_refl), zv_zero.
  destruct (Z.leb_spec (zv base) 0) as [H0 | H0]; [rewrite zv_zero; lia |].
  destruct (loop_step p 0 base 0 Hw Hft Ht eq_refl ltac:(rewrite zv_zero; lia) Hb H0)
    as (Hm & Hd1n & Hd1v & _ & Hr1f & Hr1v & _).
  rewrite (loop_break rest _ _ _ (fin_nn _ Hr1f)).
  - rewrite Hd1v, zv_zero, Z.add_0_l.
    set (m := Binary64.min base (tranche p - 0)) in *.
    assert (Hmf : fin m = true).
    { apply fin_of_bounds; [| pose proof (fin_bounds base Hb); lia].
      destruct (ltb_nn _ _ Hw) as [_ Hwn]. apply (min_zv base _ Hbn Hwn). }
    destruct (mul_zv m (taux p) Hmf Hft) as [_ Hpv].
    rewrite <- Hpv, zv_round, Hpv.
    assert (HS : 0 < 2 ^ scale) by (apply pow2_pos; rewrite scale_val; lia).
    apply leb_true in Ht1 as (_ & _ & Ht1). rewrite zv_one in Ht1.
    destruct (ltb_nn _ _ Ht) as [_ Htn].
    rewrite (ltb_zv 0%float _ eq_refl Htn), zv_zero in Ht. apply Z.ltb_lt in Ht.
    replace (zv m) with (zv base) by lia.
    rewrite <- (zv_round base) at 2.
    assert (round (zv base * zv (taux p) / 2 ^ scale) <= round (zv base)).
    { apply round_mono. apply Z.div_le_upper_bound; [lia |]. nia. }
    lia.
  - rewrite Hr1v. replace (zv base - zv (Binary64.min base (tranche p - 0))) with 0 by lia.
    rewrite round_0. lia.
Qed.

(** From a checkpoint on, the duty stays below the base. *)
Lemma duty_checkpoints (l : list (Palier float)) (base : float) (cs : list float) :
  schedule_float_ok 0 l = true -> fin base = true ->
  forall c : float,
    checkpoints_ok l c cs = true ->
    fin c = true -> zv (duty_of l c) <= zv c ->
    zv c <= zv base -> zv base <= zv (last_of c cs) ->
    zv (duty_of l base) <= zv base.
Proof.
  intros Hok Hb. induction cs as [| c' rest IH]; intros c Hcs Hc Hdc Hlo Hhi.
  - cbn [last_of] in Hhi.
    pose proof (duty_mono l base c Hok Hb Hc ltac:(lia)). lia.
  - cbn [checkpoints_ok last_of] in *.
    apply andb_true_iff in Hcs as [Hcs Hrest]. apply andb_true_iff in Hcs as [Hcs Hd'].
    apply andb_true_iff in Hcs as [Hc' Hcc].
    apply leb_true in Hd' as (_ & _ & Hd'). apply leb_true in Hcc as (_ & _ & Hcc).
    destruct (Z_le_gt_dec (zv base) (zv c')) as [Hin | Hout].
    + pose proof (duty_mono l base c' Hok Hb Hc' Hin). lia.
    + apply (IH c' Hrest Hc'); lia.
Qed.

(** On the profiles of the registry the duty never exceeds the base. *)
Lemma duty_le_base (info : AbattementInfo float) (base : float) :
  profile_float_ok info = true -> fin base = true -> 0 <= zv base ->
  zv (duty_of (barème info) base) <= zv base.
Proof.
  unfold profile_float_ok. rewrite !andb_true_iff.
  intros [[[[_ _] Hok] Hchk] _] Hb Hb0.
  destruct (barème info) as [| p rest] eqn:El.
  - unfold duty_of. cbn [bracket_loop]. rewrite lit_zero, zv_zero. exact Hb0.
  - destruct (schedule_cons_ok _ _ _ Hok) as (Hw & _).
    destruct (Z_le_gt_dec (zv base) (zv (tranche p - 0)%float)) as [Hle | Hgt].
    + pose proof (duty_first_bracket p rest base Hok Hb Hle). lia.
    + cbv zeta in Hchk.
      destruct (ltb_nn _ _ Hw) as [_ Hwn].
      assert (Hwf : fin (tranche p - 0)%float = true).
      { apply fin_of_bounds; [exact Hwn |].
        rewrite (ltb_zv 0%float _ eq_refl Hwn), zv_zero in Hw. apply Z.ltb_lt in Hw.
        pose proof (fin_bounds base Hb). lia. }
      rewrite Hwf in Hchk. rewrite !andb_true_iff in Hchk.
      destruct Hchk as [[Hdw Hcs] Hlast].
      apply leb_true in Hdw as (_ & _ & Hdw).
      assert (Hlastv : zv (last_of (tranche p - 0)%float (checkpoints (tranche p - 0)))
                       = zv MAX_VALUE).
      { assert (Hnl : nn (last_of (tranche p - 0)%float (checkpoints (tranche p - 0))) = true).
        { rewrite FloatAxioms.eqb_spec in Hlast. unfold SFeqb in Hlast.
          destruct (nn (last_of _ _)) eqn:E; [reflexivity |].
          rewrite compare_nan in Hlast by tauto. discriminate Hlast. }
        rewrite (eqb_zv _ MAX_VALUE Hnl eq_refl) in Hlast. now apply Z.eqb_eq in Hlast. }
      apply (duty_checkpoints (p :: rest) base _ Hok Hb _ Hcs Hwf Hdw); [lia |].
      rewrite Hlastv. now apply fin_le_max.
Qed.

(** What a profile of the registry gives, in values. *)
Lemma profile_float_facts (info : AbattementInfo float) :
  profile_float_ok info = true ->
  fin (abattement info) = true /\ 0 < zv (abattement info) /\
  schedule_float_ok 0 (barème info) = true /\
  nn (droitsAPayer (results_of info Infinity (lit 0))) = true /\
  zv (droitsAPayer (results_of info Infinity (lit 0))) = 3 * big.
Proof.
  unfold profile_float_ok. rewrite !andb_true_iff.
  intros [[[[Hf Hpos] Hok] _] Hinf].
  destruct (ltb_nn _ _ Hpos) as [_ Han].
  rewrite (ltb_zv 0%float _ eq_refl Han), zv_zero in Hpos. apply Z.ltb_lt in Hpos.
  assert (Hn : nn (droitsAPayer (results_of info Infinity (lit 0))) = true).
  { rewrite FloatAxioms.eqb_spec in Hinf. unfold SFeqb in Hinf.
    destruct (nn (droitsAPayer _)) eqn:E; [reflexivity |].
    rewrite compare_nan in Hinf by tauto. discriminate Hinf. }
  rewrite (eqb_zv _ infinity Hn eq_refl) in Hinf. apply Z.eqb_eq in Hinf.
  repeat split; assumption.
Qed.

(** A number that is not finite and not negative is [Infinity]. *)
Lemma infinite_nonneg (x : float) :
  nn x = true -> fin x = false -> 0 <= zv x -> x = infinity.
Proof.
  intros Hn Hf H0. rewrite <- (SF2Prim_Prim2SF x). unfold nn, fin, zv in *.
  pose proof big_pos.
  destruct (Prim2SF x) as [s | s | | s m e]; try discriminate.
  cbn [Zof] in H0. destruct s; [lia | reflexivity].
Qed.

(** The results of a non-exempt run on a category of the registry. *)
Lemma float_run (ty : TypeTransmission) (k : string) (mt da : float) :
  isConjointSuccession ty k = false -> In k categories ->
  exists info : AbattementInfo float,
    FISCAL_DATA !! k = Some info /\ profile_float_ok info = true /\
    sets_results ty k mt da (results_of info mt da).
Proof.
  intros Hex Hk. destruct (registry_float k Hk) as (info & Hlook & Hok).
  exists info. split; [exact Hlook |]. split; [exact Hok |].
  now apply sets_results_profile.
Qed.

(** The four results of a run from a profile, in values, for a finite
    amount and prior gifts that are a number. *)
Lemma results_float (info : AbattementInfo float) (mt da : float) :
  profile_float_ok info = true -> fin mt = true -> nn da = true ->
  let r := results_of info mt da in
  nn (abattementApplique r) = true /\
  zv (abattementApplique r) = Z.max 0 (round (zv (abattement info) - zv da)) /\
  fin (baseTaxable r) = true /\
  zv (baseTaxable r) = Z.max 0 (round (zv mt - zv (abattementApplique r))) /\
  droitsAPayer r = duty_of (barème info) (baseTaxable r) /\
  nn (droitsAPayer r) = true /\ 0 <= zv (droitsAPayer r) <= zv (baseTaxable r) /\
  nn (montantNet r) = true /\
  zv (montantNet r) = round (zv mt - zv (droitsAPayer r)).
Proof.
  intros Hok Hmt Hda r.
  destruct (profile_float_facts info Hok) as (Haf & Ha0 & Hs & _).
  destruct (allowance_float (abattement info) da Haf Hda) as [Hal Halv].
  assert (Hal0 : 0 <= zv (Math_max (lit 0) (abattement info - da)%js)) by lia.
  destruct (base_float mt _ Hmt Hal Hal0) as (Hbf & Hbv & _).
  assert (Hb0 : 0 <= zv (Math_max (lit 0) (mt - Math_max (lit 0) (abattement info - da))%js))
    by lia.
  destruct (duty_nonneg (barème info) _ Hs Hbf) as [Hdn Hd0].
  pose proof (duty_le_base info _ Hok Hbf Hb0) as Hdb.
  assert (Hnn : nn (mt - duty_of (barème info)
                         (Math_max (lit 0) (mt - Math_max (lit 0) (abattement info - da))%js))%float
                = true) by (apply sub_nn; auto using fin_nn).
  unfold r, results_of. cbn [abattementApplique baseTaxable droitsAPayer montantNet].
  split; [exact Hal |]. split; [exact Halv |]. split; [exact Hbf |].
  split; [exact Hbv |]. split; [reflexivity |]. split; [exact Hdn |].
  split; [split; [exact Hd0 | exact Hdb] |].
  split; [exact Hnn | exact (sub_zv _ _ Hnn)].
Qed.

Lemma leb_zero_intro (x : float) :
  nn x = true -> 0 <= zv x -> (lit 0 <= x)%js = true.
Proof.
  intros Hn H0. apply leb_true. split; [exact nn_lit_zero |]. split; [exact Hn |].
  rewrite zv_lit_zero. exact H0.
Qed.

Lemma leb_zero_elim (x : float) :
  (lit 0 <= x)%js = true -> nn x = true /\ 0 <= zv x.
Proof.
  intros H. apply leb_true in H as (_ & Hn & H0). rewrite zv_lit_zero in H0. tauto.
Qed.

End FloatProfiles.

(** ** The other scenarios of the specification *)

(** A gift of 300000 to the spouse is not exempt: allowance 80724, base
    219276. *)
Example scenario_gift_to_spouse :
  exists r : Results float,
    sets_results donation "conjoint" (lit 300000) (lit 0) r /\
    abattementApplique r = 80724%float /\
    baseTaxable r = 219276%float.
Proof.
  eexists. split; [apply sets_results_profile; reflexivity |].
  split; vm_compute; reflexivity.
Qed.

(** A gift of 50000 to a brother or sister: 24430 at 35% and 9638 at 45%,
    12887.60 in all. *)
Example scenario_gift_to_sibling :
  exists r : Results float,
    sets_results donation "frere-soeur" (lit 50000) (lit 0) r /\
    abattementApplique r = 15932%float /\
    baseTaxable r = 34068%float /\
    approx_float 0.000000001 (droitsAPayer r) 12887.6.
Proof.
  eexists. split; [apply sets_results_profile; reflexivity |].
  do 2 (split; [vm_compute; reflexivity |]). vm_compute; reflexivity.
Qed.

(** An inheritance of 10000 to a third party after prior gifts of 9000. *)
Example scenario_inheritance_to_other :
  exists r : Results float,
    sets_results succession "autre" (lit 10000) (lit 9000) r /\
    abattementApplique r = 0%float /\
    baseTaxable r = 10000%float /\
    droitsAPayer r = 6000%float.
Proof.
  eexists. split; [apply sets_results_profile; reflexivity |].
  do 2 (split; [vm_compute; reflexivity |]). vm_compute; reflexivity.
Qed.

(** * The claims *)

(** ** C1: the worked example, a gift of 300000 to a child *)

(** C1 (as stated, refuted). For a gift of 300000 to a child with no prior
    gifts the engine does not return a duty near 35974.50 nor a net amount
    near 264025.50: the values it sets are further than 2000 away from
    them, on exact numbers and on binary64 alike. *)
Lemma C1_spec_amounts_refuted :
  (exists r : Results xnum,
      sets_results donation "enfant" (Fin 300000) (Fin 0) r /\
      (approx 2000 (droitsAPayer r) (Fin 35974.50) -> False) /\
      (approx 2000 (montantNet r) (Fin 264025.50) -> False)) /\
  (exists r : Results float,
      sets_results donation "enfant" (lit 300000) (lit 0) r /\
      (approx_float 2000 (droitsAPayer r) 35974.50 -> False) /\
      (approx_float 2000 (montantNet r) 264025.50 -> False)).
Proof.
  split.
  - eexists. split; [apply sets_results_profile; reflexivity |].
    split; vm_compute; intros Hc; apply Hc; reflexivity.
  - eexists. split; [apply sets_results_profile; reflexivity |].
    split; vm_compute; discriminate.
Qed.

(** C1 (amended). For a gift of 300000 to a child with no prior gifts the
    engine sets an applied allowance of 100000, a taxable base of 200000,
    a duty of 38194.35 (8072 at 5%, 4037 at 10%, 3823 at 15% and 184068 at
    20%) and a net amount of 261805.65: exactly so on exact numbers, and
    within a billionth on binary64. *)
Theorem C1_gift_to_child_300000 :
  (exists r : Results xnum,
      sets_results donation "enfant" (Fin 300000) (Fin 0) r /\
      xeq (abattementApplique r) (Fin 100000) /\
      xeq (baseTaxable r) (Fin 200000) /\
      xeq (droitsAPayer r)
          (Fin (8072 * 0.05 + 4037 * 0.10 + 3823 * 0.15 + 184068 * 0.20)) /\
      xeq (droitsAPayer r) (Fin 38194.35) /\
      xeq (montantNet r) (Fin 261805.65)) /\
  (exists r : Results float,
      sets_results donation "enfant" (lit 300000) (lit 0) r /\
      abattementApplique r = 100000%float /\
      baseTaxable r = 200000%float /\
      approx_float 0.000000001 (droitsAPayer r) 38194.35 /\
      approx_float 0.000000001 (montantNet r) 261805.65).
Proof.
  split.
  - eexists. split; [apply sets_results_profile; reflexivity |].
    do 4 (split; [vm_compute; reflexivity |]). vm_compute; reflexivity.
  - eexists. split; [apply sets_results_profile; reflexivity |].
    do 3 (split; [vm_compute; reflexivity |]). vm_compute; reflexivity.
Qed.

(** ** C2: exemption of the spouse on inheritance *)

(** C2. For an inheritance to the spouse the engine returns at once, with a
    duty of 0, a net amount and an applied allowance equal to the amount
    transmitted and a taxable base of 0: for every amount, every amount of
    prior gifts and every state before, and whatever the registry holds. *)
Theorem C2_spouse_inheritance_exempt :
  forall (N : Type) (HN : JsNumber N) (data : gmap string (AbattementInfo N))
         (montantTransmis donationsAnterieures : N) (st : AppState N),
    calculation_engine data succession "conjoint"
      montantTransmis donationsAnterieures st
    = Normal {| results := {| droitsAPayer := lit 0;
                              montantNet := montantTransmis;
                              abattementApplique := montantTransmis;
                              baseTaxable := lit 0 |};
                chartData := [ {| name := "Montant Net Reçu";
                                  value := montantTransmis |} ] |}.
Proof. intros. apply run_exempt. Qed.

(** ** C3: the allowance left after prior gifts *)

Section AllowanceLeft.

Import Rounding RoundingFacts RoundAux SpecFacts FloatFacts.
Local Open Scope Z_scope.

(** C3. In every non-exempt computation on binary64 the applied allowance
    is [Math.max(0, abattement - donationsAnterieures)]: for prior gifts
    that are a number, the binary64 number nearest to the larger of 0 and
    the allowance minus the prior gifts. When the prior gifts reach the
    allowance it is 0, the taxable base is [Math.max(0, montantTransmis)],
    and any other amount of prior gifts that reaches the allowance gives
    the same four results. *)
Theorem C3_allowance_after_prior_gifts :
  forall (ty : TypeTransmission) (k : string) (mt da : float),
    isConjointSuccession ty k = false ->
    In k categories ->
    exists (info : AbattementInfo float) (r : Results float),
      FISCAL_DATA !! k = Some info /\
      sets_results ty k mt da r /\
      abattementApplique r = Math_max (lit 0) (abattement info - da)%js /\
      (Binary64.is_nan da = false ->
       zv (abattementApplique r) = round (Z.max 0 (zv (abattement info) - zv da))) /\
      ((abattement info <= da)%js = true ->
       abattementApplique r = lit 0 /\
       baseTaxable r = Math_max (lit 0) mt /\
       forall (da' : float) (r' : Results float),
         (abattement info <= da')%js = true ->
         sets_results ty k mt da' r' -> r' = r).
Proof.
  intros ty k mt da Hex Hk.
  destruct (float_run ty k mt da Hex Hk) as (info & Hlook & Hok & Hrun).
  destruct (profile_float_facts info Hok) as (Haf & Ha0 & _).
  exists info, (results_of info mt da).
  split; [exact Hlook |]. split; [exact Hrun |]. split; [reflexivity |].
  assert (Hzero : forall p, (abattement info <= p)%js = true ->
                            Math_max (lit 0) (abattement info - p)%js = 0%float).
  { intros p Hp. float_ops. apply leb_true in Hp as (_ & Hpn & Hle).
    assert (Hn : nn (abattement info - p)%float = true)
      by (apply sub_nn; [now apply fin_nn | exact Hpn | tauto]).
    apply max_zero_of_nonpos; [exact Hn |].
    rewrite (sub_zv _ _ Hn), <- round_0. apply round_mono. lia. }
  split.
  - intros Hda. rewrite is_nan_nn in Hda. apply negb_false_iff in Hda.
    cbn [results_of abattementApplique].
    rewrite (proj2 (allowance_float _ _ Haf Hda)).
    destruct (Z.max_spec 0 (zv (abattement info) - zv da)) as [[Hc E] | [Hc E]]; rewrite E.
    + apply Z.max_r. apply round_nonneg. lia.
    + rewrite round_0. apply Z.max_l. rewrite <- round_0. apply round_mono. lia.
  - intros Hda. cbn [results_of abattementApplique baseTaxable].
    rewrite (Hzero da Hda). split; [reflexivity |].
    split; [float_ops; now rewrite sub_zero |].
    intros da' r' Hda' Hrun'.
    rewrite (sets_results_unique _ _ _ _ _ _ Hrun'
               (sets_results_profile ty k info mt da' Hex Hlook)).
    unfold results_of. rewrite (Hzero da Hda), (Hzero da' Hda'). reflexivity.
Qed.

Lemma C3_witness :
  exists (info : AbattementInfo float) (r : Results float),
    FISCAL_DATA !! "autre"%string = Some info /\
    sets_results succession "autre" 10000%float 9000%float r /\
    abattementApplique r = Math_max (lit 0) (abattement info - 9000%float)%js /\
    (Binary64.is_nan 9000%float = false ->
     zv (abattementApplique r) = round (Z.max 0 (zv (abattement info) - zv 9000%float))) /\
    ((abattement info <= 9000%float)%js = true ->
     abattementApplique r = lit 0 /\
     baseTaxable r = Math_max (lit 0) 10000%float /\
     forall (da' : float) (r' : Results float),
       (abattement info <= da')%js = true ->
       sets_results succession "autre" 10000%float da' r' -> r' = r).
Proof.
  apply (C3_allowance_after_prior_gifts succession "autre" 10000%float 9000%float).
  - reflexivity.
  - cbn. tauto.
Defined.

End AllowanceLeft.

(** ** C4: conservation *)

Section Conservation.

Import Rounding RoundingFacts RoundAux SpecFacts FloatFacts.
Local Open Scope Z_scope.




End Conservation.

(** ** C5: the duty grows with the amount transmitted *)

Section DutyGrowsWithAmount.

Import Rounding RoundingFacts RoundAux SpecFacts FloatFacts.
Local Open Scope Z_scope.

(** C5. On binary64, for every category and type other than the spouse's
    inheritance, with no prior gifts, a larger amount transmitted never
    gives a smaller duty: for all numbers [0 <= a <= b], [Infinity]
    included. *)
Theorem C5_duty_monotone_in_transfer :
  forall (ty : TypeTransmission) (k : string) (a b : float),
    isConjointSuccession ty k = false ->
    In k categories ->
    (lit 0 <= a)%js = true -> (a <= b)%js = true ->
    exists ra rb : Results float,
      sets_results ty k a (lit 0) ra /\
      sets_results ty k b (lit 0) rb /\
      (droitsAPayer ra <= droitsAPayer rb)%js = true.
Proof.
  intros ty k a b Hex Hk Ha Hab.
  destruct (float_run ty k a (lit 0) Hex Hk) as (info & Hlook & Hok & Hrun).
  exists (results_of info a (lit 0)), (results_of info b (lit 0)).
  split; [exact Hrun |]. split; [now apply sets_results_profile |].
  apply leb_true in Ha as (_ & Han & Ha0). rewrite zv_lit_zero in Ha0.
  apply leb_true in Hab as (_ & Hbn & Hab).
  destruct (profile_float_facts info Hok) as (Haf & Hal0 & Hs & Hin & Hiv).
  assert (Hcase : forall x, fin x = true ->
            nn (droitsAPayer (results_of info x (lit 0))) = true).
  { intros x Hx. now apply (results_float info x (lit 0) Hok Hx nn_lit_zero). }
  assert (Hinf : forall x, nn x = true -> 0 <= zv x -> fin x = false ->
            nn (droitsAPayer (results_of info x (lit 0))) = true /\
            zv (droitsAPayer (results_of info x (lit 0))) = 3 * big).
  { intros x Hxn Hx0 Hx. rewrite (infinite_nonneg x Hxn Hx Hx0). split; assumption. }
  apply leb_true.
  destruct (fin b) eqn:Hbf.
  - assert (Haf' : fin a = true)
      by (apply fin_of_bounds; [exact Han | pose proof (fin_bounds b Hbf); lia]).
    split; [now apply Hcase |]. split; [now apply Hcase |].
    destruct (results_float info a (lit 0) Hok Haf' nn_lit_zero)
      as (_ & Hala & Hbfa & Hbva & Hda & _).
    destruct (results_float info b (lit 0) Hok Hbf nn_lit_zero)
      as (_ & Halb & Hbfb & Hbvb & Hdb & _).
    cbv zeta in *. rewrite Hda, Hdb. apply duty_mono; try assumption.
    rewrite Hbva, Hbvb, Hala, Halb.
    apply Z.max_le_compat_l. apply round_mono. lia.
  - destruct (Hinf b Hbn ltac:(lia) Hbf) as [Hrn Hrv].
    split; [| split; [exact Hrn |]].
    + destruct (fin a) eqn:Haf'; [now apply Hcase | now apply Hinf].
    + rewrite Hrv. apply zv_bounds.
Qed.

Lemma C5_witness :
  exists ra rb : Results float,
    sets_results donation "conjoint" 100000.5%float (lit 0) ra /\
    sets_results donation "conjoint" Infinity (lit 0) rb /\
    (droitsAPayer ra <= droitsAPayer rb)%js = true.
Proof.
  apply (C5_duty_monotone_in_transfer donation "conjoint" 100000.5%float Infinity).
  - reflexivity.
  - cbn. tauto.
  - reflexivity.
  - reflexivity.
Defined.

End DutyGrowsWithAmount.

(** ** C6: the applied allowance against the profile's allowance *)

Section AllowanceAgainstProfile.

Import Rounding RoundingFacts RoundAux SpecFacts FloatFacts.
Local Open Scope Z_scope.

(** C6 (as stated, refuted). On an inheritance of 500000 to the spouse the
    engine sets an applied allowance of 500000, above the allowance 80724
    of the spouse's profile. *)
Lemma C6_exempt_allowance_above_profile :
  (exists (info : AbattementInfo xnum) (r : Results xnum),
      FISCAL_DATA !! "conjoint"%string = Some info /\
      sets_results succession "conjoint" (Fin 500000) (Fin 0) r /\
      xeq (abattementApplique r) (Fin 500000) /\
      xeq (abattement info) (Fin 80724) /\
      (xle (abattementApplique r) (abattement info) -> False)) /\
  (exists (info : AbattementInfo float) (r : Results float),
      FISCAL_DATA !! "conjoint"%string = Some info /\
      sets_results succession "conjoint" (lit 500000) (lit 0) r /\
      (abattementApplique r <= abattement info)%js = false).
Proof.
  split.
  - eexists. eexists. split; [reflexivity |].
    split; [apply sets_results_exempt |].
    do 2 (split; [vm_compute; reflexivity |]). vm_compute. discriminate.
  - eexists. eexists. split; [reflexivity |].
    split; [apply sets_results_exempt |]. vm_compute. reflexivity.
Qed.

(** C6 (amended). On binary64, with prior gifts that are not negative,
    every non-exempt computation sets an applied allowance that is at most
    the allowance of the category's profile. The exempt computation sets it
    to the amount transmitted, which is at most the spouse's allowance only
    when the amount transmitted is. *)
Theorem C6_allowance_at_most_profile :
  forall (ty : TypeTransmission) (k : string) (mt da : float),
    In k categories ->
    (lit 0 <= da)%js = true ->
    exists (info : AbattementInfo float) (r : Results float),
      FISCAL_DATA !! k = Some info /\
      sets_results ty k mt da r /\
      (isConjointSuccession ty k = false ->
       (abattementApplique r <= abattement info)%js = true) /\
      (isConjointSuccession ty k = true ->
       abattementApplique r = mt /\
       abattement info = lit 80724 /\
       (abattementApplique r <= abattement info)%js = (mt <= lit 80724)%js).
Proof.
  intros ty k mt da Hk Hda.
  destruct (isConjointSuccession ty k) eqn:Hex.
  - apply exempt_cases in Hex as [-> ->].
    eexists. eexists. split; [reflexivity |].
    split; [apply sets_results_exempt |].
    split; [discriminate |]. intros _. repeat split; reflexivity.
  - destruct (float_run ty k mt da Hex Hk) as (info & Hlook & Hok & Hrun).
    exists info, (results_of info mt da).
    split; [exact Hlook |]. split; [exact Hrun |]. split; [| discriminate]. intros _.
    destruct (profile_float_facts info Hok) as (Haf & Ha0 & _).
    destruct (leb_zero_elim da Hda) as [Hdn Hd0].
    destruct (allowance_float (abattement info) da Haf Hdn) as [Hal Halv].
    cbn [results_of abattementApplique]. apply leb_true.
    split; [exact Hal |]. split; [now apply fin_nn |].
    rewrite Halv.
    assert (round (zv (abattement info) - zv da) <= zv (abattement info))
      by (rewrite <- (zv_round (abattement info)) at 2; apply round_mono; lia).
    lia.
Qed.

Lemma C6_witness :
  exists (info : AbattementInfo float) (r : Results float),
    FISCAL_DATA !! "neveu-niece"%string = Some info /\
    sets_results donation "neveu-niece" 20000%float 3000.25%float r /\
    (isConjointSuccession donation "neveu-niece" = false ->
     (abattementApplique r <= abattement info)%js = true) /\
    (isConjointSuccession donation "neveu-niece" = true ->
     abattementApplique r = 20000%float /\
     abattement info = lit 80724 /\
     (abattementApplique r <= abattement info)%js = (20000%float <= lit 80724)%js).
Proof.
  apply (C6_allowance_at_most_profile donation "neveu-niece" 20000%float 3000.25%float).
  - cbn. tauto.
  - reflexivity.
Defined.

End AllowanceAgainstProfile.

(** ** C7: no negative result *)

Section NoNegativeResult.

Import Rounding RoundingFacts RoundAux SpecFacts FloatFacts.
Local Open Scope Z_scope.

(** C7 (as stated, refuted). [Infinity] is a number that is not negative,
    and for a gift of [Infinity] to a child the engine sets an infinite
    duty and a net amount that is [NaN], which is not at least 0. *)
Lemma C7_infinite_amount_gives_nan :
  exists r : Results float,
    sets_results donation "enfant" Infinity (lit 0) r /\
    (lit 0 <= Infinity)%js = true /\ (lit 0 <= lit 0)%js = true /\
    droitsAPayer r = Infinity /\
    Binary64.is_nan (montantNet r) = true /\
    (lit 0 <= montantNet r)%js = false.
Proof.
  eexists. split; [apply sets_results_profile; reflexivity |].
  do 4 (split; [vm_compute; reflexivity |]). vm_compute. reflexivity.
Qed.

(** C7 (amended). On binary64, for every category of the registry, when
    the amount transmitted is finite and not negative and the prior gifts
    are not negative, the duty, the net amount, the applied allowance and
    the taxable base that the engine sets are not negative. *)
Theorem C7_results_nonnegative :
  forall (ty : TypeTransmission) (k : string) (mt da : float),
    In k categories ->
    Number_isFinite mt = true ->
    (lit 0 <= mt)%js = true -> (lit 0 <= da)%js = true ->
    exists r : Results float,
      sets_results ty k mt da r /\
      (lit 0 <= droitsAPayer r)%js = true /\
      (lit 0 <= montantNet r)%js = true /\
      (lit 0 <= abattementApplique r)%js = true /\
      (lit 0 <= baseTaxable r)%js = true.
Proof.
  intros ty k mt da Hk Hfin Hmt Hda.
  destruct (isConjointSuccession ty k) eqn:Hex.
  - apply exempt_cases in Hex as [-> ->].
    eexists. split; [apply sets_results_exempt |].
    cbn [droitsAPayer montantNet abattementApplique baseTaxable].
    repeat split; try exact Hmt; reflexivity.
  - destruct (float_run ty k mt da Hex Hk) as (info & Hlook & Hok & Hrun).
    exists (results_of info mt da). split; [exact Hrun |].
    apply isFinite_fin in Hfin.
    destruct (leb_zero_elim mt Hmt) as [_ Hmt0].
    destruct (leb_zero_elim da Hda) as [Hdn _].
    destruct (results_float info mt da Hok Hfin Hdn)
      as (Hal & Halv & Hbf & Hbv & _ & Hd & Hdb & Hn & Hnv).
    cbv zeta in *.
    assert (Hbase : zv (baseTaxable (results_of info mt da)) <= zv mt).
    { rewrite Hbv.
      assert (round (zv mt - zv (abattementApplique (results_of info mt da))) <= zv mt)
        by (rewrite <- (zv_round mt) at 2; apply round_mono; lia).
      lia. }
    split; [apply leb_zero_intro; [exact Hd | lia] |].
    split; [apply leb_zero_intro; [exact Hn |] |].
    + rewrite Hnv. apply round_nonneg. lia.
    + split; apply leb_zero_intro; auto using fin_nn; lia.
Qed.

Lemma C7_witness :
  exists r : Results float,
    sets_results succession "frere-soeur" 50000.07%float 20000%float r /\
    (lit 0 <= droitsAPayer r)%js = true /\
    (lit 0 <= montantNet r)%js = true /\
    (lit 0 <= abattementApplique r)%js = true /\
    (lit 0 <= baseTaxable r)%js = true.
Proof.
  apply (C7_results_nonnegative succession "frere-soeur" 50000.07%float 20000%float).
  - cbn. tauto.
  - reflexivity.
  - reflexivity.
  - reflexivity.
Defined.

End NoNegativeResult.

(** ** C8: a category that the registry does not hold *)

(** C8 (as stated, refuted). For the category ["cousin"], which the
    registry does not hold, the run reports no error: it returns normally
    and leaves the state as it was, be it the initial state or the results
    of an earlier computation. *)
Lemma C8_unknown_category_returns_silently :
  FISCAL_DATA (N:=xnum) !! "cousin"%string = None /\
  compute donation "cousin" (Fin 300000) (Fin 0) initial_state
  = Normal initial_state /\
  compute donation "cousin" (Fin 300000) (Fin 0) state_after_gift_to_child
  = Normal state_after_gift_to_child /\
  xeq (droitsAPayer (results state_after_gift_to_child)) (Fin 38194.35).
Proof.
  split; [reflexivity |]. split; [reflexivity |]. split; [reflexivity |].
  vm_compute. reflexivity.
Qed.

(** C8 (amended). When the category is not a key of the registry, the run
    reports no error of its own and uses no other profile: it returns
    before computing and leaves the results and the chart data as they
    were. The one exception is a category that names a member inherited
    from [Object.prototype], for which the lookup does not yield
    [undefined]: there a [TypeError] escapes from the loop, and the state
    is not written either. *)
Theorem C8_unknown_category_no_update :
  forall (N : Type) (HN : JsNumber N) (ty : TypeTransmission) (k : string)
         (montantTransmis donationsAnterieures : N) (st : AppState N),
    FISCAL_DATA (N:=N) !! k = None ->
    (~ In k Object_prototype_keys ->
     compute ty k montantTransmis donationsAnterieures st = Normal st) /\
    (In k Object_prototype_keys ->
     compute ty k montantTransmis donationsAnterieures st = Throw TypeError).
Proof.
  intros N HN ty k mt da st Hnone.
  assert (Hex : isConjointSuccession ty k = false).
  { destruct (isConjointSuccession ty k) eqn:E; [| reflexivity].
    apply exempt_cases in E as [_ ->]. discriminate Hnone. }
  split; intros Hk.
  - now apply run_undefined.
  - unfold compute, calculation_engine, get. fold (isConjointSuccession ty k).
    rewrite Hex, Hnone. rewrite bool_decide_eq_true_2; [reflexivity |].
    now rewrite list_elem_of_In.
Qed.

Lemma C8_witness :
  (~ In "cousin"%string Object_prototype_keys ->
   compute (N:=float) succession "cousin" (lit 300000) (lit 0) initial_state
   = Normal initial_state) /\
  (In "cousin"%string Object_prototype_keys ->
   compute (N:=float) succession "cousin" (lit 300000) (lit 0) initial_state
   = Throw TypeError).
Proof.
  apply (C8_unknown_category_no_update float float_number succession "cousin").
  reflexivity.
Defined.

(** ** C9: negative amounts *)

Section NegativeAmounts.

Import Rounding RoundingFacts RoundAux SpecFacts FloatFacts.
Local Open Scope Z_scope.

(** C9 (as stated, refuted). Negative amounts are not rejected. A gift of
    -50000 to a child sets results: no duty, a net amount of -50000. A gift
    of 300000 to a child after prior gifts of -50000 sets results with an
    applied allowance of 150000. On exact numbers and on binary64 alike. *)
Lemma C9_negative_amounts_accepted :
  ((exists r : Results xnum,
       sets_results donation "enfant" (Fin (-50000)) (Fin 0) r /\
       xeq (droitsAPayer r) (Fin 0) /\
       xeq (montantNet r) (Fin (-50000)) /\
       xeq (abattementApplique r) (Fin 100000) /\
       xeq (baseTaxable r) (Fin 0)) /\
   (exists r : Results xnum,
       sets_results donation "enfant" (Fin 300000) (Fin (-50000)) r /\
       xeq (abattementApplique r) (Fin 150000) /\
       xeq (baseTaxable r) (Fin 150000))) /\
  ((exists r : Results float,
       sets_results donation "enfant" (-50000)%float 0%float r /\
       droitsAPayer r = 0%float /\
       montantNet r = (-50000)%float /\
       abattementApplique r = 100000%float /\
       baseTaxable r = 0%float) /\
   (exists r : Results float,
       sets_results donation "enfant" 300000%float (-50000)%float r /\
       abattementApplique r = 150000%float /\
       baseTaxable r = 150000%float)).
Proof.
  split; split.
  - eexists. split; [apply sets_results_profile; reflexivity |].
    do 3 (split; [vm_compute; reflexivity |]). vm_compute; reflexivity.
  - eexists. split; [apply sets_results_profile; reflexivity |].
    split; vm_compute; reflexivity.
  - eexists. split; [apply sets_results_profile; reflexivity |].
    do 3 (split; [vm_compute; reflexivity |]). vm_compute; reflexivity.
  - eexists. split; [apply sets_results_profile; reflexivity |].
    split; vm_compute; reflexivity.
Qed.

(** C9 (amended). On binary64, when the amount transmitted or the prior
    gifts are negative, the engine rejects nothing: for every category of
    the registry it sets results by the same operations. In a non-exempt
    computation, negative prior gifts raise the applied allowance to
    [abattement - donationsAnterieures], and a negative amount transmitted
    gives a taxable base of 0, a duty of 0 and a net amount equal to the
    amount transmitted. *)
Theorem C9_negative_amounts_computed :
  forall (ty : TypeTransmission) (k : string) (mt da : float),
    In k categories ->
    PrimFloat.ltb mt (lit 0) = true \/ PrimFloat.ltb da (lit 0) = true ->
    Binary64.is_nan mt = false -> Binary64.is_nan da = false ->
    exists (info : AbattementInfo float) (r : Results float),
      FISCAL_DATA !! k = Some info /\
      sets_results ty k mt da r /\
      (isConjointSuccession ty k = false ->
       (PrimFloat.ltb da (lit 0) = true ->
        abattementApplique r = (abattement info - da)%js) /\
       (PrimFloat.ltb mt (lit 0) = true ->
        baseTaxable r = lit 0 /\ droitsAPayer r = lit 0 /\ montantNet r = mt)).
Proof.
  intros ty k mt da Hk _ Hmtn Hdan.
  rewrite is_nan_nn in Hmtn, Hdan. apply negb_false_iff in Hmtn, Hdan.
  destruct (isConjointSuccession ty k) eqn:Hex.
  - apply exempt_cases in Hex as [-> ->].
    eexists. eexists. split; [reflexivity |].
    split; [apply sets_results_exempt | discriminate].
  - destruct (float_run ty k mt da Hex Hk) as (info & Hlook & Hok & Hrun).
    exists info, (results_of info mt da).
    split; [exact Hlook |]. split; [exact Hrun |]. intros _.
    destruct (profile_float_facts info Hok) as (Haf & Ha0 & _).
    destruct (allowance_float (abattement info) da Haf Hdan) as [Hal Halv].
    cbn [results_of abattementApplique baseTaxable droitsAPayer montantNet].
    split.
    + intros Hda. rewrite (ltb_zv da (lit 0) Hdan nn_lit_zero), zv_lit_zero in Hda.
      apply Z.ltb_lt in Hda. float_ops.
      assert (Hn : nn (abattement info - da)%float = true)
        by (apply sub_nn; [now apply fin_nn | exact Hdan | tauto]).
      apply max_zero_of_pos; [exact Hn |].
      rewrite (sub_zv _ _ Hn).
      assert (zv (abattement info) <= round (zv (abattement info) - zv da))
        by (rewrite <- (zv_round (abattement info)) at 1; apply round_mono; lia).
      lia.
    + intros Hmt. rewrite (ltb_zv mt (lit 0) Hmtn nn_lit_zero), zv_lit_zero in Hmt.
      apply Z.ltb_lt in Hmt.
      set (al := Math_max (lit 0) (abattement info - da)%js) in *.
      assert (Hn : nn (mt - al)%float = true)
        by (apply sub_nn; [exact Hmtn | exact Hal | right; right; lia]).
      assert (Hbase : Math_max (lit 0) (mt - al)%js = 0%float).
      { float_ops. apply max_zero_of_nonpos; [exact Hn |].
        rewrite (sub_zv _ _ Hn), <- round_0. apply round_mono. lia. }
      rewrite Hbase. rewrite !lit_zero.
      rewrite (loop_break _ _ 0%float _ eq_refl ltac:(rewrite zv_zero; lia)).
      split; [reflexivity |]. split; [reflexivity |]. float_ops. apply sub_zero.
Qed.

Lemma C9_witness :
  exists (info : AbattementInfo float) (r : Results float),
    FISCAL_DATA !! "autre"%string = Some info /\
    sets_results donation "autre" (-10000)%float (-1000.5)%float r /\
    (isConjointSuccession donation "autre" = false ->
     (PrimFloat.ltb (-1000.5)%float (lit 0) = true ->
      abattementApplique r = (abattement info - (-1000.5)%float)%js) /\
     (PrimFloat.ltb (-10000)%float (lit 0) = true ->
      baseTaxable r = lit 0 /\ droitsAPayer r = lit 0 /\
      montantNet r = (-10000)%float)).
Proof.
  apply (C9_negative_amounts_computed donation "autre" (-10000)%float (-1000.5)%float).
  - cbn. tauto.
  - left. reflexivity.
  - reflexivity.
  - reflexivity.
Defined.

End NegativeAmounts.

(** ** C10: the duty grows with the prior gifts *)

Section DutyGrowsWithPriorGifts.

Import Rounding RoundingFacts RoundAux SpecFacts FloatFacts.
Local Open Scope Z_scope.

(** C10 (as stated, refuted). For an infinite amount given to a child, the
    duty is infinite with prior gifts of 0 and of 1000 alike, and the net
    amount, [Infinity - Infinity], is [NaN]: the two net amounts do not
    compare. *)
Lemma C10_infinite_amount_net_not_comparable :
  exists r r' : Results float,
    sets_results donation "enfant" Infinity (lit 0) r /\
    sets_results donation "enfant" Infinity (lit 1000) r' /\
    (lit 0 <= lit 1000)%js = true /\
    (droitsAPayer r <= droitsAPayer r')%js = true /\
    Binary64.is_nan (montantNet r) = true /\
    Binary64.is_nan (montantNet r') = true /\
    (montantNet r' <= montantNet r)%js = false.
Proof.
  eexists. eexists. split; [apply sets_results_profile; reflexivity |].
  split; [apply sets_results_profile; reflexivity |].
  do 4 (split; [vm_compute; reflexivity |]). vm_compute. reflexivity.
Qed.

(** C10 (amended). On binary64, in every non-exempt computation, for a
    given finite amount transmitted, a larger amount of prior gifts never
    gives a smaller duty nor a larger net amount. *)
Theorem C10_duty_monotone_in_prior_gifts :
  forall (ty : TypeTransmission) (k : string) (mt p p' : float),
    isConjointSuccession ty k = false ->
    In k categories ->
    Number_isFinite mt = true ->
    (p <= p')%js = true ->
    exists r r' : Results float,
      sets_results ty k mt p r /\
      sets_results ty k mt p' r' /\
      (droitsAPayer r <= droitsAPayer r')%js = true /\
      (montantNet r' <= montantNet r)%js = true.
Proof.
  intros ty k mt p p' Hex Hk Hfin Hp.
  destruct (float_run ty k mt p Hex Hk) as (info & Hlook & Hok & Hrun).
  exists (results_of info mt p), (results_of info mt p').
  split; [exact Hrun |]. split; [now apply sets_results_profile |].
  apply isFinite_fin in Hfin. apply leb_true in Hp as (Hpn & Hpn' & Hpp).
  destruct (profile_float_facts info Hok) as (_ & _ & Hs & _).
  destruct (results_float info mt p Hok Hfin Hpn)
    as (_ & Halv & Hbf & Hbv & Hd & Hdn & _ & Hn & Hnv).
  destruct (results_float info mt p' Hok Hfin Hpn')
    as (_ & Halv' & Hbf' & Hbv' & Hd' & Hdn' & _ & Hn' & Hnv').
  cbv zeta in *.
  assert (Hdd : zv (droitsAPayer (results_of info mt p))
                <= zv (droitsAPayer (results_of info mt p'))).
  { rewrite Hd, Hd'. apply duty_mono; try assumption.
    rewrite Hbv, Hbv', Halv, Halv'.
    apply Z.max_le_compat_l. apply round_mono.
    assert (round (zv (abattement info) - zv p') <= round (zv (abattement info) - zv p))
      by (apply round_mono; lia).
    lia. }
  split; apply leb_true.
  - split; [exact Hdn |]. split; [exact Hdn' | exact Hdd].
  - split; [exact Hn' |]. split; [exact Hn |].
    rewrite Hnv, Hnv'. apply round_mono. lia.
Qed.

Lemma C10_witness :
  exists r r' : Results float,
    sets_results succession "enfant" 300000%float 0%float r /\
    sets_results succession "enfant" 300000%float 50000.5%float r' /\
    (droitsAPayer r <= droitsAPayer r')%js = true /\
    (montantNet r' <= montantNet r)%js = true.
Proof.
  apply (C10_duty_monotone_in_prior_gifts succession "enfant" 300000%float 0%float
           50000.5%float).
  - reflexivity.
  - cbn. tauto.
  - reflexivity.
  - reflexivity.
Defined.

End DutyGrowsWithPriorGifts.

(** * The engine at the inputs of the interface *)

(** The theorems above hold for all binary64 amounts. At the inputs that
    the two sliders, the category list and the two type buttons can
    produce, the engine is evaluated below at every one of them. *)

Example montants_slider_range :
  head montants_slider = Some 10000%Z /\ last montants_slider = Some 2000000%Z /\
  length montants_slider = 200%nat.
Proof. repeat split; reflexivity. Qed.

Example donations_slider_range :
  head donations_slider = Some 0%Z /\ last donations_slider = Some 200000%Z /\
  length donations_slider = 201%nat.
Proof. repeat split; reflexivity. Qed.



(** X2. On binary64, with no prior gifts and for every category and type
    other than the spouse's inheritance, the duty at a position of the
    amount slider is at most the duty at every position above it. *)
Theorem binary64_interface_duty_monotone :
  forall (ty : TypeTransmission) (k : string) (a b : Z),
    isConjointSuccession ty k = false ->
    In k categories -> In a montants_slider -> In b montants_slider ->
    (a <= b)%Z ->
    exists ra rb : Results float,
      sets_results ty k (lit (inject_Z a)) (lit 0) ra /\
      sets_results ty k (lit (inject_Z b)) (lit 0) rb /\
      (droitsAPayer ra <= droitsAPayer rb)%js = true.
Proof.
  intros ty k a b Hex Hk Ha Hb Hab.
  pose proof interface_monotone_holds as Hall. unfold interface_monotone in Hall.
  rewrite forallb_forall in Hall. specialize (Hall k Hk).
  destruct (FISCAL_DATA !! k) as [info |] eqn:Hinfo; [| discriminate].
  rewrite forallb_forall in Hall. specialize (Hall a Ha).
  rewrite forallb_forall in Hall. specialize (Hall b Hb).
  apply Z.leb_le in Hab. rewrite Hab in Hall. cbn [implb] in Hall.
  eexists. eexists.
  split; [exact (sets_results_profile ty k info _ _ Hex Hinfo) |].
  split; [exact (sets_results_profile ty k info _ _ Hex Hinfo) |].
  exact Hall.
Qed.

Lemma binary64_interface_duty_monotone_witness :
  exists ra rb : Results float,
    sets_results donation "conjoint" (lit (inject_Z 100000)) (lit 0) ra /\
    sets_results donation "conjoint" (lit (inject_Z 300000)) (lit 0) rb /\
    (droitsAPayer ra <= droitsAPayer rb)%js = true.
Proof.
  apply (binary64_interface_duty_monotone donation "conjoint" 100000 300000).
  - reflexivity.
  - cbn. tauto.
  - vm_compute. tauto.
  - vm_compute. tauto.
  - discriminate.
Defined.

(** X3. On binary64 the sum of the net amount and the duty is the amount
    transmitted only up to rounding: for a gift of 50000.07 to a brother or
    sister the two add up to a number that differs from 50000.07, by less
    than a billionth. *)
Theorem binary64_conservation_rounds :
  exists r : Results float,
    sets_results donation "frere-soeur" (lit 50000.07) (lit 0) r /\
    PrimFloat.eqb (montantNet r + droitsAPayer r)%js (lit 50000.07) = false /\
    approx_float 0.000000001 (montantNet r + droitsAPayer r)%js (lit 50000.07).
Proof.
  eexists. split; [apply sets_results_profile; reflexivity |].
  split; vm_compute; reflexivity.
Qed.

(** * More on the engine, on binary64 *)

Section FloatMore.

Import Rounding RoundingFacts RoundAux SpecFacts FloatFacts.
Local Open Scope Z_scope.

(** ** X5: when no duty is due *)



(** The converse does not hold on binary64: the smallest positive amount,
    given to a child after prior gifts of 100000, has a taxable base above
    0 and a duty of 0, the product with the rate being rounded to 0. *)
Example no_duty_above_allowance :
  exists info : AbattementInfo float,
    FISCAL_DATA !! "enfant"%string = Some info /\
    let r := results_of info 0x1p-1074%float (lit 100000) in
    abattementApplique r = lit 0 /\
    PrimFloat.ltb (lit 0) (baseTaxable r) = true /\
    droitsAPayer r = lit 0.
Proof.
  eexists. split; [reflexivity |]. cbv zeta. repeat split; vm_compute; reflexivity.
Qed.

(** ** X6: the duty against the taxable base *)

(** X6. On binary64, in every non-exempt computation with a finite amount
    transmitted and prior gifts that are a number, the duty is not negative
    and at most the taxable base, and the taxable base is at most the
    amount transmitted, or 0 when that is negative. *)
Theorem duty_at_most_taxable_base :
  forall (ty : TypeTransmission) (k : string) (mt da : float),
    isConjointSuccession ty k = false ->
    In k categories ->
    Number_isFinite mt = true ->
    Binary64.is_nan da = false ->
    exists r : Results float,
      sets_results ty k mt da r /\
      (lit 0 <= droitsAPayer r)%js = true /\
      (droitsAPayer r <= baseTaxable r)%js = true /\
      (baseTaxable r <= Math_max (lit 0) mt)%js = true.
Proof.
  intros ty k mt da Hex Hk Hfin Hdan.
  rewrite is_nan_nn in Hdan. apply negb_false_iff in Hdan.
  apply isFinite_fin in Hfin. pose proof (fin_nn mt Hfin) as Hmtn.
  destruct (float_run ty k mt da Hex Hk) as (info & Hlook & Hok & Hrun).
  exists (results_of info mt da). split; [exact Hrun |].
  destruct (results_float info mt da Hok Hfin Hdan)
    as (Hal & Halv & Hbf & Hbv & _ & Hd & Hdb & _).
  cbv zeta in *.
  destruct (max_zero_zv mt Hmtn) as [Hmn Hmv].
  split; [| split]; apply leb_true.
  - split; [exact nn_lit_zero |]. split; [exact Hd |]. rewrite zv_lit_zero. lia.
  - split; [exact Hd |]. split; [now apply fin_nn | lia].
  - split; [now apply fin_nn |]. split; [exact Hmn |].
    rewrite Hmv, Hbv, Halv.
    assert (round (zv mt - Z.max 0 (round (zv (abattement info) - zv da))) <= zv mt)
      by (rewrite <- (zv_round mt) at 2; apply round_mono; lia).
    lia.
Qed.

Lemma duty_at_most_taxable_base_witness :
  exists r : Results float,
    sets_results succession "neveu-niece" 123456.78%float 1000.5%float r /\
    (lit 0 <= droitsAPayer r)%js = true /\
    (droitsAPayer r <= baseTaxable r)%js = true /\
    (baseTaxable r <= Math_max (lit 0) 123456.78%float)%js = true.
Proof.
  apply (duty_at_most_taxable_base succession "neveu-niece" 123456.78%float 1000.5%float).
  - reflexivity.
  - cbn. tauto.
  - reflexivity.
  - reflexivity.
Defined.

End FloatMore.

(** * Runs in sequence *)

Section Sequences.

Context {N : Type} `{JsNumber N}.

Lemma run_all_app (l l' : list (Inputs N)) (st st' : AppState N) :
  run_all l st = Normal st' -> run_all (l ++ l') st = run_all l' st'.
Proof.
  revert st. induction l as [| i l IH]; intros st Hl; cbn in *.
  - now injection Hl as ->.
  - destruct (run i st) as [st1 |]; [now apply IH | discriminate].
Qed.

Lemma lookup_none_not_exempt (ty : TypeTransmission) (k : string) :
  FISCAL_DATA (N:=N) !! k = None -> isConjointSuccession ty k = false.
Proof.
  intros Hnone. destruct (isConjointSuccession ty k) eqn:E; [| reflexivity].
  apply exempt_cases in E as [_ ->]. discriminate Hnone.
Qed.

Lemma run_all_unknown (l : list (Inputs N)) (st : AppState N) :
  Forall unknown_category l -> run_all l st = Normal st.
Proof.
  induction 1 as [| i l [Hnone Hproto] _ IH]; [reflexivity |].
  cbn. unfold run, compute.
  rewrite (run_undefined _ _ _ _ _ _
             (lookup_none_not_exempt (typeTransmission_of i) _ Hnone) Hnone Hproto).
  exact IH.
Qed.

(** X9. After any sequence of runs, the results on display are those of
    the last input whose category the registry holds: the inputs that
    follow it with a category that looks up as [undefined] change nothing,
    whatever their amounts. *)
Theorem display_is_last_known_run :
  forall (pre post : list (Inputs N)) (i : Inputs N) (st st1 : AppState N)
         (r : Results N),
    run_all pre st = Normal st1 ->
    sets_results (typeTransmission_of i) (lienParente_of i)
                 (montantTransmis_of i) (donationsAnterieures_of i) r ->
    Forall unknown_category post ->
    exists chart : list (ChartEntry N),
      run_all (pre ++ i :: post) st = Normal {| results := r; chartData := chart |}.
Proof.
  intros pre post i st st1 r Hpre Hrun Hpost.
  destruct (Hrun st1) as [chart Hchart]. exists chart.
  rewrite (run_all_app _ _ _ _ Hpre). cbn. unfold run. rewrite Hchart.
  now apply run_all_unknown.
Qed.

End Sequences.

Lemma display_is_last_known_run_witness :
  exists chart : list (ChartEntry xnum),
    run_all ([] ++ {| typeTransmission_of := donation; lienParente_of := "enfant";
                      montantTransmis_of := Fin 300000;
                      donationsAnterieures_of := Fin 0 |}
                :: [ {| typeTransmission_of := donation; lienParente_of := "cousin";
                        montantTransmis_of := Fin 900000;
                        donationsAnterieures_of := Fin 0 |} ])
            initial_state
    = Normal {| results := results state_after_gift_to_child; chartData := chart |}.
Proof.
  apply (display_is_last_known_run (N:=xnum) [] _ _ initial_state initial_state).
  - reflexivity.
  - intros st. eexists. vm_compute. reflexivity.
  - constructor; [| constructor]. split; [reflexivity |].
    cbn. intros Hin. repeat (destruct Hin as [Hin | Hin]; [discriminate |]). exact Hin.
Defined.

(** * The e-mail form *)

(** ** Literals *)

Example utf16_ascii : utf16 "a@b.c" = [97; 64; 98; 46; 99]%N.
Proof. reflexivity. Qed.

Example utf16_accents : utf16 "été à €" = [233; 116; 233; 32; 224; 32; 8364]%N.
Proof. reflexivity. Qed.

(** ** Regular expressions *)

Section Regex.

Implicit Types (r : regex) (s : jsstring) (c : N).

Lemma lang_void_inv s : lang Void s -> False.
Proof. inversion 1. Qed.

Lemma lang_eps_inv s : lang Eps s -> s = [].
Proof. now inversion 1. Qed.

Lemma lang_class_inv (p : N -> bool) s :
  lang (Class p) s -> exists c, s = [c] /\ p c = true.
Proof. inversion 1; subst; eauto. Qed.

Lemma lang_cat_inv r1 r2 s :
  lang (Cat r1 r2) s -> exists s1 s2, s = s1 ++ s2 /\ lang r1 s1 /\ lang r2 s2.
Proof. inversion 1; subst; eauto. Qed.

Lemma lang_alt_inv r1 r2 s : lang (Alt r1 r2) s -> lang r1 s \/ lang r2 s.
Proof. inversion 1; subst; auto. Qed.

Lemma lang_cat_cons r1 r2 c s1 s2 :
  lang r1 (c :: s1) -> lang r2 s2 -> lang (Cat r1 r2) (c :: s1 ++ s2).
Proof. intros H1 H2. change (c :: s1 ++ s2) with ((c :: s1) ++ s2). now constructor. Qed.

Lemma lang_cat_nil_l r1 r2 s : lang r1 [] -> lang r2 s -> lang (Cat r1 r2) s.
Proof. intros H1 H2. change s with ([] ++ s). now constructor. Qed.

Lemma nullable_spec r : nullable r = true <-> lang r [].
Proof.
  induction r as [| | p | r1 IH1 r2 IH2 | r1 IH1 r2 IH2 | r IH]; cbn.
  - split; [discriminate | intros H; destruct (lang_void_inv _ H)].
  - split; [constructor | reflexivity].
  - split; [discriminate |].
    intros H. apply lang_class_inv in H as (c & Hc & _). discriminate Hc.
  - rewrite andb_true_iff, IH1, IH2. split.
    + intros [H1 H2]. now apply lang_cat_nil_l.
    + intros H. apply lang_cat_inv in H as (s1 & s2 & Hs & H1 & H2).
      symmetry in Hs. apply app_eq_nil in Hs as [-> ->]. auto.
  - rewrite orb_true_iff, IH1, IH2. split.
    + intros [H | H]; [now apply lang_alt_l | now apply lang_alt_r].
    + apply lang_alt_inv.
  - split; [constructor | reflexivity].
Qed.

Lemma lang_star_split r s c :
  lang (Star r) (c :: s) ->
  exists s1 s2, s = s1 ++ s2 /\ lang r (c :: s1) /\ lang (Star r) s2.
Proof.
  intros H. remember (Star r) as r' eqn:Hr. remember (c :: s) as cs eqn:Hcs.
  revert s Hcs.
  induction H as [| | | | | | r0 s1 s2 H1 _ H2 IH2]; intros tl Hcs;
    try discriminate.
  injection Hr as ->.
  destruct s1 as [| c1 s1]; cbn in Hcs.
  - now apply IH2.
  - injection Hcs as -> <-. eauto.
Qed.

Lemma deriv_spec r c s : lang (deriv c r) s <-> lang r (c :: s).
Proof.
  revert s. induction r as [| | p | r1 IH1 r2 IH2 | r1 IH1 r2 IH2 | r IH];
    intros s; cbn.
  - split; intros H; destruct (lang_void_inv _ H).
  - split; intros H; [destruct (lang_void_inv _ H) | apply lang_eps_inv in H; discriminate].
  - destruct (p c) eqn:Hp; split; intros H.
    + apply lang_eps_inv in H as ->. now constructor.
    + apply lang_class_inv in H as (c' & Hc & _). injection Hc as -> ->. constructor.
    + destruct (lang_void_inv _ H).
    + apply lang_class_inv in H as (c' & Hc & Hpc). injection Hc as -> ->. congruence.
  - assert (Hcat : lang (Cat (deriv c r1) r2) s -> lang (Cat r1 r2) (c :: s)).
    { intros H. apply lang_cat_inv in H as (s1 & s2 & -> & H1 & H2).
      apply lang_cat_cons; [now apply IH1 | assumption]. }
    assert (Hback : lang (Cat r1 r2) (c :: s) ->
                    lang (Cat (deriv c r1) r2) s \/ (lang r1 [] /\ lang r2 (c :: s))).
    { intros H. apply lang_cat_inv in H as (s1 & s2 & Hs & H1 & H2).
      destruct s1 as [| c1 s1]; cbn in Hs.
      - subst s2. auto.
      - injection Hs as <- ->. left. constructor; [now apply IH1 | assumption]. }
    destruct (nullable r1) eqn:Hn; split; intros H.
    + apply lang_alt_inv in H as [H | H]; [auto |].
      apply nullable_spec in Hn. apply lang_cat_nil_l; [assumption | now apply IH2].
    + destruct (Hback H) as [H' | [_ H']];
        [now apply lang_alt_l | apply lang_alt_r; now apply IH2].
    + auto.
    + destruct (Hback H) as [H' | [H' _]]; [assumption |].
      apply nullable_spec in H'. congruence.
  - split; intros H; apply lang_alt_inv in H as [H | H];
      solve [apply lang_alt_l; now apply IH1 | apply lang_alt_r; now apply IH2].
  - split; intros H.
    + apply lang_cat_inv in H as (s1 & s2 & -> & H1 & H2).
      change (c :: s1 ++ s2) with ((c :: s1) ++ s2).
      constructor; [now apply IH | assumption].
    + apply lang_star_split in H as (s1 & s2 & -> & H1 & H2).
      constructor; [now apply IH | assumption].
Qed.

Lemma matches_spec r s : matches r s = true <-> lang r s.
Proof.
  revert r. induction s as [| c s IH]; intros r; cbn.
  - apply nullable_spec.
  - rewrite IH. apply deriv_spec.
Qed.

Lemma lang_any s : lang (Star (Class (fun _ => true))) s.
Proof.
  induction s as [| c s IH]; [constructor |].
  change (c :: s) with ([c] ++ s). constructor; [now constructor | assumption].
Qed.

(** [test]: some part of the string matches. *)
Lemma test_spec r s :
  test r s = true <-> exists pre m post, s = pre ++ m ++ post /\ lang r m.
Proof.
  unfold test. rewrite matches_spec. split.
  - intros H. apply lang_cat_inv in H as (pre & rest & -> & _ & Hrest).
    apply lang_cat_inv in Hrest as (m & post & -> & Hm & _). eauto.
  - intros (pre & m & post & -> & Hm).
    constructor; [apply lang_any |]. constructor; [assumption | apply lang_any].
Qed.

Lemma lang_star_class (p : N -> bool) s :
  lang (Star (Class p)) s <-> Forall (fun c => p c = true) s.
Proof.
  split.
  - intros H. remember (Star (Class p)) as r' eqn:Hr.
    induction H as [| | | | | | r0 s1 s2 H1 _ _ IH2]; try discriminate.
    + constructor.
    + injection Hr as ->. apply lang_class_inv in H1 as (c & -> & Hc).
      constructor; auto.
  - induction 1 as [| c s1 Hc _ IH]; [constructor |].
    change (c :: s1) with ([c] ++ s1). constructor; [now constructor | assumption].
Qed.

(** [p+]: a string that is not empty, of code units in [p]. *)
Lemma lang_plus_class (p : N -> bool) s :
  lang (Plus (Class p)) s <-> s <> [] /\ Forall (fun c => p c = true) s.
Proof.
  unfold Plus. split.
  - intros H. apply lang_cat_inv in H as (s1 & s2 & -> & H1 & H2).
    apply lang_class_inv in H1 as (c & -> & Hc). apply lang_star_class in H2.
    split; [discriminate | now constructor].
  - intros [Hne Hall]. destruct Hall as [| c s1 Hc Hall]; [congruence |].
    change (c :: s1) with ([c] ++ s1).
    constructor; [now constructor | now apply lang_star_class].
Qed.

Lemma lang_chr c s : lang (Chr c) s <-> s = [c].
Proof.
  unfold Chr. split.
  - intros H. apply lang_class_inv in H as (c' & -> & Hc).
    apply N.eqb_eq in Hc. now subst.
  - intros ->. constructor. apply N.eqb_refl.
Qed.

End Regex.

(** ** X10, X11: which addresses the form accepts *)

Lemma lang_email_pattern (m : jsstring) :
  lang email_pattern m <->
  exists xs ys zs,
    m = xs ++ 64%N :: ys ++ 46%N :: zs /\
    (xs <> [] /\ Forall (fun c => not_space c = true) xs) /\
    (ys <> [] /\ Forall (fun c => not_space c = true) ys) /\
    (zs <> [] /\ Forall (fun c => not_space c = true) zs).
Proof.
  unfold email_pattern. split.
  - intros H.
    apply lang_cat_inv in H as (xs & m1 & -> & Hxs & H).
    apply lang_cat_inv in H as (at_ & m2 & -> & Hat & H).
    apply lang_cat_inv in H as (ys & m3 & -> & Hys & H).
    apply lang_cat_inv in H as (dot & zs & -> & Hdot & Hzs).
    apply lang_chr in Hat as ->. apply lang_chr in Hdot as ->.
    apply lang_plus_class in Hxs, Hys, Hzs.
    exists xs, ys, zs. auto.
  - intros (xs & ys & zs & -> & Hxs & Hys & Hzs).
    apply lang_plus_class in Hxs, Hys, Hzs.
    constructor; [assumption |].
    change (64%N :: ys ++ 46%N :: zs) with ([64%N] ++ ys ++ [46%N] ++ zs).
    constructor; [now apply lang_chr |].
    constructor; [assumption |].
    constructor; [now apply lang_chr | assumption].
Qed.

(** X10. The form accepts an address exactly when it contains, somewhere, a
    code unit that is not white space, then [@], then one or more code
    units that are not white space, then a dot, then a code unit that is
    not white space. *)
Theorem email_accepted_iff :
  forall email : jsstring,
    email_accepted email = true <->
    exists (pre : jsstring) (x : N) (ys : jsstring) (z : N) (post : jsstring),
      email = pre ++ x :: 64%N :: ys ++ 46%N :: z :: post /\
      not_space x = true /\
      ys <> [] /\ Forall (fun c => not_space c = true) ys /\
      not_space z = true.
Proof.
  intros email. unfold email_accepted. rewrite andb_true_iff, test_spec. split.
  - intros (_ & pre & m & post & -> & Hm).
    apply lang_email_pattern in Hm
      as (xs & ys & zs & -> & (Hxs & Hxall) & (Hys & Hyall) & (Hzs & Hzall)).
    destruct (exists_last Hxs) as (xs' & x & ->).
    destruct zs as [| z zs']; [congruence |].
    apply Forall_app in Hxall as [_ Hx]. inversion Hx; subst.
    inversion Hzall; subst.
    exists (pre ++ xs'), x, ys, z, (zs' ++ post).
    split; [| auto].
    rewrite <- !app_assoc. cbn. rewrite <- !app_assoc. reflexivity.
  - intros (pre & x & ys & z & post & -> & Hx & Hys & Hyall & Hz). split.
    + destruct pre; reflexivity.
    + exists pre, ([x] ++ 64%N :: ys ++ 46%N :: [z]), post. split.
      * cbn. rewrite <- !app_assoc. reflexivity.
      * apply lang_email_pattern. exists [x], ys, [z].
        repeat split; auto; discriminate.
Qed.

(** X11. The test is not anchored: whatever is written before or after an
    accepted address, white space included, the form accepts the whole. *)
Theorem email_accepted_with_text_around :
  forall email before after : jsstring,
    email_accepted email = true ->
    email_accepted (before ++ email ++ after) = true.
Proof.
  intros email before after Hacc.
  unfold email_accepted in *. apply andb_true_iff in Hacc as [Hne Htest].
  apply test_spec in Htest as (pre & m & post & -> & Hm).
  assert (Hm_ne : m <> []).
  { apply lang_email_pattern in Hm as (xs & ys & zs & -> & _).
    destruct xs; discriminate. }
  apply andb_true_iff. split.
  - destruct before; [| reflexivity]. destruct pre; [| reflexivity].
    destruct m; [congruence | reflexivity].
  - apply test_spec. exists (before ++ pre), m, (post ++ after).
    split; [| assumption]. rewrite <- !app_assoc. reflexivity.
Qed.

Lemma email_accepted_with_text_around_witness :
  email_accepted (utf16 "write to " ++ utf16 "a@b.c" ++ utf16 " please") = true.
Proof.
  apply (email_accepted_with_text_around (utf16 "a@b.c")). reflexivity.
Defined.

(** ** X12: a submission of the form *)

Section FormFacts.

Context {N : Type} `{JsNumber N}.
Variable toLocaleString_fr : N -> jsstring.
Variable toLocaleString_fr_EUR : N -> jsstring.

(** X12. A submission whose response and timer come before any other
    change makes a request only for an address that the test accepts;
    whatever the response, it leaves the inputs and the results as they
    were and [isSending] false, and it empties the address field exactly
    when the address was accepted and the response was ok. An address that
    is not accepted leaves the validation message on display, with no
    timer to clear it. *)
Theorem submission_effects :
  forall (o : FetchOutcome) (c : Component N),
    isSending c = false ->
    let c' := submission toLocaleString_fr toLocaleString_fr_EUR o c in
    inputs c' = inputs c /\ display c' = display c /\ isSending c' = false /\
    (snd (handleEmailSubmit toLocaleString_fr toLocaleString_fr_EUR c) <> None
     <-> email_accepted (email c) = true) /\
    (email_accepted (email c) = true ->
     emailMessage c' = [] /\
     email c' = (match o with Responded true => [] | _ => email c end)) /\
    (email_accepted (email c) = false ->
     emailMessage c' = utf16 "Veuillez saisir une adresse e-mail valide." /\
     email c' = email c).
Proof.
  intros o c Hidle. cbv zeta. unfold submission, handleEmailSubmit.
  destruct (email_accepted (email c)) eqn:Hacc; cbn [negb fst snd].
  - unfold after_timeout, after_fetch.
    destruct o as [[|] |];
      cbn [set_emailMessage set_isSending set_email
           inputs display email isSending emailMessage];
      (split; [reflexivity |]); (split; [reflexivity |]); (split; [reflexivity |]);
      (split; [split; [reflexivity | discriminate] |]);
      (split; [split; reflexivity | discriminate]).
  - cbn [set_emailMessage inputs display email isSending emailMessage].
    split; [reflexivity |]. split; [reflexivity |]. split; [exact Hidle |].
    split; [split; [intros E; now destruct E | discriminate] |].
    split; [discriminate | split; reflexivity].
Qed.

End FormFacts.

Lemma submission_effects_witness :
  let c' := submission (fun _ => []) (fun _ => []) (Responded true) example_component in
  inputs c' = inputs example_component /\ display c' = display example_component /\
  isSending c' = false /\
  (snd (handleEmailSubmit (fun _ => []) (fun _ => []) example_component) <> None
   <-> email_accepted (email example_component) = true) /\
  (email_accepted (email example_component) = true ->
   emailMessage c' = [] /\ email c' = []) /\
  (email_accepted (email example_component) = false ->
   emailMessage c' = utf16 "Veuillez saisir une adresse e-mail valide." /\
   email c' = email example_component).
Proof.
  apply (submission_effects (fun _ => []) (fun _ => []) (Responded true) example_component).
  reflexivity.
Defined.

(** * The mail function *)

Lemma jsstring_eqb_eq (s1 s2 : jsstring) : jsstring_eqb s1 s2 = true <-> s1 = s2.
Proof.
  revert s2. induction s1 as [| c1 r1 IH]; intros [| c2 r2]; cbn;
    try (split; [discriminate | discriminate]); [tauto |].
  rewrite andb_true_iff, N.eqb_eq, IH. split.
  - intros [-> ->]. reflexivity.
  - intros E. injection E as -> ->. auto.
Qed.

Lemma Returns_inj {A : Type} (a b : A) : Returns a = Returns b -> a = b.
Proof. intros E. now injection E. Qed.

Section MailFacts.

Variable Number_toString : float -> jsstring.

Local Open Scope outcome_scope.

(** A property of a truthy value can be read: it is the member of that
    name. *)
Lemma get_property_field (v : json) (key : string) :
  truthy (Some v) = true -> get_property (Some v) key = Returns (field v key).
Proof.
  destruct v as [| b | x | s | items | members]; cbn; intros Hv;
    try discriminate; reflexivity.
Qed.

Lemma interpolate_property_field (v : json) (key : string) :
  truthy (Some v) = true ->
  interpolate_property Number_toString (Some v) key
  = interpolate Number_toString (field v key).
Proof.
  intros Hv. unfold interpolate_property. now rewrite get_property_field.
Qed.

Lemma converts_returns (v : jsvalue) :
  converts Number_toString v = true <->
  exists s, interpolate Number_toString v = Returns s.
Proof.
  unfold converts. destruct (interpolate Number_toString v) as [s |]; split.
  - eauto.
  - reflexivity.
  - discriminate.
  - intros [s E]. discriminate E.
Qed.

(** A string, a number, a boolean and [null] convert; so does [undefined]
    in a template. *)
Lemma converts_primitive (v : jsvalue) :
  match v with
  | Some (JArray _) | Some (JObject _) => True
  | _ => converts Number_toString v = true
  end.
Proof. destruct v as [[| b | x | s | items | members] |]; exact I || reflexivity. Qed.

(** An object converts unless it has a member [toString]. *)
Lemma converts_object (members : list (jsstring * json)) :
  converts Number_toString (Some (JObject members))
  = match own_property (utf16 "toString") members with
    | Some _ => false
    | None => true
    end.
Proof.
  unfold converts. cbn [interpolate ToString].
  destruct (own_property (utf16 "toString") members); reflexivity.
Qed.

Ltac convert_next :=
  match goal with
  | |- context [bind (interpolate Number_toString ?v) _] =>
      unfold converts at 1;
      destruct (interpolate Number_toString v);
      cbn [bind forallb andb app];
      [| split; [intros [? E]; discriminate E | discriminate]]
  end.

(** Once the guard of the handler is passed and the theme converts,
    [getEmailBody] returns exactly when every value that the body
    interpolates converts. *)
Lemma getEmailBody_returns_iff (theme : json) (members : list (jsstring * json))
    (objectifs resultats : json) :
  own_property (utf16 "objectifs") members = Some objectifs ->
  own_property (utf16 "resultats") members = Some resultats ->
  truthy (Some objectifs) = true -> truthy (Some resultats) = true ->
  converts Number_toString (Some theme) = true ->
  (exists b, getEmailBody Number_toString theme (Some (JObject members)) = Returns b) <->
  forallb (converts Number_toString) (interpolated theme objectifs resultats) = true.
Proof.
  intros Ho Hr Hto Htr Hkey. unfold getEmailBody, interpolated.
  cbn [get_property bind]. rewrite Ho, Hr. cbn [bind].
  rewrite !(get_property_field objectifs) by exact Hto.
  rewrite !(interpolate_property_field objectifs) by exact Hto.
  rewrite !(interpolate_property_field resultats) by exact Htr.
  cbn [bind].
  destruct (is_string (Some theme) "Succession").
  - destruct (is_string (field objectifs "typeTransmission") "Succession"
              && is_string (field objectifs "lienParente") "conjoint");
      cbn [bind app forallb].
    + repeat convert_next. split; [reflexivity | eauto].
    + repeat convert_next. split; [reflexivity | eauto].
  - destruct (is_string (Some theme) "Démembrement").
    + cbn [forallb]. repeat convert_next. split; [reflexivity | eauto].
    + apply converts_returns in Hkey as [key Hkey].
      unfold property_key. cbn [interpolate] in Hkey. rewrite Hkey.
      cbn [bind forallb]. repeat convert_next. split; [reflexivity | eauto].
Qed.

Lemma simulation_missing_spec (data : jsvalue) :
  exists b, simulation_missing data = Returns b /\
    (b = false <->
     exists members objectifs resultats,
       data = Some (JObject members) /\
       own_property (utf16 "objectifs") members = Some objectifs /\
       own_property (utf16 "resultats") members = Some resultats /\
       truthy (Some objectifs) = true /\ truthy (Some resultats) = true).
Proof.
  unfold simulation_missing.
  destruct (truthy data) eqn:Hdata; cbn [negb].
  - destruct data as [[| b | x | s | items | members] |]; try discriminate Hdata;
      try (exists true; split; [reflexivity |];
           split; [discriminate | intros (? & ? & ? & ? & _); discriminate]).
    cbn [get_property bind].
    destruct (own_property (utf16 "objectifs") members) as [o |] eqn:Ho;
      [| exists true; split; [reflexivity |];
         split; [discriminate | intros (? & ? & ? & E & E' & _)];
         injection E as <-; congruence ].
    destruct (truthy (Some o)) eqn:Hto; cbn [negb];
      [| exists true; split; [reflexivity |];
         split; [discriminate | intros (? & ? & ? & E & E' & _ & E'' & _)];
         injection E as <-; congruence ].
    cbn [bind].
    destruct (own_property (utf16 "resultats") members) as [r |] eqn:Hr;
      [| exists true; split; [reflexivity |];
         split; [discriminate | intros (? & ? & ? & E & _ & E' & _)];
         injection E as <-; congruence ].
    destruct (truthy (Some r)) eqn:Htr; cbn [negb].
    + exists false. split; [reflexivity |]. split; [| reflexivity].
      intros _. exists members, o, r. auto.
    + exists true. split; [reflexivity |].
      split; [discriminate | intros (? & ? & ? & E & _ & E' & _ & E'')].
      injection E as <-. congruence.
  - exists true. split; [reflexivity |].
    split; [discriminate | intros (? & ? & ? & -> & _)]. discriminate Hdata.
Qed.

(** The statements before the call of the service complete exactly on a
    body that holds a simulation that can be written out. *)
Lemma prepare_returns_iff (parsed : json) :
  (exists message, prepare Number_toString parsed = Returns message) <->
  mail_ready Number_toString parsed.
Proof.
  unfold prepare, mail_ready, theme_of.
  destruct parsed as [| b | x | s | items | body_members];
    cbn [get_property bind field];
    try (split; [intros [? E]; cbv in E; discriminate E
                | intros (? & ? & ? & E & _); discriminate E]).
  set (data := own_property (utf16 "data") body_members).
  set (theme := match own_property (utf16 "theme") body_members with
                | Some t => t
                | None => JString (utf16 "default")
                end).
  destruct (simulation_missing_spec data) as (missing & -> & Hmissing).
  cbn [bind]. destruct missing.
  - split; [intros [? E]; discriminate E |].
    intros (members & o & r & E & Ho & Hr & Hto & Htr & _).
    assert (true = false); [| discriminate].
    apply Hmissing. exists members, o, r. auto.
  - destruct (proj1 Hmissing eq_refl) as (members & o & r & Hd & Ho & Hr & Hto & Htr).
    rewrite Hd.
    destruct (converts Number_toString (Some theme)) eqn:Hkey.
    + pose proof (getEmailBody_returns_iff theme members o r Ho Hr Hto Htr Hkey) as Hbody.
      apply converts_returns in Hkey as [key Hkey].
      unfold property_key. cbn [interpolate] in Hkey. rewrite Hkey. cbn [bind].
      split.
      * intros [message E].
        destruct (getEmailBody Number_toString theme (Some (JObject members)))
          as [b |] eqn:Eb; [| discriminate E].
        exists members, o, r. repeat (split; [assumption || reflexivity |]).
        apply Hbody. eauto.
      * intros (members' & o' & r' & E & Ho' & Hr' & _ & _ & _ & Hall).
        injection E as <-. rewrite Ho in Ho'. rewrite Hr in Hr'.
        injection Ho' as <-. injection Hr' as <-.
        apply Hbody in Hall as [b ->]. cbn [bind]. eauto.
    + split.
      * intros [message E]. unfold converts in Hkey. unfold property_key in E.
        cbn [interpolate] in Hkey.
        destruct (ToString Number_toString theme); [discriminate Hkey | discriminate E].
      * intros (? & ? & ? & _ & _ & _ & _ & _ & Hk & _). discriminate Hk.
Qed.

(** The [try] block hands an e-mail to the service exactly when the service
    was constructed and the body parsed to a value that holds a
    simulation that can be written out. *)
Lemma try_block_hands (mail : MailService) (event : Event) :
  fst (try_block Number_toString mail event) <> None <->
  constructs mail = true /\
  exists parsed, parsed_body event = Some parsed /\ mail_ready Number_toString parsed.
Proof.
  unfold try_block. destruct (constructs mail); cbn [negb];
    [| split; [intros []; reflexivity | intros [Hc _]; discriminate]].
  destruct (parsed_body event) as [parsed |];
    [| split; [intros []; reflexivity | intros (_ & p & Hp & _); discriminate]].
  pose proof (prepare_returns_iff parsed) as Hprep.
  destruct (prepare Number_toString parsed) as [message |]; cbn [fst]; split.
  - intros _. split; [reflexivity |]. exists parsed. split; [reflexivity |].
    apply Hprep. eauto.
  - discriminate.
  - intros []. reflexivity.
  - intros (_ & p & Hp & Hsim). injection Hp as <-.
    apply Hprep in Hsim as [m Hm]. discriminate Hm.
Qed.

(** The response of the handler to a [POST]. *)
Lemma handler_post (mail : MailService) (event : Event) :
  httpMethod event = utf16 "POST" ->
  snd (handler Number_toString mail event) = fst (try_block Number_toString mail event) /\
  statusCode (fst (handler Number_toString mail event))
  = (if snd (try_block Number_toString mail event) then 200 else 500)%Z.
Proof.
  intros Hpost. unfold handler. rewrite Hpost.
  replace (jsstring_eqb (utf16 "POST") (utf16 "POST")) with true
    by (vm_compute; reflexivity).
  cbn [negb]. destruct (try_block Number_toString mail event) as [handed []]; auto.
Qed.

End MailFacts.

(** ** X13: what the mail function answers *)

(** X13. The handler answers 405 exactly when the method is not [POST], and
    then hands nothing to the mail service. Otherwise it hands an e-mail to
    the service exactly when the service was constructed and the body
    parsed to a value whose [data] holds truthy [objectifs] and
    [resultats], whose theme converts to a property key and whose values
    interpolated by the body of that theme all convert to strings, whatever
    the [email] field is; it answers 200 exactly when the sending of that
    e-mail resolves, and 500 in every other case. *)
Theorem handler_outcomes :
  forall (Number_toString : float -> jsstring) (mail : MailService) (event : Event),
    let response := fst (handler Number_toString mail event) in
    let handed := snd (handler Number_toString mail event) in
    (statusCode response = 405%Z \/ statusCode response = 200%Z
     \/ statusCode response = 500%Z) /\
    (statusCode response = 405%Z <-> httpMethod event <> utf16 "POST") /\
    (handed <> None <->
     httpMethod event = utf16 "POST" /\ constructs mail = true /\
     exists parsed, parsed_body event = Some parsed /\
                    mail_ready Number_toString parsed) /\
    (statusCode response = 200%Z <->
     exists message, handed = Some message /\ send_resolves mail message = true).
Proof.
  intros Number_toString mail event. cbv zeta. unfold handler.
  pose proof (try_block_hands Number_toString mail event) as Hhands.
  destruct (jsstring_eqb (httpMethod event) (utf16 "POST")) eqn:Hpost; cbn [negb].
  - apply jsstring_eqb_eq in Hpost.
    assert (Hsent : forall m, fst (try_block Number_toString mail event) = Some m ->
                              snd (try_block Number_toString mail event)
                              = send_resolves mail m).
    { unfold try_block. destruct (constructs mail); cbn [negb]; [| discriminate].
      destruct (parsed_body event) as [parsed |]; [| discriminate].
      destruct (prepare Number_toString parsed); [| discriminate].
      cbn. intros m E. now injection E as <-. }
    assert (Hnone : fst (try_block Number_toString mail event) = None ->
                    snd (try_block Number_toString mail event) = false).
    { unfold try_block. destruct (constructs mail); cbn [negb]; [| reflexivity].
      destruct (parsed_body event) as [parsed |]; [| reflexivity].
      destruct (prepare Number_toString parsed); [discriminate | reflexivity]. }
    destruct (try_block Number_toString mail event) as [handed completes];
      cbn [fst snd] in *.
    destruct completes; cbn [fst snd statusCode].
    + split; [auto |]. split; [split; [discriminate | congruence] |].
      split; [rewrite Hhands; tauto |]. split; [intros _ | reflexivity].
      destruct handed as [m |]; [| discriminate (Hnone eq_refl)].
      exists m. split; [reflexivity |]. symmetry. now apply Hsent.
    + split; [auto |]. split; [split; [discriminate | congruence] |].
      split; [rewrite Hhands; tauto |]. split; [discriminate |].
      intros (m & -> & Hm). rewrite <- (Hsent m eq_refl) in Hm. discriminate Hm.
  - assert (Hnot : httpMethod event <> utf16 "POST").
    { intros E. apply jsstring_eqb_eq in E. congruence. }
    cbn [fst snd statusCode].
    split; [auto |]. split; [tauto |].
    split; [split; [congruence | tauto] |].
    split; [discriminate | intros (m & E & _); discriminate E].
Qed.

(** A body whose theme is an object with a member [toString], as
    [{"theme": {"toString": null}, "data": ...}], is answered 500 and
    nothing is handed to the service: the lookup of the subject throws. So
    is a succession whose amount is such an object. *)
Example handler_theme_does_not_convert :
  forall (Number_toString : float -> jsstring) (send : Email -> bool),
    let simulation :=
      JObject [ (utf16 "objectifs", JObject [ (utf16 "montantTransmis", JString (utf16 "1 €")) ]);
                (utf16 "resultats", JObject [ (utf16 "droitsAPayer", JString (utf16 "0 €")) ]) ] in
    let event :=
      {| httpMethod := utf16 "POST";
         parsed_body :=
           Some (JObject [ (utf16 "email", JString (utf16 "a@b.c"));
                           (utf16 "data", simulation);
                           (utf16 "theme", JObject [ (utf16 "toString", JNull) ]) ]) |} in
    let response := fst (handler Number_toString {| constructs := true; send_resolves := send |} event) in
    statusCode response = 500%Z /\
    snd (handler Number_toString {| constructs := true; send_resolves := send |} event) = None.
Proof. intros Number_toString send. vm_compute. split; reflexivity. Qed.

Example handler_amount_does_not_convert :
  forall (Number_toString : float -> jsstring) (send : Email -> bool),
    let simulation :=
      JObject [ (utf16 "objectifs",
                 JObject [ (utf16 "montantTransmis", JObject [ (utf16 "toString", JNull) ]) ]);
                (utf16 "resultats", JObject [ (utf16 "droitsAPayer", JString (utf16 "0 €")) ]) ] in
    let event :=
      {| httpMethod := utf16 "POST";
         parsed_body :=
           Some (JObject [ (utf16 "email", JString (utf16 "a@b.c"));
                           (utf16 "data", simulation);
                           (utf16 "theme", JString (utf16 "Succession")) ]) |} in
    let response := fst (handler Number_toString {| constructs := true; send_resolves := send |} event) in
    statusCode response = 500%Z /\
    snd (handler Number_toString {| constructs := true; send_resolves := send |} event) = None.
Proof. intros Number_toString send. vm_compute. split; reflexivity. Qed.

(** ** X14: from the form to the mail function and back *)

Section EndToEnd.

Context {N : Type} `{JsNumber N}.
Variable toLocaleString_fr : N -> jsstring.
Variable toLocaleString_fr_EUR : N -> jsstring.
Variable Number_toString : float -> jsstring.

Lemma prepare_request (c : Component N) :
  In (lienParente_of (inputs c)) categories ->
  prepare Number_toString
    (payload (simulation_request toLocaleString_fr toLocaleString_fr_EUR c))
  = Returns (expected_email toLocaleString_fr toLocaleString_fr_EUR c).
Proof.
  destruct c as [[ty k mt da] disp mail_ sending msg]. cbn [inputs lienParente_of].
  unfold categories. cbn [In].
  intros [<- | [<- | [<- | [<- | [<- | []]]]]]; destruct ty; vm_compute; reflexivity.
Qed.

Lemma handler_request (mail : MailService) (c : Component N) :
  constructs mail = true ->
  In (lienParente_of (inputs c)) categories ->
  handler Number_toString mail
    (event_of (simulation_request toLocaleString_fr toLocaleString_fr_EUR c))
  = (if send_resolves mail (expected_email toLocaleString_fr toLocaleString_fr_EUR c)
     then {| statusCode := 200;
             body := BodyJson
                       (JObject [ (utf16 "message",
                                   JString (utf16 "Email envoyé avec succès !")) ]) |}
     else {| statusCode := 500;
             body := BodyJson
                       (JObject [ (utf16 "error",
                                   JString (utf16 "Une erreur est survenue lors de l'envoi de l'email.")) ]) |},
     Some (expected_email toLocaleString_fr toLocaleString_fr_EUR c)).
Proof.
  intros Hmail Hk. unfold handler, event_of. cbn [httpMethod parsed_body].
  change (method (simulation_request toLocaleString_fr toLocaleString_fr_EUR c))
    with (utf16 "POST").
  replace (jsstring_eqb (utf16 "POST") (utf16 "POST")) with true
    by (vm_compute; reflexivity).
  cbn [negb]. unfold try_block. rewrite Hmail. cbn [negb parsed_body].
  rewrite (prepare_request c Hk).
  destruct (send_resolves mail _); reflexivity.
Qed.

(** X14. When the form accepts the address, the category is one of the
    registry's and the mail service can be constructed, the mail function
    prepares from the form's request one e-mail: to the address as typed,
    with the succession subject, the four parameters as the form wrote
    them, and the exemption notice exactly when the spouse inherits,
    otherwise the duty, the net amount and the applied allowance. The form
    then shows the success message and empties the address field exactly
    when the sending resolves, and the error message otherwise; the inputs
    and the results stay as they were. *)
Theorem submission_reaches_mail_function :
  forall (mail : MailService) (c : Component N),
    email_accepted (email c) = true ->
    constructs mail = true ->
    In (lienParente_of (inputs c)) categories ->
    let c' := fst (submit_to toLocaleString_fr toLocaleString_fr_EUR Number_toString mail c) in
    snd (submit_to toLocaleString_fr toLocaleString_fr_EUR Number_toString mail c)
    = Some (expected_email toLocaleString_fr toLocaleString_fr_EUR c) /\
    inputs c' = inputs c /\ display c' = display c /\ isSending c' = false /\
    (send_resolves mail (expected_email toLocaleString_fr toLocaleString_fr_EUR c) = true ->
     email c' = [] /\
     emailMessage c'
     = utf16 "Votre simulation a bien été envoyée à " ++ email c ++ utf16 ".") /\
    (send_resolves mail (expected_email toLocaleString_fr toLocaleString_fr_EUR c) = false ->
     email c' = email c /\
     emailMessage c' = utf16 "Une erreur est survenue. Veuillez réessayer.").
Proof.
  intros mail c Hacc Hmail Hk. cbv zeta.
  unfold submit_to, handleEmailSubmit. rewrite Hacc. cbn [negb].
  rewrite (handler_request mail c Hmail Hk).
  destruct (send_resolves mail _) eqn:Hsend; cbn [fst snd].
  - replace (response_ok _) with true by reflexivity.
    unfold after_fetch.
    cbn [set_emailMessage set_isSending set_email
         inputs display email isSending emailMessage].
    split; [reflexivity |]. split; [reflexivity |]. split; [reflexivity |].
    split; [reflexivity |]. split; [split; reflexivity | discriminate].
  - replace (response_ok _) with false by reflexivity.
    unfold after_fetch.
    cbn [set_emailMessage set_isSending set_email
         inputs display email isSending emailMessage].
    split; [reflexivity |]. split; [reflexivity |]. split; [reflexivity |].
    split; [reflexivity |]. split; [discriminate | split; reflexivity].
Qed.

End EndToEnd.

Lemma submission_reaches_mail_function_witness :
  let c := example_component in
  let mail := {| constructs := true; send_resolves := fun _ => true |} in
  let c' := fst (submit_to (fun _ => []) (fun _ => []) (fun _ => []) mail c) in
  snd (submit_to (fun _ => []) (fun _ => []) (fun _ => []) mail c)
  = Some (expected_email (fun _ => []) (fun _ => []) c) /\
  inputs c' = inputs c /\ display c' = display c /\ isSending c' = false /\
  (send_resolves mail (expected_email (fun _ => []) (fun _ => []) c) = true ->
   email c' = [] /\
   emailMessage c'
   = utf16 "Votre simulation a bien été envoyée à " ++ email c ++ utf16 ".") /\
  (send_resolves mail (expected_email (fun _ => []) (fun _ => []) c) = false ->
   email c' = email c /\
   emailMessage c' = utf16 "Une erreur est survenue. Veuillez réessayer.").
Proof.
  apply (submission_reaches_mail_function (fun _ => []) (fun _ => []) (fun _ => [])
           {| constructs := true; send_resolves := fun _ => true |} example_component).
  - reflexivity.
  - reflexivity.
  - cbn. tauto.
Defined.

(** ** X15: every theme with a subject has a body *)

Section Themes.

Variable Number_toString : float -> jsstring.

Local Open Scope outcome_scope.

Ltac convert_in H :=
  match type of H with
  | context [bind (interpolate ?f ?v) _] =>
      destruct (interpolate f v); cbn [bind] in H; [| discriminate H]
  end.

Ltac decide_test H :=
  match type of H with
  | (if ?t then _ else _) = _ =>
      let bt := eval vm_compute in t in
      replace t with bt in H by (vm_compute; reflexivity);
      cbv iota in H
  end.

(** X15. Take one of the eight themes that have a subject, and a body whose
    [data] holds truthy [objectifs] and [resultats]. The theme is its own
    property key and its subject is its own entry of [emailSubjects]. When
    every value that the body of the theme interpolates converts to a
    string, [getEmailBody] returns the body of that theme: the succession
    body for ['Succession'], the dismemberment body for ['Démembrement'],
    and for the six others the general body with the title and the label
    of the theme's own entry of [emailTemplates]. When one of the values
    does not convert, [getEmailBody] throws. *)
Theorem every_subject_theme_has_a_body :
  forall (key : string) (members : list (jsstring * json)) (objectifs resultats : json),
    In key (map fst emailSubjects) ->
    own_property (utf16 "objectifs") members = Some objectifs ->
    own_property (utf16 "resultats") members = Some resultats ->
    truthy (Some objectifs) = true -> truthy (Some resultats) = true ->
    property_key Number_toString (JString (utf16 key)) = Returns (utf16 key) /\
    (exists text, subject_of (utf16 key) = SubjectText text /\
                  table_entry emailSubjects (utf16 key) = Some text) /\
    (forallb (converts Number_toString)
             (interpolated (JString (utf16 key)) objectifs resultats) = false ->
     getEmailBody Number_toString (JString (utf16 key)) (Some (JObject members)) = Throws) /\
    (forallb (converts Number_toString)
             (interpolated (JString (utf16 key)) objectifs resultats) = true ->
     exists b,
       getEmailBody Number_toString (JString (utf16 key)) (Some (JObject members))
       = Returns b /\
       match b with
       | SuccessionBody _ _ _ _ _ => key = "Succession"%string
       | DemembrementBody _ _ _ _ _ => key = "Démembrement"%string
       | GenericBody title_ objectiveLabel_ _ _ _ _ _ =>
           exists template,
             table_entry emailTemplates (utf16 key) = Some template /\
             title template = Some title_ /\
             objectiveLabel template = Some objectiveLabel_
       end).
Proof.
  intros key members o r Hkey Ho Hr Hto Htr.
  pose proof (getEmailBody_returns_iff Number_toString (JString (utf16 key))
                members o r Ho Hr Hto Htr eq_refl) as Hiff.
  split; [reflexivity |].
  split.
  { cbn [map fst emailSubjects In] in Hkey.
    destruct Hkey as [<- | [<- | [<- | [<- | [<- | [<- | [<- | [<- | []]]]]]]]];
      eexists; split; vm_compute; reflexivity. }
  split.
  { intros Hall.
    destruct (getEmailBody Number_toString (JString (utf16 key)) (Some (JObject members)))
      as [b |]; [| reflexivity].
    assert (Hall' : forallb (converts Number_toString)
                      (interpolated (JString (utf16 key)) o r) = true)
      by (apply Hiff; eauto).
    rewrite Hall in Hall'. discriminate Hall'. }
  intros Hall. apply Hiff in Hall as [b Hb]. exists b. split; [exact Hb |].
  clear Hiff.
  unfold getEmailBody in Hb. cbn [get_property bind] in Hb. rewrite Ho, Hr in Hb.
  cbn [bind] in Hb.
  rewrite !(get_property_field o) in Hb by exact Hto.
  rewrite !(interpolate_property_field Number_toString o) in Hb by exact Hto.
  rewrite !(interpolate_property_field Number_toString r) in Hb by exact Htr.
  cbn [bind] in Hb. unfold property_key in Hb. cbn [ToString] in Hb.
  cbn [map fst emailSubjects In] in Hkey.
  destruct Hkey as [<- | [<- | [<- | [<- | [<- | [<- | [<- | [<- | []]]]]]]]];
    decide_test Hb; try decide_test Hb; cbn [bind] in Hb;
    try (destruct (is_string (field o "typeTransmission") "Succession"
                   && is_string (field o "lienParente") "conjoint");
         cbn [bind] in Hb);
    repeat convert_in Hb;
    apply Returns_inj in Hb; subst b;
    try reflexivity;
    (eexists; split; [vm_compute; reflexivity | split; vm_compute; reflexivity]).
Qed.

End Themes.

Lemma every_subject_theme_has_a_body_witness :
  let key := "Retraite"%string in
  let objectifs := JObject [ (utf16 "dureePlacement", JString (utf16 "10 ans")) ] in
  let resultats := JObject [ (utf16 "capitalVise", JString (utf16 "100 000 €")) ] in
  let members := [ (utf16 "objectifs", objectifs); (utf16 "resultats", resultats) ] in
  property_key (fun _ => []) (JString (utf16 key)) = Returns (utf16 key) /\
  (exists text, subject_of (utf16 key) = SubjectText text /\
                table_entry emailSubjects (utf16 key) = Some text) /\
  (forallb (converts (fun _ => []))
           (interpolated (JString (utf16 key)) objectifs resultats) = false ->
   getEmailBody (fun _ => []) (JString (utf16 key)) (Some (JObject members)) = Throws) /\
  (forallb (converts (fun _ => []))
           (interpolated (JString (utf16 key)) objectifs resultats) = true ->
   exists b,
     getEmailBody (fun _ => []) (JString (utf16 key)) (Some (JObject members))
     = Returns b /\
     match b with
     | SuccessionBody _ _ _ _ _ => key = "Succession"%string
     | DemembrementBody _ _ _ _ _ => key = "Démembrement"%string
     | GenericBody title_ objectiveLabel_ _ _ _ _ _ =>
         exists template,
           table_entry emailTemplates (utf16 key) = Some template /\
           title template = Some title_ /\
           objectiveLabel template = Some objectiveLabel_
     end).
Proof.
  apply (every_subject_theme_has_a_body (fun _ => []) "Retraite"
           [ (utf16 "objectifs", JObject [ (utf16 "dureePlacement", JString (utf16 "10 ans")) ]);
             (utf16 "resultats", JObject [ (utf16 "capitalVise", JString (utf16 "100 000 €")) ]) ]
           (JObject [ (utf16 "dureePlacement", JString (utf16 "10 ans")) ])
           (JObject [ (utf16 "capitalVise", JString (utf16 "100 000 €")) ])).
  - vm_compute. tauto.
  - reflexivity.
  - reflexivity.
  - reflexivity.
  - reflexivity.
Defined.
